(** * FastSlides desktop: asset paths, asset cache, slide index, design tokens

    A shallow embedding of the pure and state-passing parts of the desktop
    front end ([app/page.tsx], [components/workspace/SlideTocRail.tsx] and
    [components/sidebar/ProjectList.tsx]), followed by the properties proved
    about them.

    JavaScript strings are modelled as Rocq [string]s, that is as sequences of
    8-bit code units: the code units U+0000..U+00FF of a JavaScript string.
    Integers ([number]s that hold indices and counts) are modelled in [Z]. *)

From stdpp Require Import gmap strings pretty.
From Stdlib Require Import String Ascii ZArith Lia List Bool Sorted Permutation.
Import ListNotations.

Local Open Scope string_scope.
Local Open Scope Z_scope.

#[local] Arguments String.append !s1 s2 : simpl nomatch.

(** ** JavaScript string primitives *)

Module JsString.

(** [WhiteSpace] and [LineTerminator] code units below U+0100: TAB, LF, VT,
    FF, CR, SP and NBSP. These are what [trim] strips and what [\s] matches. *)
Definition isWhiteSpace (c : ascii) : bool :=
  let n := N_of_ascii c in
  ((9 <=? n) && (n <=? 13) || (n =? 32) || (n =? 160))%N.

(** [LineTerminator] code units below U+0100: what [.] does not match. *)
Definition isLineTerminator (c : ascii) : bool :=
  let n := N_of_ascii c in
  ((n =? 10) || (n =? 13))%N.

(** [\w]: ASCII letters, digits and underscore. *)
Definition isWordChar (c : ascii) : bool :=
  let n := N_of_ascii c in
  ((48 <=? n) && (n <=? 57) || (65 <=? n) && (n <=? 90)
   || (97 <=? n) && (n <=? 122) || (n =? 95))%N.

Definition isEmpty (s : string) : bool :=
  match s with EmptyString => true | String _ _ => false end.

Fixpoint trimStart (s : string) : string :=
  match s with
  | String c s' => if isWhiteSpace c then trimStart s' else s
  | EmptyString => EmptyString
  end.

Fixpoint trimEnd (s : string) : string :=
  match s with
  | String c s' =>
      match trimEnd s' with
      | EmptyString => if isWhiteSpace c then EmptyString else String c EmptyString
      | t => String c t
      end
  | EmptyString => EmptyString
  end.

(** [s.trim()] *)
Definition trim (s : string) : string := trimEnd (trimStart s).

(** Lower-casing of one code unit below U+0100: A-Z, and the Latin-1
    capitals U+00C0..U+00DE except the multiplication sign U+00D7. *)
Definition toLowerChar (c : ascii) : ascii :=
  let n := N_of_ascii c in
  if ((65 <=? n) && (n <=? 90)
      || (192 <=? n) && (n <=? 222) && negb (n =? 215))%N
  then ascii_of_N (n + 32) else c.

(** [s.toLowerCase()] *)
Fixpoint toLowerCase (s : string) : string :=
  match s with
  | String c s' => String (toLowerChar c) (toLowerCase s')
  | EmptyString => EmptyString
  end.

(** [s.startsWith(p)] *)
Fixpoint startsWith (s p : string) {struct p} : bool :=
  match p with
  | EmptyString => true
  | String b p' =>
      match s with
      | String a s' => Ascii.eqb a b && startsWith s' p'
      | EmptyString => false
      end
  end.

(** [s.slice(1)] *)
Definition sliceFrom1 (s : string) : string :=
  match s with String _ s' => s' | EmptyString => EmptyString end.

(** [s.slice(0, -1)] *)
Fixpoint sliceDropLast (s : string) : string :=
  match s with
  | String c s' =>
      match s' with
      | EmptyString => EmptyString
      | String _ _ => String c (sliceDropLast s')
      end
  | EmptyString => EmptyString
  end.

(** [s.replace(/\\/g, "/")] *)
Fixpoint replaceBackslashes (s : string) : string :=
  match s with
  | String c s' =>
      String (if Ascii.eqb c "\"%char then "/"%char else c) (replaceBackslashes s')
  | EmptyString => EmptyString
  end.

(** [s.split("/")]: never the empty array. *)
Fixpoint splitSlash (s : string) : list string :=
  match s with
  | EmptyString => [EmptyString]
  | String c s' =>
      if Ascii.eqb c "/"%char then EmptyString :: splitSlash s'
      else match splitSlash s' with
           | part :: parts => String c part :: parts
           | [] => [String c EmptyString]
           end
  end.

(** [parts.join("/")] *)
Fixpoint joinSlash (parts : list string) : string :=
  match parts with
  | [] => EmptyString
  | [part] => part
  | part :: rest => part +:+ "/" +:+ joinSlash rest
  end.

(** [parts.join("\n")] *)
Fixpoint joinLines (parts : list string) : string :=
  match parts with
  | [] => EmptyString
  | [part] => part
  | part :: rest => part +:+ String "010"%char (joinLines rest)
  end.

(** The line feed, written [\n] in the source. *)
Definition LF : string := String "010"%char EmptyString.

(** Every code unit of [s] satisfies [P]. *)
Fixpoint allChars (P : ascii -> bool) (s : string) : bool :=
  match s with
  | String c s' => P c && allChars P s'
  | EmptyString => true
  end.

Definition isSlash (c : ascii) : bool := Ascii.eqb c "/"%char.
Definition isBackslash (c : ascii) : bool := Ascii.eqb c "\"%char.

(** The longest prefix of [s] whose code units satisfy [P], and what follows
    it. *)
Fixpoint takeWhile (P : ascii -> bool) (s : string) : string :=
  match s with
  | String c s' => if P c then String c (takeWhile P s') else EmptyString
  | EmptyString => EmptyString
  end.

Fixpoint dropWhile (P : ascii -> bool) (s : string) : string :=
  match s with
  | String c s' => if P c then dropWhile P s' else s
  | EmptyString => EmptyString
  end.

(** A character that [split] and the backslash rewrite leave inside a
    segment. *)
Definition isSegmentChar (c : ascii) : bool := negb (isSlash c) && negb (isBackslash c).

End JsString.

(** ** A backtracking matcher for the regular expressions of the source

    The expressions used by the modelled functions are sequences of literal
    characters, the end anchor, and a character class under [*], [+] or [+?],
    possibly wrapped in a capture group. The matcher follows the backtracking
    order of ECMAScript: a greedy quantifier first tries to take one more
    character and falls back to the continuation, a lazy one does the
    opposite. *)

Module Regex.

Inductive quantifier := Greedy | Lazy.

Inductive piece :=
| Lit (c : ascii)
| EndOfInput
| Rep (q : quantifier) (min : nat) (cls : ascii -> bool) (captured : bool).

Definition regex := list piece.

Definition orElse {A} (x y : option A) : option A :=
  match x with Some _ => x | None => y end.

Section Repetition.
Context {R : Type} (q : quantifier) (min : nat) (cls : ascii -> bool).
(** continuation: the text taken by the repetition, then the rest *)
Context (k : string -> string -> option R).

Fixpoint rep (s taken : string) (n : nat) : option R :=
  let stop := if (min <=? n)%nat then k taken s else None in
  match s with
  | String c s' =>
      if cls c then
        match q with
        | Greedy => orElse (rep s' (taken +:+ String c EmptyString) (S n)) stop
        | Lazy => orElse stop (rep s' (taken +:+ String c EmptyString) (S n))
        end
      else stop
  | EmptyString => stop
  end.
End Repetition.

(** A match found at the start of the input: the captures in group order
    and the input left after the match. *)
Definition found : Type := list string * string.

Fixpoint matchHere (r : regex) : string -> list string -> option found :=
  match r with
  | [] => fun s caps => Some (caps, s)
  | p :: r' =>
      let k := matchHere r' in
      match p with
      | Lit c => fun s caps =>
          match s with
          | String d s' => if Ascii.eqb c d then k s' caps else None
          | EmptyString => None
          end
      | EndOfInput => fun s caps =>
          match s with
          | EmptyString => k s caps
          | String _ _ => None
          end
      | Rep q min cls captured => fun s caps =>
          rep q min cls
            (fun taken rest => k rest (if captured then (caps ++ [taken])%list else caps))
            s EmptyString 0%nat
      end
  end.

(** Leftmost match at or after the current position, as [exec] finds it. *)
Fixpoint search (r : regex) (s : string) : option found :=
  match matchHere r s [] with
  | Some m => Some m
  | None =>
      match s with
      | String _ s' => search r s'
      | EmptyString => None
      end
  end.

End Regex.

(** ** Path sanitizer ([normalizeProjectRelativeAsset]) *)

Import JsString.

Definition PROJECT_ROOT_ABSOLUTE_ASSET_PREFIXES : list string :=
  ["/assets/"; "/images/"; "/media/"; "/data/"].

Definition isExternalAssetPath (value : string) : bool :=
  let lower := toLowerCase value in
  startsWith value "//"
  || startsWith lower "http://"
  || startsWith lower "https://"
  || startsWith lower "data:"
  || startsWith lower "blob:"
  || startsWith lower "mailto:"
  || startsWith lower "tel:".

(** The expression of [splitAssetPathAndSuffix]: from the start of the input,
    group 1 is a greedy run of characters other than [?] and [#], group 2 a
    greedy run of characters other than line terminators, then the end of the
    input. The start anchor is rendered by matching at the first position
    only. *)
Definition notQueryOrHash (c : ascii) : bool :=
  negb (Ascii.eqb c "?"%char || Ascii.eqb c "#"%char).

Definition anyButLineTerminator (c : ascii) : bool := negb (isLineTerminator c).

Definition PATH_AND_SUFFIX_RE : Regex.regex :=
  [Regex.Rep Regex.Greedy 0 notQueryOrHash true;
   Regex.Rep Regex.Greedy 0 anyButLineTerminator true;
   Regex.EndOfInput].

Record PathAndSuffix := { pathOnly : string; suffix : string }.

Definition splitAssetPathAndSuffix (raw : string) : PathAndSuffix :=
  match Regex.matchHere PATH_AND_SUFFIX_RE raw [] with
  | Some ([g1; g2], _) => {| pathOnly := g1; suffix := g2 |}
  | _ => {| pathOnly := raw; suffix := EmptyString |}
  end.

(** Lines 650-669: the checks before the segment loop. The result is the
    string [relative] that the loop splits, or [None] where the source
    returns [null]. *)
Definition projectRelativeCandidate (raw : string) : option string :=
  let trimmed := trim raw in
  if isEmpty trimmed || startsWith trimmed "#" || isExternalAssetPath trimmed
  then None
  else
    let pathOnly := pathOnly (splitAssetPathAndSuffix trimmed) in
    if isEmpty pathOnly then None
    else
      let relative := replaceBackslashes pathOnly in
      if startsWith relative "/" then
        let supportedRootRelative :=
          existsb (fun prefix =>
                     String.eqb relative (sliceDropLast prefix)
                     || startsWith relative prefix)
                  PROJECT_ROOT_ABSOLUTE_ASSET_PREFIXES in
        if negb supportedRootRelative then None
        else Some (sliceFrom1 relative)
      else Some relative.

(** Lines 671-684: the loop over the segments. [normalizedParts] is the array
    built so far; [push] appends at the end and [pop] removes the last. *)
Fixpoint normalizeSegments (parts normalizedParts : list string)
  : option (list string) :=
  match parts with
  | [] => Some normalizedParts
  | part :: rest =>
      if isEmpty part || String.eqb part "." then
        normalizeSegments rest normalizedParts
      else if String.eqb part ".." then
        if (length normalizedParts =? 0)%nat then None
        else normalizeSegments rest (removelast normalizedParts)
      else normalizeSegments rest (normalizedParts ++ [part])%list
  end.

Definition normalizeProjectRelativeAsset (raw : string) : option string :=
  match projectRelativeCandidate raw with
  | None => None
  | Some relative =>
      match normalizeSegments (splitSlash relative) [] with
      | None => None
      | Some normalizedParts =>
          if (length normalizedParts =? 0)%nat then None
          else Some (joinSlash normalizedParts)
      end
  end.

(** The vocabulary of the specification of the sanitizer: the prefixes that
    mark a reference as external, and the recognised top-level asset folders. *)
Definition EXTERNAL_PREFIXES : list string :=
  ["http://"; "https://"; "data:"; "blob:"; "mailto:"; "tel:"; "//"].



(** A segment that the loop keeps: not empty, not [.], not [..], and made of
    segment characters. *)
Definition keptSegment (part : string) : bool :=
  negb (isEmpty part || String.eqb part ".") && negb (String.eqb part "..")
  && allChars isSegmentChar part.

(** The sanitizer applied to its own result. *)
Definition sanitizeTwice (raw : string) : option string :=
  match normalizeProjectRelativeAsset raw with
  | Some q => normalizeProjectRelativeAsset q
  | None => None
  end.

(** ** Asset resolver ([resolveProjectAssetSource]) and its callers

    Promises are modelled by what they settle to. The module-level cache
    [projectAssetDataUrlCache] and a log of the backend invocations issued so
    far form the state threaded through the calls. A call is modelled twice:
    as one function of the state, for a call that no other call overlaps,
    and in the two parts that its [await] separates, for calls that
    overlap. *)

Module Resolver.

Inductive Settled (A : Type) :=
| Fulfilled (value : A)
| Rejected (cause : string).
Arguments Fulfilled {A} value.
Arguments Rejected {A} cause.

(** What the function reads from its surroundings: whether the page runs
    inside the desktop shell, and what the backend command
    [resolve_project_asset_data_url] settles to for a project path and a raw
    reference. *)
Record Runtime := {
  isTauriRuntime : bool;
  invoke_resolve_project_asset_data_url : string -> string -> Settled string;
}.

Record World := {
  projectAssetDataUrlCache : gmap string string;
  backendReads : list (string * string);
}.

(** JavaScript truthiness of a string *)
Definition truthy (s : string) : bool := negb (isEmpty s).

(** [call<string>("resolve_project_asset_data_url", { projectPath, rawSrc })] *)
Definition call_resolve_project_asset_data_url
    (rt : Runtime) (projectPath rawSrc : string) (w : World)
  : Settled string * World :=
  if negb (isTauriRuntime rt) then
    (Rejected "Tauri runtime not detected. Launch this screen with `npm run tauri:dev`.", w)
  else
    (invoke_resolve_project_asset_data_url rt projectPath rawSrc,
     {| projectAssetDataUrlCache := projectAssetDataUrlCache w;
        backendReads := (backendReads w ++ [(projectPath, rawSrc)])%list |}).

Definition cacheKeyOf (projectPath normalizedRelative : string) : string :=
  projectPath +:+ "::" +:+ normalizedRelative.

Definition resolveProjectAssetSource
    (rt : Runtime) (projectPath rawSrc : string) (w : World)
  : Settled string * World :=
  let fromBackend (cacheKey : string) :=
    match call_resolve_project_asset_data_url rt projectPath rawSrc w with
    | (Fulfilled nextSource, w') =>
        (Fulfilled nextSource,
         {| projectAssetDataUrlCache :=
              <[cacheKey := nextSource]> (projectAssetDataUrlCache w');
            backendReads := backendReads w' |})
    | (Rejected cause, w') => (Rejected cause, w')
    end in
  match normalizeProjectRelativeAsset rawSrc with
  | None => (Fulfilled rawSrc, w)
  | Some normalizedRelative =>
      if negb (truthy normalizedRelative) || negb (truthy projectPath)
         || negb (isTauriRuntime rt)
      then (Fulfilled rawSrc, w)
      else
        let cacheKey := cacheKeyOf projectPath normalizedRelative in
        match projectAssetDataUrlCache w !! cacheKey with
        | Some cached =>
            if truthy cached then (Fulfilled cached, w) else fromBackend cacheKey
        | None => fromBackend cacheKey
        end
  end.

(** A sequence of calls made one after the other, each settled before the
    next starts. *)
Fixpoint resolveAll (rt : Runtime) (calls : list (string * string)) (w : World)
  : World :=
  match calls with
  | [] => w
  | (projectPath, rawSrc) :: rest =>
      resolveAll rt rest (snd (resolveProjectAssetSource rt projectPath rawSrc w))
  end.

(** [ProjectAssetImage] with a string [src]: the [src] attribute rendered
    once the promise started by its effect has settled and the effect has
    not been cancelled. *)
Definition ProjectAssetImage
    (rt : Runtime) (projectPath src : string) (w : World) : string * World :=
  let source := src in
  let '(settled, w') := resolveProjectAssetSource rt projectPath src w in
  let resolvedSrc :=
    match settled with
    | Fulfilled nextSource => nextSource
    | Rejected _ => source
    end in
  (if truthy resolvedSrc then resolvedSrc else source, w').

(** [handleOpenAsset]: the [src] of the asset handed to the lightbox. *)
Definition handleOpenAsset
    (rt : Runtime) (projectPath assetSrc : string) (w : World) : string * World :=
  let '(settled, w') := resolveProjectAssetSource rt projectPath assetSrc w in
  let source :=
    match settled with
    | Fulfilled value => value
    | Rejected _ => assetSrc
    end in
  (if truthy source then source else assetSrc, w').

(** Sample surroundings: a backend stub that answers every request with the
    empty string, one that fails every request, one that answers with a data
    URL, and the state of a fresh process. *)
Definition emptyPayloadRuntime : Runtime :=
  {| isTauriRuntime := true;
     invoke_resolve_project_asset_data_url := fun _ _ => Fulfilled EmptyString |}.

Definition failingRuntime : Runtime :=
  {| isTauriRuntime := true;
     invoke_resolve_project_asset_data_url := fun _ _ => Rejected "No such file" |}.

Definition pngRuntime : Runtime :=
  {| isTauriRuntime := true;
     invoke_resolve_project_asset_data_url :=
       fun _ _ => Fulfilled "data:image/png;base64,iVBORw0KGgo=" |}.

Definition freshWorld : World :=
  {| projectAssetDataUrlCache := ∅; backendReads := [] |}.

(** *** Calls that overlap

    [resolveProjectAssetSource] is an async function. A call runs up to its
    [await] at once and goes on when the backend has answered; in the
    meantime other calls start and go on. A call that waits keeps its locals
    [cacheKey], [projectPath] and [rawSrc]. *)

Inductive Progress :=
| Returns (value : string)
| Awaits (cacheKey : string).

(** Lines 874-888, up to the [await]. Past the guard the page runs inside the
    desktop shell, so [call] hands the request to the backend at once. *)
Definition untilAwait (isTauri : bool) (projectPath rawSrc : string)
    (cache : gmap string string) : Progress :=
  match normalizeProjectRelativeAsset rawSrc with
  | None => Returns rawSrc
  | Some normalizedRelative =>
      if negb (truthy normalizedRelative) || negb (truthy projectPath) || negb isTauri
      then Returns rawSrc
      else
        let cacheKey := cacheKeyOf projectPath normalizedRelative in
        match cache !! cacheKey with
        | Some cached => if truthy cached then Returns cached else Awaits cacheKey
        | None => Awaits cacheKey
        end
  end.

(** Lines 889-890, after the [await]: the answer is stored under the key,
    whatever the cache holds by then; a rejected [await] throws, so the call
    rejects with the cause and stores nothing. *)
Definition afterAwait (cacheKey : string) (answer : Settled string)
    (cache : gmap string string) : Settled string * gmap string string :=
  match answer with
  | Fulfilled nextSource => (Fulfilled nextSource, <[cacheKey := nextSource]> cache)
  | Rejected cause => (Rejected cause, cache)
  end.

Record Suspended := {
  suspendedKey : string;
  suspendedProject : string;
  suspendedRaw : string;
}.

(** The cache, the log of backend reads, and the calls that wait for the
    backend, in the order in which they started. *)
Record Page := {
  world : World;
  suspended : list Suspended;
}.

(** What happens in the page: a call is made, or the backend answers the
    [i]-th of the calls that wait. *)
Inductive Move :=
| Calls (projectPath rawSrc : string)
| Answers (i : nat) (answer : Settled string).

(** The page after a move, and what settles in it: the promise of the call
    just made when it does not wait, or the one of the call that was
    answered. *)
Definition advance (isTauri : bool) (page : Page) (move : Move)
  : Page * option (Settled string) :=
  match move with
  | Calls projectPath rawSrc =>
      match untilAwait isTauri projectPath rawSrc
              (projectAssetDataUrlCache (world page)) with
      | Returns value => (page, Some (Fulfilled value))
      | Awaits cacheKey =>
          ({| world :=
                {| projectAssetDataUrlCache := projectAssetDataUrlCache (world page);
                   backendReads :=
                     (backendReads (world page) ++ [(projectPath, rawSrc)])%list |};
              suspended :=
                (suspended page
                 ++ [{| suspendedKey := cacheKey;
                        suspendedProject := projectPath;
                        suspendedRaw := rawSrc |}])%list |},
           None)
      end
  | Answers i answer =>
      match suspended page !! i with
      | None => (page, None)
      | Some waiting =>
          let '(settled, cache) :=
            afterAwait (suspendedKey waiting) answer
              (projectAssetDataUrlCache (world page)) in
          ({| world :=
                {| projectAssetDataUrlCache := cache;
                   backendReads := backendReads (world page) |};
              suspended := delete i (suspended page) |},
           Some settled)
      end
  end.

Definition runPage (isTauri : bool) (moves : list Move) (page : Page) : Page :=
  fold_left (fun page move => fst (advance isTauri page move)) moves page.

Definition freshPage : Page := {| world := freshWorld; suspended := [] |}.

(** The moves of calls made one after the other: each call is answered, if
    it waits, before the next one is made. *)
Definition oneAfterTheOther (rt : Runtime) (calls : list (string * string))
  : list Move :=
  flat_map (fun '(projectPath, rawSrc) =>
              [Calls projectPath rawSrc;
               Answers 0 (invoke_resolve_project_asset_data_url rt projectPath rawSrc)])
           calls.

(** Modelled from the spec: the backend command
    [resolve_project_asset_data_url] is not among the sources. The
    specification (4.2) has it read the file and encode the bytes to an
    embeddable representation such as a data URI; of this the model keeps
    that what the backend answers with on success is not the empty string. *)
Definition embeddableAnswer (move : Move) : Prop :=
  match move with
  | Answers _ (Fulfilled payload) => payload <> EmptyString
  | _ => True
  end.

(** No call for the key waits for the backend. *)
Definition noneSuspendedFor (cacheKey : string) (page : Page) : Prop :=
  Forall (fun waiting => suspendedKey waiting <> cacheKey) (suspended page).

(** What holds of a call that waits: it passed the guard of line 875 and
    holds the key of its project and reference. *)
Definition passedGuard (isTauri : bool) (waiting : Suspended) : Prop :=
  exists normalizedRelative,
    normalizeProjectRelativeAsset (suspendedRaw waiting) = Some normalizedRelative
    /\ suspendedKey waiting = cacheKeyOf (suspendedProject waiting) normalizedRelative
    /\ suspendedProject waiting <> EmptyString
    /\ isTauri = true.

(** Sample data URLs, as the backend would answer for a file before and after
    it is edited. *)
Definition pngPayload : string := "data:image/png;base64,iVBORw0KGgo=".
Definition editedPngPayload : string := "data:image/png;base64,iVBORw0KGgoAAAAN".

End Resolver.

(** A reference that the sanitizer rejects and the resolver hands back as it
    is, whatever the runtime, the project and the cache. *)
Definition passedThrough (raw : string) : Prop :=
  normalizeProjectRelativeAsset raw = None
  /\ forall rt projectPath w,
       Resolver.resolveProjectAssetSource rt projectPath raw w
       = (Resolver.Fulfilled raw, w).

(** ** Slide index tracking in [Home] and the table-of-contents rail

    The state of [Home] moves by events: what the backend reports, what the
    preview renders, and what the user does. A React commit and the effects
    that follow it are taken as one step. The events are those of one selected
    project; the effect that runs when another project is selected is
    [switchProject] below, and a session mixes the two. *)

Module Home.

Record SlideOutlineEntry := { index : Z; title : string }.

(** The React state of [Home] that the slide index depends on, together
    with the deck on screen: one element per [.slide] element of the
    rendered deck, holding the text of its first heading if it has one. *)
Record State := {
  selectedProject : bool;
  presenterMode : bool;
  activeSlideIndex : Z;
  embeddedSlideCount : Z;
  slideOutline : list SlideOutlineEntry;
  fallbackCount : Z;
  renderedSlides : list (option string);
}.

Definition visibleSlideCount (s : State) : Z :=
  if 0 <? embeddedSlideCount s then embeddedSlideCount s else fallbackCount s.

Definition maxSlideIndex (s : State) : Z := Z.max (visibleSlideCount s - 1) 0.

Definition defaultTitle (index : Z) : string := "Slide " +:+ pretty (index + 1).

Definition slideTocEntries (s : State) : list SlideOutlineEntry :=
  if (0 <? length (slideOutline s))%nat then slideOutline s
  else
    map (fun i => {| index := Z.of_nat i; title := defaultTitle (Z.of_nat i) |})
        (seq 0 (Z.to_nat (visibleSlideCount s))).

(** One rendered tick of the rail. *)
Record TocTick := { tickKey : string; tickActive : bool; tickLabel : string }.

(** [SlideTocRail]: [None] where the component returns [null]. *)
Definition SlideTocRail (entries : list SlideOutlineEntry) (activeIndex : Z)
  : option (list TocTick) :=
  if (length entries <=? 1)%nat then None
  else
    Some (map (fun entry =>
                 {| tickKey := "toc-" +:+ pretty (index entry);
                    tickActive := index entry =? activeIndex;
                    tickLabel := title entry |})
              entries).

(** The outline built by the render effect of [EmbeddedDeckPreview]. *)
Fixpoint outlineFrom (index : Z) (slides : list (option string))
  : list SlideOutlineEntry :=
  match slides with
  | [] => []
  | heading :: rest =>
      let headingText := option_map trim heading in
      {| index := index;
         title := match headingText with
                  | Some text => if isEmpty text then defaultTitle index else text
                  | None => defaultTitle index
                  end |}
      :: outlineFrom (index + 1) rest
  end.

(** Where the slides sit on screen, as measured by the handlers. *)
Record Geometry := {
  viewportCenterY : Z;
  slideCenter : nat -> Z;
}.

(** The loop of [getCurrentCenteredSlideIndex] over the positions that
    remain; [minDistance = None] stands for positive infinity. *)
Fixpoint nearestFrom (g : Geometry) (positions : list nat)
    (nextIndex : Z) (minDistance : option Z) : Z :=
  match positions with
  | [] => nextIndex
  | position :: rest =>
      let distance := Z.abs (slideCenter g position - viewportCenterY g) in
      let closer :=
        match minDistance with
        | None => true
        | Some d => distance <? d
        end in
      if closer then nearestFrom g rest (Z.of_nat position) (Some distance)
      else nearestFrom g rest nextIndex minDistance
  end.

(** The render effect writes the position of each slide into its
    [data-slide-index], so the explicit index read back is the position. *)
Definition getCurrentCenteredSlideIndex (s : State) (g : Geometry) : Z :=
  if negb (selectedProject s) then -1
  else if (length (renderedSlides s) =? 0)%nat then -1
  else nearestFrom g (seq 0 (length (renderedSlides s))) 0 None.

(** - [SlideCountReported]: [slide_count] of the project summary or detail
      changes ([fallbackCount], line 1325);
    - [DeckRendered], [DeckCleared]: the render effect of the preview, with a
      compiled deck and without one (lines 1021-1058);
    - [ViewportChanged]: [updateActiveSlide] on an animation frame after a
      scroll or a resize (lines 1499-1505);
    - [TocSelected k]: a click on the [k]-th tick of the rail
      ([handleTocSelect]);
    - [SlideClicked position]: a click inside the slide at [position]
      (lines 1168-1179);
    - [KeyNext], [KeyPrevious], [KeyEscape]: the keyboard handler
      (lines 1659-1686);
    - [PresenterToggled]: [togglePresenterMode]. *)
Inductive Event :=
| SlideCountReported (slide_count : Z)
| DeckRendered (slides : list (option string))
| DeckCleared
| ViewportChanged (g : Geometry)
| TocSelected (k : nat)
| SlideClicked (position : nat)
| KeyNext
| KeyPrevious
| KeyEscape
| PresenterToggled (g : Geometry).

Definition setActiveSlideIndex (i : Z) (s : State) : State :=
  {| selectedProject := selectedProject s;
     presenterMode := presenterMode s;
     activeSlideIndex := i;
     embeddedSlideCount := embeddedSlideCount s;
     slideOutline := slideOutline s;
     fallbackCount := fallbackCount s;
     renderedSlides := renderedSlides s |}.

Definition setPresenterMode (b : bool) (s : State) : State :=
  {| selectedProject := selectedProject s;
     presenterMode := b;
     activeSlideIndex := activeSlideIndex s;
     embeddedSlideCount := embeddedSlideCount s;
     slideOutline := slideOutline s;
     fallbackCount := fallbackCount s;
     renderedSlides := renderedSlides s |}.

Definition setFallbackCount (n : Z) (s : State) : State :=
  {| selectedProject := selectedProject s;
     presenterMode := presenterMode s;
     activeSlideIndex := activeSlideIndex s;
     embeddedSlideCount := embeddedSlideCount s;
     slideOutline := slideOutline s;
     fallbackCount := n;
     renderedSlides := renderedSlides s |}.

(** The render effect of [EmbeddedDeckPreview] (lines 1021-1058) as seen by
    [Home]: [onSlideCountChange] and [onSlideOutlineChange]. *)
Definition setRendered (slides : list (option string)) (s : State) : State :=
  {| selectedProject := selectedProject s;
     presenterMode := presenterMode s;
     activeSlideIndex := activeSlideIndex s;
     embeddedSlideCount := Z.of_nat (length slides);
     slideOutline := outlineFrom 0 slides;
     fallbackCount := fallbackCount s;
     renderedSlides := slides |}.

(** What the handler of an event does to the state. *)
Definition handle (s : State) (e : Event) : State :=
  match e with
  | SlideCountReported n => setFallbackCount n s
  | DeckRendered slides => if selectedProject s then setRendered slides s else s
  | DeckCleared => setRendered [] s
  | ViewportChanged g =>
      if negb (selectedProject s) || presenterMode s then s
      else
        let nextIndex := getCurrentCenteredSlideIndex s g in
        if 0 <=? nextIndex then
          setActiveSlideIndex
            (if activeSlideIndex s =? nextIndex then activeSlideIndex s else nextIndex) s
        else s
  | TocSelected k =>
      if negb (selectedProject s) then s
      else
        match SlideTocRail (slideTocEntries s) (activeSlideIndex s) with
        | None => s
        | Some _ =>
            match nth_error (slideTocEntries s) k with
            | Some entry => setActiveSlideIndex (index entry) s
            | None => s
            end
        end
  | SlideClicked position =>
      if negb (selectedProject s) || presenterMode s then s
      else if (position <? length (renderedSlides s))%nat
           then setActiveSlideIndex (Z.of_nat position) s
           else s
  | KeyNext =>
      if negb (presenterMode s) || negb (selectedProject s) then s
      else setActiveSlideIndex (Z.min (activeSlideIndex s + 1) (maxSlideIndex s)) s
  | KeyPrevious =>
      if negb (presenterMode s) || negb (selectedProject s) then s
      else setActiveSlideIndex (Z.max (activeSlideIndex s - 1) 0) s
  | KeyEscape => if presenterMode s then setPresenterMode false s else s
  | PresenterToggled g =>
      if negb (selectedProject s) then s
      else if presenterMode s then setPresenterMode false s
      else
        let centeredSlide := getCurrentCenteredSlideIndex s g in
        setPresenterMode true
          (if 0 <=? centeredSlide then setActiveSlideIndex centeredSlide s else s)
  end.

(** The effect on [maxSlideIndex] (lines 1356-1358). *)
Definition clampToMaxSlideIndex (s : State) : State :=
  setActiveSlideIndex (Z.min (activeSlideIndex s) (maxSlideIndex s)) s.

(** It runs after a render in which [maxSlideIndex] differs from the
    previous render. *)
Definition step (s : State) (e : Event) : State :=
  let s' := handle s e in
  if maxSlideIndex s' =? maxSlideIndex s then s' else clampToMaxSlideIndex s'.

Definition run (s : State) (events : list Event) : State :=
  fold_left step events s.

(** The state after mounting; [slide_count] is what the backend reports for
    the selected project. The effect on [maxSlideIndex] runs once on mount. *)
Definition mounted (selected : bool) (slide_count : Z) : State :=
  clampToMaxSlideIndex
    {| selectedProject := selected;
       presenterMode := false;
       activeSlideIndex := 0;
       embeddedSlideCount := 0;
       slideOutline := [];
       fallbackCount := slide_count;
       renderedSlides := [] |}.

(** The effect on [selectedProject?.path] (lines 1340-1345), followed by the
    effect on [maxSlideIndex]. The deck on screen stays until the preview
    renders again. *)
Definition switchProject (selected : bool) (slide_count : Z) (s : State) : State :=
  clampToMaxSlideIndex
    {| selectedProject := selected;
       presenterMode := false;
       activeSlideIndex := 0;
       embeddedSlideCount := 0;
       slideOutline := [];
       fallbackCount := slide_count;
       renderedSlides := renderedSlides s |}.

(** The index lies in the range of the slides that are shown. *)
Definition inRange (s : State) : Prop :=
  0 <= activeSlideIndex s <= Z.max (visibleSlideCount s - 1) 0.

(** The state set by the render effect agrees with the deck on screen. *)
Definition rendered (s : State) : Prop :=
  embeddedSlideCount s = Z.of_nat (length (renderedSlides s))
  /\ slideOutline s = outlineFrom 0 (renderedSlides s).

(** The outline has one entry for each slide counted by the render effect. *)
Definition outlineCounted (s : State) : Prop :=
  Z.of_nat (length (slideOutline s)) = embeddedSlideCount s.

(** A session: events of the selected project, and switches to another
    project. *)
Inductive Action :=
| Occurs (e : Event)
| ProjectSwitched (selected : bool) (slide_count : Z).

Definition act (s : State) (a : Action) : State :=
  match a with
  | Occurs e => step s e
  | ProjectSwitched selected slide_count => switchProject selected slide_count s
  end.

Definition session (s : State) (actions : list Action) : State :=
  fold_left act actions s.

(** The count and the outline reported by the render effect are those of one
    deck, on screen or not. *)
Definition outlined (s : State) : Prop :=
  exists slides,
    embeddedSlideCount s = Z.of_nat (length slides)
    /\ slideOutline s = outlineFrom 0 slides.

(** The handlers that read the deck on screen: [updateActiveSlide] and
    [togglePresenterMode] through [getCurrentCenteredSlideIndex], and the
    click handler of the preview. *)
Definition readsDeck (e : Event) : bool :=
  match e with
  | ViewportChanged _ | SlideClicked _ | PresenterToggled _ => true
  | _ => false
  end.

(** The runs of the render effect of the preview. *)
Definition rendersDeck (e : Event) : bool :=
  match e with
  | DeckRendered _ | DeckCleared => true
  | _ => false
  end.

(** [readsRenderedDeck current actions]: in [actions] no handler reads the
    deck on screen between a switch to another project and the next run of
    the render effect. [current] tells whether the render effect has run
    since the last switch when [actions] start. *)
Fixpoint readsRenderedDeck (current : bool) (actions : list Action) : bool :=
  match actions with
  | [] => true
  | ProjectSwitched _ _ :: rest => readsRenderedDeck false rest
  | Occurs e :: rest =>
      if rendersDeck e then readsRenderedDeck true rest
      else (negb (readsDeck e) || current) && readsRenderedDeck current rest
  end.

(** Sample decks of five and of three slides without headings. *)
Definition fiveSlides : list (option string) := [None; None; None; None; None].
Definition threeSlides : list (option string) := [None; None; None].

(** Slides of height 100 stacked from the top, scrolled so that the fifth
    one is in the middle of the viewport. *)
Definition fifthSlideCentered : Geometry :=
  {| viewportCenterY := 450; slideCenter := fun p => Z.of_nat p * 100 + 50 |}.

End Home.

(** ** Compilation of the deck in [EmbeddedDeckPreview]

    Each run of the effect on [source] owns a flag [cancelled], set by its
    cleanup, and starts at most one evaluation, which settles later. *)

Module Preview.

Section WithDeck.

(** The component a compiled document exports. *)
Context {Deck : Type}.

Record Effect := { cancelled : bool; pending : bool }.

Record State := {
  CompiledDeck : option Deck;
  error : string;
  effects : list Effect;
}.

(** What [evaluate] settles to; a failure carries the message of the
    error thrown, if it is an [Error]. *)
Inductive Outcome :=
| Evaluated (deck : Deck)
| Failed (message : option string).

(** [SourceChanged]: the effect on [source] runs again (lines 981-1019), after
    the cleanup of its previous run. [Settled id outcome]: the evaluation
    started by the [id]-th run of the effect, counted from 0, settles.
    [Unmounted]: the cleanup of the last run alone. *)
Inductive Event :=
| SourceChanged (source : string)
| Settled (id : nat) (outcome : Outcome)
| Unmounted.

(** The cleanup of the effect that ran last. *)
Fixpoint cleanupLatest (es : list Effect) : list Effect :=
  match es with
  | [] => []
  | e :: rest =>
      match rest with
      | [] => [{| cancelled := true; pending := pending e |}]
      | _ :: _ => e :: cleanupLatest rest
      end
  end.

Fixpoint markSettled (id : nat) (es : list Effect) : list Effect :=
  match es, id with
  | [], _ => []
  | e :: rest, O => {| cancelled := cancelled e; pending := false |} :: rest
  | e :: rest, S id' => e :: markSettled id' rest
  end.

Definition initial : State :=
  {| CompiledDeck := None; error := EmptyString; effects := [] |}.

(** [compileSource] up to its [await] for [SourceChanged], and from there on
    for [Settled]. *)
Definition step (s : State) (e : Event) : State :=
  match e with
  | SourceChanged source =>
      let es := cleanupLatest (effects s) in
      if isEmpty (trim source) then
        {| CompiledDeck := None;
           error := "Project has an empty page.mdx.";
           effects := (es ++ [{| cancelled := false; pending := false |}])%list |}
      else
        {| CompiledDeck := None;
           error := EmptyString;
           effects := (es ++ [{| cancelled := false; pending := true |}])%list |}
  | Settled id outcome =>
      match nth_error (effects s) id with
      | Some e =>
          if pending e then
            let es := markSettled id (effects s) in
            if cancelled e then
              {| CompiledDeck := CompiledDeck s; error := error s; effects := es |}
            else
              match outcome with
              | Evaluated deck =>
                  {| CompiledDeck := Some deck; error := error s; effects := es |}
              | Failed message =>
                  {| CompiledDeck := CompiledDeck s;
                     error := match message with
                              | Some m => m
                              | None => "Failed to compile page.mdx for embedded preview."
                              end;
                     effects := es |}
              end
          else s
      | None => s
      end
  | Unmounted =>
      {| CompiledDeck := CompiledDeck s;
         error := error s;
         effects := cleanupLatest (effects s) |}
  end.

Definition run (s : State) (events : list Event) : State :=
  fold_left step events s.

(** What the component shows. *)
Definition shown (s : State) : option Deck * string := (CompiledDeck s, error s).

(** Every effect but the one that ran last has been cleaned up. *)
Definition olderCancelled (es : list Effect) : Prop :=
  forall i e, nth_error es i = Some e -> (S i < length es)%nat -> cancelled e = true.

End WithDeck.

Arguments State Deck : clear implicits.
Arguments Event Deck : clear implicits.
Arguments Outcome Deck : clear implicits.

End Preview.

(** ** Design tokens and their CSS form ([parseCssToTokens], [tokensToCss]) *)

Module Tokens.

(** [keyof SlideTokens] *)
Inductive TokenKey :=
| slideBg
| slideBorder
| slideRadius
| slidePadding
| slideLayoutGap
| slideCardBg
| slideCardBorder
| slideCardRadius
| slideCardPadding
| slideFontFamily
| slideHeadingFont
| slideCodeFont
| slideMetaFont
| slideMetaSize
| slideFg
| slideH1Color
| slideH2Color
| slideH3Color
| slideBodyColor
| slideMetaColor
| slideAccent
| slideLinkColor
| slideCodeBg
| slidePalette1
| slidePalette2
| slidePalette3
| slidePalette4
| slidePalette5.

Definition TokenKey_eq_dec (a b : TokenKey) : {a = b} + {a <> b}.
Proof. decide equality. Defined.

(** A [SlideTokens] object has every key; a [Partial<SlideTokens>] may
    lack some. *)
Definition SlideTokens : Type := TokenKey -> string.
Definition PartialSlideTokens : Type := TokenKey -> option string.

Definition TOKEN_TO_VAR (key : TokenKey) : string :=
  match key with
  | slideBg => "--slide-bg"
  | slideBorder => "--slide-border"
  | slideRadius => "--slide-radius"
  | slidePadding => "--slide-padding"
  | slideLayoutGap => "--slide-layout-gap"
  | slideCardBg => "--slide-card-bg"
  | slideCardBorder => "--slide-card-border"
  | slideCardRadius => "--slide-card-radius"
  | slideCardPadding => "--slide-card-padding"
  | slideFontFamily => "--slide-font-family"
  | slideHeadingFont => "--slide-heading-font"
  | slideCodeFont => "--slide-code-font"
  | slideMetaFont => "--slide-meta-font"
  | slideMetaSize => "--slide-meta-size"
  | slideFg => "--slide-fg"
  | slideH1Color => "--slide-h1-color"
  | slideH2Color => "--slide-h2-color"
  | slideH3Color => "--slide-h3-color"
  | slideBodyColor => "--slide-body-color"
  | slideMetaColor => "--slide-meta-color"
  | slideAccent => "--slide-accent"
  | slideLinkColor => "--slide-link-color"
  | slideCodeBg => "--slide-code-bg"
  | slidePalette1 => "--slide-palette-1"
  | slidePalette2 => "--slide-palette-2"
  | slidePalette3 => "--slide-palette-3"
  | slidePalette4 => "--slide-palette-4"
  | slidePalette5 => "--slide-palette-5"
  end.

(** The keys in the order of the object literal, which is the order of
    [Object.entries(TOKEN_TO_VAR)]. *)
Definition tokenKeys : list TokenKey :=
  [slideBg; slideBorder; slideRadius; slidePadding; slideLayoutGap;
   slideCardBg; slideCardBorder; slideCardRadius; slideCardPadding;
   slideFontFamily; slideHeadingFont; slideCodeFont; slideMetaFont;
   slideMetaSize; slideFg; slideH1Color; slideH2Color; slideH3Color;
   slideBodyColor; slideMetaColor; slideAccent; slideLinkColor;
   slideCodeBg; slidePalette1; slidePalette2; slidePalette3; slidePalette4;
   slidePalette5].

Definition DQ : string := String (ascii_of_nat 34) EmptyString.

Definition DEFAULT_TOKENS : SlideTokens := fun key =>
  match key with
  | slideBg => "#0e0d0a"
  | slideBorder => "#efefeb1f"
  | slideRadius => "10px"
  | slidePadding => "32px"
  | slideLayoutGap => "16px"
  | slideCardBg => "#ffffff08"
  | slideCardBorder => "#00000000"
  | slideCardRadius => "10px"
  | slideCardPadding => "16px"
  | slideFontFamily => DQ +:+ "Inter" +:+ DQ +:+ ", system-ui, sans-serif"
  | slideHeadingFont => "var(--slide-font-family)"
  | slideCodeFont => DQ +:+ "Fira Code" +:+ DQ +:+ ", monospace"
  | slideMetaFont => "var(--slide-code-font)"
  | slideMetaSize => "0.78rem"
  | slideFg => "#edecec"
  | slideH1Color => "#ffffff"
  | slideH2Color => "#d7d6d5"
  | slideH3Color => "#b0afab"
  | slideBodyColor => "#c4c3bf"
  | slideMetaColor => "#c4c3bfe0"
  | slideAccent => "#7b9cbc"
  | slideLinkColor => "var(--slide-accent)"
  | slideCodeBg => "#ffffff0f"
  | slidePalette1 => "#7b9cbc"
  | slidePalette2 => "#63b18a"
  | slidePalette3 => "#e1b86f"
  | slidePalette4 => "#d68080"
  | slidePalette5 => "#b08cd6"
  end.

Definition varToToken : gmap string TokenKey :=
  fold_left (fun m key => <[TOKEN_TO_VAR key := key]> m) tokenKeys ∅.

Definition isWordOrDash (c : ascii) : bool :=
  isWordChar c || Ascii.eqb c "-"%char.

(** The expression of [parseCssToTokens]: two dashes, group 1 a greedy run
    of at least one word character or dash, optional white space, a colon,
    optional white space, group 2 a lazy run of at least one character other
    than a line terminator, optional white space, a semicolon. *)
Definition TOKEN_DECLARATION_RE : Regex.regex :=
  [Regex.Lit "-"; Regex.Lit "-";
   Regex.Rep Regex.Greedy 1 isWordOrDash true;
   Regex.Rep Regex.Greedy 0 isWhiteSpace false;
   Regex.Lit ":";
   Regex.Rep Regex.Greedy 0 isWhiteSpace false;
   Regex.Rep Regex.Lazy 1 anyButLineTerminator true;
   Regex.Rep Regex.Greedy 0 isWhiteSpace false;
   Regex.Lit ";"].

(** [result[tokenKey] = value] *)
Definition setToken (result : PartialSlideTokens) (tokenKey : TokenKey)
    (value : string) : PartialSlideTokens :=
  fun key => if TokenKey_eq_dec tokenKey key then Some value else result key.

(** The body of the [while] loop for one match. *)
Definition recordMatch (result : PartialSlideTokens) (captures : list string)
  : PartialSlideTokens :=
  match captures with
  | [m1; m2] =>
      let varName := "--" +:+ m1 in
      match varToToken !! varName with
      | Some tokenKey => setToken result tokenKey m2
      | None => result
      end
  | _ => result
  end.

(** The [while] loop: each [exec] resumes where the previous match ended.
    Every match takes at least one character, so the length of the text
    bounds the number of iterations. *)
Fixpoint execLoop (fuel : nat) (css : string) (result : PartialSlideTokens)
  : PartialSlideTokens :=
  match fuel with
  | O => result
  | S fuel' =>
      match Regex.search TOKEN_DECLARATION_RE css with
      | None => result
      | Some (captures, rest) => execLoop fuel' rest (recordMatch result captures)
      end
  end.

Definition parseCssToTokens (css : string) : PartialSlideTokens :=
  execLoop (S (String.length css)) css (fun _ => None).

Definition declarationLine (tokens : SlideTokens) (key : TokenKey) : string :=
  "  " +:+ TOKEN_TO_VAR key +:+ ": " +:+ tokens key +:+ ";".

Definition tokensToCss (tokens : SlideTokens) : string :=
  ":root {" +:+ LF +:+ joinLines (map (declarationLine tokens) tokenKeys)
  +:+ LF +:+ "}" +:+ LF.

(** [{ ...DEFAULT_TOKENS, ...parsed }] *)
Definition withDefaults (parsed : PartialSlideTokens) : SlideTokens :=
  fun key => match parsed key with Some v => v | None => DEFAULT_TOKENS key end.

(** [{ ...prev, [key]: value }] of [updateToken] *)
Definition updateToken (prev : SlideTokens) (key : TokenKey) (value : string)
  : SlideTokens :=
  fun k => if TokenKey_eq_dec key k then value else prev k.

(** A value that survives the round trip: not empty, without white space at
    either end, on one line and without a semicolon. *)
Definition isValueChar (c : ascii) : bool :=
  anyButLineTerminator c && negb (Ascii.eqb c ";"%char).

Definition plainValue (value : string) : bool :=
  negb (isEmpty value) && String.eqb (trim value) value && allChars isValueChar value.

(** The name of the CSS variable of a key without its two dashes. *)
Definition varStem (key : TokenKey) : string :=
  sliceFrom1 (sliceFrom1 (TOKEN_TO_VAR key)).

(** The text that follows the opening line of the serialized form, for the
    keys that remain to be written. *)
Definition declarationsFrom (tokens : SlideTokens) (keys : list TokenKey) : string :=
  joinLines (map (declarationLine tokens) keys) +:+ LF +:+ "}" +:+ LF.

End Tokens.

(** ** Deck source ([stripFrontmatter], [normalizeDeckSource]) *)

Module DeckSource.

(** [p] read off the front of [s]: what is left of [s], if it starts with
    [p]. *)
Fixpoint afterLiteral (p s : string) : option string :=
  match p with
  | EmptyString => Some s
  | String b p' =>
      match s with
      | String a s' => if Ascii.eqb a b then afterLiteral p' s' else None
      | EmptyString => None
      end
  end.

(** The class that matches every code unit. *)
Definition anyChar (c : ascii) : bool := true.

(** The end of the expression of [stripFrontmatter]: a line feed, or else the
    end of the input. The result is the input left after the match. *)
Definition lineFeedOrEnd (rest : string) : option string :=
  match rest with
  | String c rest' => if Ascii.eqb c "010"%char then Some rest' else None
  | EmptyString => Some EmptyString
  end.

(** A line feed, three dashes, a greedy run of white space, then
    [lineFeedOrEnd]. *)
Definition closingFence (rest : string) : option string :=
  match afterLiteral (LF +:+ "---") rest with
  | Some afterDashes =>
      Regex.rep Regex.Greedy 0 isWhiteSpace (fun _ rest' => lineFeedOrEnd rest')
        afterDashes EmptyString 0
  | None => None
  end.

(** The expression of [stripFrontmatter], matched at the start of the input
    only: three dashes, a greedy run of white space, a line feed, a lazy run
    of any characters, then [closingFence]. The result is the input left
    after the match. *)
Definition matchFrontmatter (source : string) : option string :=
  match afterLiteral "---" source with
  | Some afterDashes =>
      Regex.rep Regex.Greedy 0 isWhiteSpace
        (fun _ rest =>
           match afterLiteral LF rest with
           | Some body =>
               Regex.rep Regex.Lazy 0 anyChar (fun _ rest' => closingFence rest')
                 body EmptyString 0
           | None => None
           end)
        afterDashes EmptyString 0
  | None => None
  end.

(** [source.replace(re, "")]: the match starts at the first position, so
    what remains is what follows it. *)
Definition stripFrontmatter (source : string) : string :=
  match matchFrontmatter source with
  | Some rest => rest
  | None => source
  end.

Definition normalizeDeckSource (source : string) : string :=
  trim (stripFrontmatter source).

(** [needle] occurs in [s]. *)
Fixpoint occursIn (needle s : string) : bool :=
  startsWith s needle
  || match s with
     | String _ s' => occursIn needle s'
     | EmptyString => false
     end.

(** The first code unit of [s], if any, is not white space. *)
Definition startsBlack (s : string) : bool :=
  match s with
  | String c _ => negb (isWhiteSpace c)
  | EmptyString => false
  end.

(** A document that opens with a metadata block: the opening fence, the
    lines of the block, the closing fence, and the body. *)
Definition withFrontmatter (meta body : string) : string :=
  "---" +:+ LF +:+ meta +:+ LF +:+ "---" +:+ LF +:+ body.

End DeckSource.

(** ** Helpers of the settings panel ([fontLabel], [isHexColor],
    [hexForInput]) *)

Module Settings.

Definition isComma (c : ascii) : bool := Ascii.eqb c ","%char.

(** A double or a single quotation mark. *)
Definition isQuote (c : ascii) : bool :=
  let n := N_of_ascii c in ((n =? 34) || (n =? 39))%N.

(** [s.replace(re, "")] for the global expression that matches one
    quotation mark. *)
Fixpoint removeQuotes (s : string) : string :=
  match s with
  | String c s' => if isQuote c then removeQuotes s' else String c (removeQuotes s')
  | EmptyString => EmptyString
  end.

Definition fontLabel (fontValue : string) : string :=
  if String.eqb fontValue "var(--slide-font-family)" then "Same as body"
  else if String.eqb fontValue "var(--slide-code-font)" then "Same as code"
  else
    let head := takeWhile (fun c => negb (isComma c)) fontValue in
    let first := if isEmpty head then fontValue else head in
    trim (removeQuotes first).

(** [0-9a-fA-F] *)
Definition isHexDigit (c : ascii) : bool :=
  let n := N_of_ascii c in
  ((48 <=? n) && (n <=? 57) || (65 <=? n) && (n <=? 70)
   || (97 <=? n) && (n <=? 102))%N.

(** The test of the expressions of [isHexColor] and [hexForInput]: from the
    start of the input a hash sign and between [lo] and [hi] hexadecimal
    digits, then the end of the input. *)
Definition hashAndHexDigits (lo hi : nat) (t : string) : bool :=
  match t with
  | String c digits =>
      Ascii.eqb c "#"%char
      && (lo <=? String.length digits)%nat && (String.length digits <=? hi)%nat
      && allChars isHexDigit digits
  | EmptyString => false
  end.

Definition isHexColor (v : string) : bool := hashAndHexDigits 3 8 (trim v).

(** An element of the destructured string inside a template literal: a
    missing element reads [undefined]. *)
Definition element (i : nat) (t : string) : string :=
  match String.get i t with
  | Some c => String c EmptyString
  | None => "undefined"
  end.

Definition hexForInput (v : string) : string :=
  let t := trim v in
  if hashAndHexDigits 8 8 t then String.substring 0 7 t
  else if hashAndHexDigits 6 6 t then t
  else if hashAndHexDigits 4 4 t then
    let a := element 1 t in let b := element 2 t in let c := element 3 t in
    "#" +:+ a +:+ a +:+ b +:+ b +:+ c +:+ c
  else if hashAndHexDigits 3 3 t then
    let a := element 1 t in let b := element 2 t in let c := element 3 t in
    "#" +:+ a +:+ a +:+ b +:+ b +:+ c +:+ c
  else "#000000".

End Settings.

(** ** Kind of a linked asset ([inferAssetKind]) *)

Module AssetKind.

Inductive kind := image | video.

(** The alternatives of [IMAGE_ASSET_EXTENSION_RE] and of
    [VIDEO_ASSET_EXTENSION_RE]; the optional letter of the JPEG alternative
    gives two of them. *)
Definition IMAGE_ASSET_EXTENSIONS : list string :=
  ["avif"; "bmp"; "gif"; "jpg"; "jpeg"; "png"; "svg"; "webp"].

Definition VIDEO_ASSET_EXTENSIONS : list string :=
  ["m4v"; "mov"; "mp4"; "ogv"; "ogg"; "webm"].

Fixpoint reverse (s acc : string) : string :=
  match s with
  | String c s' => reverse s' (String c acc)
  | EmptyString => acc
  end.

(** [s.endsWith(p)] *)
Definition endsWith (s p : string) : bool :=
  startsWith (reverse s EmptyString) (reverse p EmptyString).

(** The test of an extension expression: a dot and one of the alternatives
    just before the end of the input. The expression ignores case; its
    letters and digits are ASCII, so an input character matches one of them
    exactly when its lower-case form is that character. *)
Definition hasExtension (extensions : list string) (pathOnly : string) : bool :=
  existsb (fun extension => endsWith (toLowerCase pathOnly) ("." +:+ extension))
          extensions.

Definition inferAssetKind (rawValue : string) : option kind :=
  let value := trim rawValue in
  if isEmpty value then None
  else
    let pathOnly := pathOnly (splitAssetPathAndSuffix value) in
    if hasExtension IMAGE_ASSET_EXTENSIONS pathOnly then Some image
    else if hasExtension VIDEO_ASSET_EXTENSIONS pathOnly then Some video
    else None.

End AssetKind.

(** ** Vocabulary for references with a query string or a fragment *)

(** What may follow the path of a reference: nothing, or a query string or a
    fragment on one line. *)
Definition isUrlSuffix (suffix : string) : bool :=
  match suffix with
  | EmptyString => true
  | String c _ => negb (notQueryOrHash c) && allChars anyButLineTerminator suffix
  end.

(** ** Tracked projects: selection, order in the sidebar, pins *)

Module Projects.

(** The fields of [ProjectSummary] that the sidebar and the selection read. *)
Record ProjectSummary := { name : string; path : string; slide_count : Z }.

(** [projects.some((item) => item.path === value)] *)
Definition tracked (projects : list ProjectSummary) (value : string) : bool :=
  existsb (fun item => String.eqb (path item) value) projects.

(** [selectedProject] of [Home]: [None] stands for [null]. *)
Definition selectedProject (projects : list ProjectSummary) (selectedPath : string)
  : option ProjectSummary :=
  if isEmpty selectedPath then None
  else find (fun project => String.eqb (path project) selectedPath) projects.

(** The selection computed by [refreshState] and by [handleRemoveProject]
    from the projects of the state that the backend returned. *)
Definition nextSelection (projects : list ProjectSummary) (preferredPath : string)
  : string :=
  let fallbackPath :=
    match projects with
    | first :: _ => path first
    | [] => EmptyString
    end in
  let hasPreferred := negb (isEmpty preferredPath) && tracked projects preferredPath in
  if hasPreferred then preferredPath else fallbackPath.

(** [refreshState]: the value given to [setSelectedPath]. *)
Definition refreshState (projects : list ProjectSummary) (preferredPath : string)
  : string :=
  nextSelection projects preferredPath.

(** [handleRemoveProject]: the value given to [setSelectedPath] when [path]
    is removed while [selectedPath] is selected. *)
Definition handleRemoveProject (projects : list ProjectSummary)
    (selectedPath path : string) : string :=
  let preferredPath := if String.eqb selectedPath path then EmptyString else selectedPath in
  nextSelection projects preferredPath.

(** [pinnedPaths.includes(value)] *)
Definition includes (pinnedPaths : list string) (value : string) : bool :=
  existsb (String.eqb value) pinnedPaths.

(** [handleTogglePin] of the variant of [Home] that keeps the pins in its own
    state: the updater given to [setPinnedPaths]. *)
Definition handleTogglePin (path : string) (previous : list string) : list string :=
  if includes previous path
  then filter (fun candidate => negb (String.eqb candidate path)) previous
  else path :: previous.

(** [Array.prototype.sort] is stable, and for a consistent comparison
    function its result is that of any stable sort; the one used here inserts
    the elements from the last to the first, each before the first element
    that does not come before it. *)
Section Sort.
Context {A : Type} (compare : A -> A -> Z).

Fixpoint insert (x : A) (sorted : list A) : list A :=
  match sorted with
  | [] => [x]
  | y :: rest => if compare x y <=? 0 then x :: y :: rest else y :: insert x rest
  end.

Definition sort (items : list A) : list A := fold_right insert [] items.

End Sort.

Section ProjectList.

(** [a.localeCompare(b)], which depends on the locale of the host. *)
Context (localeCompare : string -> string -> Z).

(** The comparison function of [sortedProjects] in [ProjectList]. *)
Definition compareProjects (pinnedPaths : list string) (a b : ProjectSummary) : Z :=
  let aPinned := includes pinnedPaths (path a) in
  let bPinned := includes pinnedPaths (path b) in
  if aPinned && negb bPinned then -1
  else if negb aPinned && bPinned then 1
  else localeCompare (name a) (name b).

Definition sortedProjects (projects : list ProjectSummary) (pinnedPaths : list string)
  : list ProjectSummary :=
  sort (compareProjects pinnedPaths) projects.

End ProjectList.

(** [orderedProjects] of the variant of [Home] that keeps the pins in its
    own state. [pinOrder] maps a pinned path to its index in [pinnedPaths]; a
    path that occurs twice keeps the index set last. *)
Fixpoint pinOrderFrom (index : nat) (pinnedPaths : list string) (value : string)
  : option nat :=
  match pinnedPaths with
  | [] => None
  | pinned :: rest =>
      match pinOrderFrom (S index) rest value with
      | Some later => Some later
      | None => if String.eqb pinned value then Some index else None
      end
  end.

Definition MAX_SAFE_INTEGER : Z := 9007199254740991.

Definition pinOrderOr (pinnedPaths : list string) (value : string) : Z :=
  match pinOrderFrom 0 pinnedPaths value with
  | Some index => Z.of_nat index
  | None => MAX_SAFE_INTEGER
  end.

Definition compareByPin (pinnedPaths : list string) (left right : ProjectSummary) : Z :=
  let leftOrder := pinOrderOr pinnedPaths (path left) in
  let rightOrder := pinOrderOr pinnedPaths (path right) in
  leftOrder - rightOrder.

Definition orderedProjects (projects : list ProjectSummary) (pinnedPaths : list string)
  : list ProjectSummary :=
  let pinnedProjects :=
    sort (compareByPin pinnedPaths)
         (filter (fun project => includes pinnedPaths (path project)) projects) in
  let unpinnedProjects :=
    filter (fun project => negb (includes pinnedPaths (path project))) projects in
  (pinnedProjects ++ unpinnedProjects)%list.

(** A comparison by the length of the names, as a sample of a consistent
    comparison function. *)
Definition compareByLength (a b : string) : Z :=
  Z.of_nat (String.length a) - Z.of_nat (String.length b).

End Projects.

(** ** Marks on the slides of the rendered deck ([EmbeddedDeckPreview])

    The two effects that write [data-active] and [aria-hidden] on the slide
    elements: the one that runs when the compiled deck changes, and the one
    that runs when the active slide or the mode changes. *)

Module SlideMarks.

Record Slide := { dataActive : bool; ariaHidden : bool }.

(** [slideElementsRef], [previousActiveSlideRef], and whether the root
    element carries the class [embedded-preview-single]. *)
Record Dom := {
  slides : list Slide;
  previousActiveSlide : Z;
  singleMode : bool;
}.

Definition setActive (value : bool) (slide : Slide) : Slide :=
  {| dataActive := value; ariaHidden := ariaHidden slide |}.

Definition setHidden (value : bool) (slide : Slide) : Slide :=
  {| dataActive := dataActive slide; ariaHidden := value |}.

Definition unmounted : Dom :=
  {| slides := []; previousActiveSlide := -1; singleMode := false |}.

(** The effect on the compiled deck (lines 1021-1058) with a deck of [count]
    slides on screen: every slide is marked inactive and visible. *)
Definition renderEffect (count : nat) (d : Dom) : Dom :=
  {| slides := replicate count {| dataActive := false; ariaHidden := false |};
     previousActiveSlide := -1;
     singleMode := false |}.

(** The same effect without a root element or without a compiled deck. *)
Definition clearEffect (d : Dom) : Dom :=
  {| slides := []; previousActiveSlide := -1; singleMode := singleMode d |}.

(** The effect on [activeSlideIndex] and [presenterMode] (lines 1060-1104).
    [None] where it throws: [slides[safeIndex]] is [undefined] for a
    negative index. *)
Definition activeEffect (activeSlideIndex : Z) (presenterMode : bool) (d : Dom)
  : option Dom :=
  let count := Z.of_nat (length (slides d)) in
  if count =? 0 then Some d
  else
    let safeIndex := Z.min activeSlideIndex (count - 1) in
    let wasSingleMode := singleMode d in
    let previous := previousActiveSlide d in
    let leavesPrevious :=
      (0 <=? previous) && (previous <? count) && negb (previous =? safeIndex) in
    if negb presenterMode then
      let shown := if wasSingleMode then setHidden false <$> slides d else slides d in
      let left :=
        if leavesPrevious then alter (setActive false) (Z.to_nat previous) shown
        else shown in
      if safeIndex <? 0 then None
      else
        Some {| slides := alter (setActive true) (Z.to_nat safeIndex) left;
                previousActiveSlide := safeIndex;
                singleMode := presenterMode |}
    else
      let left :=
        if leavesPrevious
        then alter (fun slide => setHidden true (setActive false slide))
                   (Z.to_nat previous) (slides d)
        else slides d in
      if safeIndex <? 0 then None
      else
        let entered :=
          alter (fun slide => setHidden false (setActive true slide))
                (Z.to_nat safeIndex) left in
        let others :=
          if negb wasSingleMode
          then imap (fun index slide =>
                       if negb (Z.of_nat index =? safeIndex) then setHidden true slide
                       else slide)
                    entered
          else entered in
        Some {| slides := others;
                previousActiveSlide := safeIndex;
                singleMode := presenterMode |}.

(** The runs of the two effects over the life of the component. *)
Inductive EffectRun :=
| DeckChanged (count : nat)
| DeckGone
| ActiveChanged (activeSlideIndex : Z) (presenterMode : bool).

Definition runEffect (d : Dom) (e : EffectRun) : option Dom :=
  match e with
  | DeckChanged count => Some (renderEffect count d)
  | DeckGone => Some (clearEffect d)
  | ActiveChanged activeSlideIndex presenterMode =>
      activeEffect activeSlideIndex presenterMode d
  end.

Fixpoint runEffects (d : Dom) (effects : list EffectRun) : option Dom :=
  match effects with
  | [] => Some d
  | e :: rest =>
      match runEffect d e with
      | Some d' => runEffects d' rest
      | None => None
      end
  end.

(** The index given to the effect is never negative. *)
Definition indexNonNegative (e : EffectRun) : Prop :=
  match e with
  | ActiveChanged activeSlideIndex _ => 0 <= activeSlideIndex
  | _ => True
  end.

(** The marks after a run of the effect on the active slide: the slide at
    [active] alone is marked active, and in presenter mode it alone is
    visible. *)
Definition marked (active : Z) (presenterMode : bool) (d : Dom) : Prop :=
  previousActiveSlide d = active
  /\ singleMode d = presenterMode
  /\ 0 <= active < Z.of_nat (length (slides d))
  /\ forall (i : nat) slide,
       slides d !! i = Some slide ->
       dataActive slide = (Z.of_nat i =? active)
       /\ ariaHidden slide = presenterMode && negb (Z.of_nat i =? active).

(** The marks after a run of the effect on the compiled deck. *)
Definition unmarked (d : Dom) : Prop :=
  previousActiveSlide d = -1
  /\ (slides d = [] \/ singleMode d = false)
  /\ forall (i : nat) slide,
       slides d !! i = Some slide -> dataActive slide = false /\ ariaHidden slide = false.

End SlideMarks.

(** ** What [EmbeddedDeckPreview] renders *)

Module PreviewView.

Section WithDeck.
Context {Deck : Type}.

Inductive View :=
| ErrorMessage (message : string)
| Loading
| DeckOnScreen (deck : Deck).

(** The three [return]s of the component (lines 1186-1200). *)
Definition render (s : Preview.State Deck) : View :=
  if negb (isEmpty (Preview.error s)) then ErrorMessage (Preview.error s)
  else
    match Preview.CompiledDeck s with
    | None => Loading
    | Some deck => DeckOnScreen deck
    end.

(** An effect that has not been cleaned up and whose evaluation is still
    under way. *)
Definition live (e : @Preview.Effect) : bool :=
  negb (Preview.cancelled e) && Preview.pending e.

(** A compiled deck comes without an error message, and while an evaluation
    is under way for the current source there is neither a deck nor a
    message. *)
Definition coherent (s : Preview.State Deck) : Prop :=
  Preview.olderCancelled (Preview.effects s)
  /\ (Preview.CompiledDeck s <> None -> Preview.error s = EmptyString)
  /\ (forall i e, nth_error (Preview.effects s) i = Some e -> live e = true ->
        Preview.CompiledDeck s = None /\ Preview.error s = EmptyString).

End WithDeck.

Arguments View Deck : clear implicits.

End PreviewView.

(** ** Vocabulary for the slide nearest to the centre of the viewport *)

(** [Math.abs(slideCenter - viewportCenterY)] for the slide at [position]. *)
Definition distanceToCenter (g : Home.Geometry) (position : nat) : Z :=
  Z.abs (Home.slideCenter g position - Home.viewportCenterY g).

(** ** Vocabulary for style sheets written by hand *)

Module Stylesheet.
Import Tokens.

(** A declaration of a custom property: its name without the two dashes,
    and its value. *)
Definition declaration : Type := string * string.

(** One declaration on a line of its own. *)
Definition rule (d : declaration) : string :=
  "  --" +:+ fst d +:+ ": " +:+ snd d +:+ ";" +:+ LF.

Fixpoint rules (ds : list declaration) : string :=
  match ds with
  | [] => EmptyString
  | d :: rest => rule d +:+ rules rest
  end.

(** A rule for the root element with the declarations [ds] in this order. *)
Definition styleSheet (ds : list declaration) : string :=
  ":root {" +:+ LF +:+ rules ds +:+ "}" +:+ LF.

(** The name is made of word characters and dashes, and the value is
    plain. *)
Definition wellFormed (d : declaration) : bool :=
  negb (isEmpty (fst d)) && allChars isWordOrDash (fst d) && plainValue (snd d).

(** The value of the last declaration of the variable of [key], if there is
    one. *)
Definition declared (ds : list declaration) (key : TokenKey) : option string :=
  fold_left (fun value d =>
               if String.eqb ("--" +:+ fst d) (TOKEN_TO_VAR key) then Some (snd d)
               else value)
            ds None.

End Stylesheet.

(** ** Layout properties of the MDX components ([normalizeLayoutGap],
    [normalizeLayoutAlign], [normalizeLayoutJustify]) *)

Module Layout.

(** A value of type [unknown], as far as the normalizers look at it: a
    string, or a value of another type. *)
Inductive unknown :=
| StringValue (value : string)
| OtherValue.

(** [Object.keys(LAYOUT_GAP_MULTIPLIER)] *)
Definition LAYOUT_GAP_SCALES : list string := ["xs"; "sm"; "md"; "lg"; "xl"].

(** [LAYOUT_GAP_MULTIPLIER[scale]] as the template literal prints it. *)
Definition LAYOUT_GAP_MULTIPLIER (scale : string) : string :=
  if String.eqb scale "xs" then "0.5"
  else if String.eqb scale "sm" then "0.75"
  else if String.eqb scale "md" then "1"
  else if String.eqb scale "lg" then "1.5"
  else if String.eqb scale "xl" then "2"
  else "undefined".

Definition normalizeLayoutGap (value : unknown) : string :=
  match value with
  | OtherValue => "md"
  | StringValue value =>
      let normalized := toLowerCase (trim value) in
      if existsb (String.eqb normalized) LAYOUT_GAP_SCALES then normalized else "md"
  end.

Definition normalizeLayoutAlign (value : unknown) : string :=
  match value with
  | OtherValue => "stretch"
  | StringValue value =>
      let normalized := toLowerCase (trim value) in
      if String.eqb normalized "start" || String.eqb normalized "center"
         || String.eqb normalized "end" || String.eqb normalized "stretch"
      then normalized
      else "stretch"
  end.

Definition normalizeLayoutJustify (value : unknown) : string :=
  match value with
  | OtherValue => "start"
  | StringValue value =>
      let normalized := toLowerCase (trim value) in
      if String.eqb normalized "start" || String.eqb normalized "center"
         || String.eqb normalized "end" || String.eqb normalized "between"
      then normalized
      else "start"
  end.

Definition layoutGapCssValue (gap : unknown) : string :=
  let normalized := normalizeLayoutGap gap in
  "calc(var(--slide-layout-gap, 16px) * " +:+ LAYOUT_GAP_MULTIPLIER normalized +:+ ")".

Definition layoutAlignCssValue (align : unknown) : string :=
  let normalized := normalizeLayoutAlign align in
  if String.eqb normalized "start" then "flex-start"
  else if String.eqb normalized "end" then "flex-end"
  else if String.eqb normalized "center" then "center"
  else "stretch".

Definition layoutJustifyCssValue (justify : unknown) : string :=
  let normalized := normalizeLayoutJustify justify in
  if String.eqb normalized "start" then "flex-start"
  else if String.eqb normalized "end" then "flex-end"
  else if String.eqb normalized "center" then "center"
  else "space-between".

(** The values of the types [LayoutAlign] and [LayoutJustify]. *)
Definition LAYOUT_ALIGNS : list string := ["start"; "center"; "end"; "stretch"].
Definition LAYOUT_JUSTIFIES : list string := ["start"; "center"; "end"; "between"].

End Layout.

(** ** The keyboard handler of [Home]

    The handler reads the state of the page that its effect closed over and
    asks for changes of it. The zoom of the preview is a fraction, and the
    handler's requests to change it are kept as requests. *)

Module Keyboard.

(** What the handler reads of a [KeyboardEvent]; [isTypingTarget] tells
    whether the target is editable content, an [INPUT], a [TEXTAREA] or a
    [SELECT]. *)
Record KeyboardEvent := {
  key : string;
  code : string;
  metaKey : bool;
  ctrlKey : bool;
  isTypingTarget : bool;
}.

Record Ui := {
  settingsOpen : bool;
  expandedAsset : bool;
  sidebarOpen : bool;
  presenterMode : bool;
  selectedProject : bool;
  activeSlideIndex : Z;
  maxSlideIndex : Z;
}.

Inductive ZoomRequest := ZoomIn | ZoomOut.

(** [openSettingsPanel] *)
Definition openSettingsPanel (ui : Ui) : Ui :=
  {| settingsOpen := true;
     expandedAsset := false;
     sidebarOpen := true;
     presenterMode := presenterMode ui;
     selectedProject := selectedProject ui;
     activeSlideIndex := activeSlideIndex ui;
     maxSlideIndex := maxSlideIndex ui |}.

Definition setSettingsOpen (value : bool) (ui : Ui) : Ui :=
  {| settingsOpen := value;
     expandedAsset := expandedAsset ui;
     sidebarOpen := sidebarOpen ui;
     presenterMode := presenterMode ui;
     selectedProject := selectedProject ui;
     activeSlideIndex := activeSlideIndex ui;
     maxSlideIndex := maxSlideIndex ui |}.

Definition setExpandedAsset (value : bool) (ui : Ui) : Ui :=
  {| settingsOpen := settingsOpen ui;
     expandedAsset := value;
     sidebarOpen := sidebarOpen ui;
     presenterMode := presenterMode ui;
     selectedProject := selectedProject ui;
     activeSlideIndex := activeSlideIndex ui;
     maxSlideIndex := maxSlideIndex ui |}.

Definition setSidebarOpen (value : bool) (ui : Ui) : Ui :=
  {| settingsOpen := settingsOpen ui;
     expandedAsset := expandedAsset ui;
     sidebarOpen := value;
     presenterMode := presenterMode ui;
     selectedProject := selectedProject ui;
     activeSlideIndex := activeSlideIndex ui;
     maxSlideIndex := maxSlideIndex ui |}.

Definition setPresenterMode (value : bool) (ui : Ui) : Ui :=
  {| settingsOpen := settingsOpen ui;
     expandedAsset := expandedAsset ui;
     sidebarOpen := sidebarOpen ui;
     presenterMode := value;
     selectedProject := selectedProject ui;
     activeSlideIndex := activeSlideIndex ui;
     maxSlideIndex := maxSlideIndex ui |}.

Definition setActiveSlideIndex (value : Z) (ui : Ui) : Ui :=
  {| settingsOpen := settingsOpen ui;
     expandedAsset := expandedAsset ui;
     sidebarOpen := sidebarOpen ui;
     presenterMode := presenterMode ui;
     selectedProject := selectedProject ui;
     activeSlideIndex := value;
     maxSlideIndex := maxSlideIndex ui |}.

(** [onKeyDown] (lines 1613-1686): the state asked for, and the request to
    change the zoom if there is one. *)
Definition onKeyDown (ui : Ui) (event : KeyboardEvent) : Ui * option ZoomRequest :=
  let usingCommand := metaKey event || ctrlKey event in
  let pressed (name : string) := String.eqb (key event) name in
  if usingCommand && (pressed "," || String.eqb (code event) "Comma")
  then (openSettingsPanel ui, None)
  else if isTypingTarget event then (ui, None)
  else if usingCommand && (pressed "=" || pressed "+" || pressed "Add")
  then (ui, Some ZoomIn)
  else if usingCommand && (pressed "-" || pressed "_" || pressed "Subtract")
  then (ui, Some ZoomOut)
  else if usingCommand && (pressed "b" || pressed "B")
  then (setSidebarOpen (negb (sidebarOpen ui)) ui, None)
  else if pressed "Escape" && settingsOpen ui then (setSettingsOpen false ui, None)
  else if pressed "Escape" && expandedAsset ui then (setExpandedAsset false ui, None)
  else if pressed "Escape" && presenterMode ui then (setPresenterMode false ui, None)
  else if expandedAsset ui then (ui, None)
  else if negb (presenterMode ui) || negb (selectedProject ui) then (ui, None)
  else if pressed "ArrowRight" || pressed "PageDown" || pressed " "
  then (setActiveSlideIndex (Z.min (activeSlideIndex ui + 1) (maxSlideIndex ui)) ui, None)
  else if pressed "ArrowLeft" || pressed "PageUp"
  then (setActiveSlideIndex (Z.max (activeSlideIndex ui - 1) 0) ui, None)
  else (ui, None).

(** The layers that Escape closes: the settings panel, the lightbox and the
    presenter view. *)
Definition openLayers (ui : Ui) : nat :=
  ((if settingsOpen ui then 1 else 0) + (if expandedAsset ui then 1 else 0)
   + (if presenterMode ui then 1 else 0))%nat.

End Keyboard.

(** * Properties *)

(** ** Strings *)

Module JsStringFacts.

Lemma append_nil_r (s : string) : s +:+ EmptyString = s.
Proof. induction s as [|c s IH]; simpl; [reflexivity | now rewrite IH]. Qed.

Lemma append_assoc (a b c : string) : (a +:+ b) +:+ c = a +:+ (b +:+ c).
Proof. induction a as [|x a IH]; simpl; [reflexivity | now rewrite IH]. Qed.

Lemma allChars_append P (a b : string) :
  allChars P (a +:+ b) = allChars P a && allChars P b.
Proof.
  induction a as [|x a IH]; simpl; [reflexivity|].
  now rewrite IH, andb_assoc.
Qed.

Lemma startsWith_append (p rest : string) : startsWith (p +:+ rest) p = true.
Proof.
  induction p as [|c p IH]; simpl; [reflexivity|].
  now rewrite Ascii.eqb_refl, IH.
Qed.


Lemma startsWith_toLowerCase (s p : string) :
  startsWith s p = true -> startsWith (toLowerCase s) (toLowerCase p) = true.
Proof.
  revert s; induction p as [|c p IH]; intros s H; simpl in *; [reflexivity|].
  destruct s as [|a s]; [discriminate|].
  apply andb_prop in H as [Ha Hs].
  apply Ascii.eqb_eq in Ha; subst a. simpl.
  now rewrite Ascii.eqb_refl, IH.
Qed.

(** [trim] keeps a prefix that holds no white space. *)
Lemma trimStart_nonspace (c : ascii) (s : string) :
  isWhiteSpace c = false -> trimStart (String c s) = String c s.
Proof. intros H; simpl; now rewrite H. Qed.

Lemma startsWith_trimEnd (s p : string) :
  allChars (fun c => negb (isWhiteSpace c)) p = true ->
  startsWith s p = true -> startsWith (trimEnd s) p = true.
Proof.
  revert s; induction p as [|c p IH]; intros s Hp H; simpl in *; [reflexivity|].
  destruct s as [|a s]; [discriminate|].
  apply andb_prop in H as [Ha Hs].
  apply andb_prop in Hp as [Hc Hp].
  apply Ascii.eqb_eq in Ha; subst a.
  apply negb_true_iff in Hc.
  specialize (IH _ Hp Hs). simpl.
  destruct (trimEnd s) as [|b t] eqn:E.
  - rewrite Hc. simpl. rewrite Ascii.eqb_refl.
    destruct p; [reflexivity | discriminate].
  - simpl. now rewrite Ascii.eqb_refl.
Qed.

Lemma startsWith_trim (s p : string) :
  p <> EmptyString ->
  allChars (fun c => negb (isWhiteSpace c)) p = true ->
  startsWith s p = true -> startsWith (trim s) p = true.
Proof.
  intros Hne Hp H. unfold trim.
  destruct p as [|c p]; [contradiction|].
  destruct s as [|a s]; [discriminate|].
  pose proof H as H'. simpl in H'. apply andb_prop in H' as [Ha _].
  apply Ascii.eqb_eq in Ha; subst a.
  pose proof Hp as Hp'. simpl in Hp'. apply andb_prop in Hp' as [Hc _].
  apply negb_true_iff in Hc.
  rewrite trimStart_nonspace by assumption.
  now apply startsWith_trimEnd.
Qed.

(** Lower-casing produces a slash only from a slash. *)
Lemma toLowerChar_slash (c : ascii) :
  toLowerChar c = "/"%char -> c = "/"%char.
Proof.
  destruct c as [[] [] [] [] [] [] [] []]; vm_compute; intros H;
    first [reflexivity | discriminate H].
Qed.

Lemma startsWith_lower_double_slash (s : string) :
  startsWith (toLowerCase s) "//" = true -> startsWith s "//" = true.
Proof.
  destruct s as [|a [|b s]]; simpl; try discriminate.
  - now rewrite andb_false_r.
  - intros H. apply andb_prop in H as [Ha H]. apply andb_prop in H as [Hb _].
    apply Ascii.eqb_eq, toLowerChar_slash in Ha.
    apply Ascii.eqb_eq, toLowerChar_slash in Hb. now subst.
Qed.

End JsStringFacts.

(** ** The suffix splitter in closed form *)

Module SplitFacts.
Import JsStringFacts.

Lemma take_drop (P : ascii -> bool) (s : string) :
  takeWhile P s +:+ dropWhile P s = s.
Proof.
  induction s as [|c s IH]; simpl; [reflexivity|].
  destruct (P c); simpl; [now rewrite IH | reflexivity].
Qed.

Lemma allChars_dropWhile (P Q : ascii -> bool) (s : string) :
  allChars P s = true -> allChars P (dropWhile Q s) = true.
Proof.
  induction s as [|c s IH]; simpl; [reflexivity|].
  intros H. apply andb_prop in H as [Hc Hs].
  destruct (Q c); [now apply IH | simpl; now rewrite Hc, Hs].
Qed.

Lemma takeWhile_all (P : ascii -> bool) (s : string) :
  allChars P s = true -> takeWhile P s = s /\ dropWhile P s = EmptyString.
Proof.
  induction s as [|c s IH]; simpl; [now split|].
  intros H. apply andb_prop in H as [Hc Hs]. rewrite Hc.
  destruct (IH Hs) as [-> ->]. now split.
Qed.


(** Unfolding equations of the matcher. *)
Lemma rep_nil {R} q min cls (k : string -> string -> option R) taken n :
  Regex.rep q min cls k EmptyString taken n
  = if (min <=? n)%nat then k taken EmptyString else None.
Proof. reflexivity. Qed.

Lemma rep_cons {R} q min cls (k : string -> string -> option R) c s taken n :
  Regex.rep q min cls k (String c s) taken n
  = let stop := if (min <=? n)%nat then k taken (String c s) else None in
    if cls c then
      match q with
      | Regex.Greedy =>
          Regex.orElse (Regex.rep q min cls k s (taken +:+ String c EmptyString) (S n)) stop
      | Regex.Lazy =>
          Regex.orElse stop (Regex.rep q min cls k s (taken +:+ String c EmptyString) (S n))
      end
    else stop.
Proof. reflexivity. Qed.

Lemma matchHere_rep q min cls captured r s caps :
  Regex.matchHere (Regex.Rep q min cls captured :: r) s caps
  = Regex.rep q min cls
      (fun taken rest =>
         Regex.matchHere r rest (if captured then (caps ++ [taken])%list else caps))
      s EmptyString 0.
Proof. reflexivity. Qed.

Lemma matchHere_lit c r s caps :
  Regex.matchHere (Regex.Lit c :: r) s caps
  = match s with
    | String d s' => if Ascii.eqb c d then Regex.matchHere r s' caps else None
    | EmptyString => None
    end.
Proof. reflexivity. Qed.

(** A greedy run of characters other than line terminators followed by the
    end of the input matches exactly the inputs without line terminator. *)
Lemma rest_of_line_closed (caps : list string) (s taken : string) (n : nat) :
  Regex.rep Regex.Greedy 0 anyButLineTerminator
    (fun taken rest => Regex.matchHere [Regex.EndOfInput] rest (caps ++ [taken])%list)
    s taken n
  = if allChars anyButLineTerminator s
    then Some ((caps ++ [taken +:+ s])%list, EmptyString)
    else None.
Proof.
  revert taken n; induction s as [|c s IH]; intros taken n.
  - rewrite rep_nil. simpl. now rewrite append_nil_r.
  - rewrite rep_cons. cbv zeta. simpl allChars. simpl Nat.leb.
    destruct (anyButLineTerminator c); simpl andb; [|reflexivity].
    rewrite IH, append_assoc. simpl String.append.
    destruct (allChars anyButLineTerminator s); reflexivity.
Qed.

Lemma rest_of_line_match (caps : list string) (s : string) :
  Regex.matchHere
    [Regex.Rep Regex.Greedy 0 anyButLineTerminator true; Regex.EndOfInput] s caps
  = if allChars anyButLineTerminator s
    then Some ((caps ++ [s])%list, EmptyString)
    else None.
Proof. rewrite matchHere_rep. apply rest_of_line_closed. Qed.

Lemma path_and_suffix_closed (s taken : string) (n : nat) :
  Regex.rep Regex.Greedy 0 notQueryOrHash
    (fun taken rest =>
       Regex.matchHere
         [Regex.Rep Regex.Greedy 0 anyButLineTerminator true; Regex.EndOfInput]
         rest ([] ++ [taken])%list)
    s taken n
  = if allChars anyButLineTerminator (dropWhile notQueryOrHash s)
    then Some ([taken +:+ takeWhile notQueryOrHash s; dropWhile notQueryOrHash s],
               EmptyString)
    else None.
Proof.
  revert taken n; induction s as [|c s IH]; intros taken n.
  - rewrite rep_nil. simpl Nat.leb. cbv iota. rewrite rest_of_line_match.
    simpl. now rewrite append_nil_r.
  - rewrite rep_cons. cbv zeta. simpl Nat.leb. cbv iota.
    rewrite rest_of_line_match. simpl takeWhile. simpl dropWhile.
    destruct (notQueryOrHash c) eqn:Hc.
    + rewrite IH, append_assoc. simpl String.append.
      destruct (allChars anyButLineTerminator (dropWhile notQueryOrHash s)) eqn:Hd;
        [reflexivity|].
      simpl allChars.
      destruct (allChars anyButLineTerminator s) eqn:Hs.
      * rewrite (allChars_dropWhile _ notQueryOrHash s Hs) in Hd. discriminate.
      * now rewrite andb_false_r.
    + rewrite append_nil_r. reflexivity.
Qed.

Theorem splitAssetPathAndSuffix_closed (s : string) :
  splitAssetPathAndSuffix s
  = if allChars anyButLineTerminator (dropWhile notQueryOrHash s)
    then {| pathOnly := takeWhile notQueryOrHash s;
            suffix := dropWhile notQueryOrHash s |}
    else {| pathOnly := s; suffix := EmptyString |}.
Proof.
  unfold splitAssetPathAndSuffix, PATH_AND_SUFFIX_RE.
  rewrite matchHere_rep, path_and_suffix_closed.
  destruct (allChars anyButLineTerminator (dropWhile notQueryOrHash s)); reflexivity.
Qed.

Lemma pathOnly_whole (s : string) :
  allChars notQueryOrHash s = true -> pathOnly (splitAssetPathAndSuffix s) = s.
Proof.
  intros H. rewrite splitAssetPathAndSuffix_closed.
  destruct (takeWhile_all _ _ H) as [-> ->]. reflexivity.
Qed.


Lemma pathOnly_is_prefix (s : string) :
  exists rest, s = pathOnly (splitAssetPathAndSuffix s) +:+ rest.
Proof.
  rewrite splitAssetPathAndSuffix_closed.
  destruct (allChars anyButLineTerminator (dropWhile notQueryOrHash s)); simpl.
  - exists (dropWhile notQueryOrHash s). now rewrite take_drop.
  - exists EmptyString. now rewrite append_nil_r.
Qed.

End SplitFacts.

(** ** The path sanitizer *)

Module SanitizerProps.
Import JsStringFacts SplitFacts.

Example sanitize_relative :
  normalizeProjectRelativeAsset "images/./a//b/../logo.png?v=2#top"
  = Some "images/a/logo.png".
Proof. reflexivity. Qed.

Example sanitize_backslashes :
  normalizeProjectRelativeAsset "  \data\table.csv " = Some "data/table.csv".
Proof. reflexivity. Qed.

Example sanitize_root_only :
  normalizeProjectRelativeAsset "/images" = Some "images"
  /\ normalizeProjectRelativeAsset "/images/.." = None
  /\ normalizeProjectRelativeAsset "/imagesets/a.png" = None.
Proof. repeat split. Qed.

Example sanitize_query_only : normalizeProjectRelativeAsset "?v=2" = None.
Proof. reflexivity. Qed.

Example split_suffix_with_line_feed :
  splitAssetPathAndSuffix ("a?x" +:+ LF +:+ "y")
  = {| pathOnly := "a?x" +:+ LF +:+ "y"; suffix := EmptyString |}.
Proof. reflexivity. Qed.

Lemma normalizeSegments_app (pre post acc : list string) :
  normalizeSegments (pre ++ post) acc
  = match normalizeSegments pre acc with
    | Some acc' => normalizeSegments post acc'
    | None => None
    end.
Proof.
  revert acc; induction pre as [|part pre IH]; intros acc; simpl; [reflexivity|].
  destruct (isEmpty part || String.eqb part "."); [apply IH|].
  destruct (String.eqb part ".."); [|apply IH].
  destruct (length acc =? 0)%nat; [reflexivity | apply IH].
Qed.

(** C1. Whenever the segment loop meets a [..] segment while no retained
    segment is left to pop, the sanitizer returns null; in particular it does
    so for [../../etc/passwd] and [images/../../secret]. *)
Theorem traversal_rejected :
  (forall raw relative pre post,
      projectRelativeCandidate raw = Some relative ->
      splitSlash relative = (pre ++ ".." :: post)%list ->
      normalizeSegments pre [] = Some [] ->
      normalizeProjectRelativeAsset raw = None)
  /\ normalizeProjectRelativeAsset "../../etc/passwd" = None
  /\ normalizeProjectRelativeAsset "images/../../secret" = None.
Proof.
  split; [|split; reflexivity].
  intros raw relative pre post Hcand Hsplit Hpre.
  unfold normalizeProjectRelativeAsset.
  rewrite Hcand, Hsplit, normalizeSegments_app, Hpre.
  reflexivity.
Qed.

Lemma traversal_rejected_witness :
  projectRelativeCandidate "images/../../secret" = Some "images/../../secret"
  /\ splitSlash "images/../../secret" = (["images"; ".."] ++ ".." :: ["secret"])%list
  /\ normalizeSegments ["images"; ".."] [] = Some []
  /\ normalizeProjectRelativeAsset "images/../../secret" = None.
Proof.
  split; [reflexivity|]. split; [reflexivity|]. split; [reflexivity|].
  apply (proj1 traversal_rejected "images/../../secret" "images/../../secret"
           ["images"; ".."] ["secret"]); reflexivity.
Defined.

Lemma external_prefix_detected (t p : string) :
  In p EXTERNAL_PREFIXES -> startsWith (toLowerCase t) p = true ->
  isExternalAssetPath t = true.
Proof.
  unfold EXTERNAL_PREFIXES, isExternalAssetPath. simpl In.
  intros [<-|[<-|[<-|[<-|[<-|[<-|[<-|[]]]]]]]] H;
    try (rewrite H; now rewrite ?orb_true_r).
  apply startsWith_lower_double_slash in H. now rewrite H.
Qed.

Lemma rejected_is_passed_through (raw : string) :
  normalizeProjectRelativeAsset raw = None -> passedThrough raw.
Proof.
  intros H. split; [assumption|].
  intros rt projectPath w. unfold Resolver.resolveProjectAssetSource.
  now rewrite H.
Qed.

Lemma candidate_rejected (raw : string) :
  isEmpty (trim raw) || startsWith (trim raw) "#" || isExternalAssetPath (trim raw)
  = true ->
  normalizeProjectRelativeAsset raw = None.
Proof.
  intros H. unfold normalizeProjectRelativeAsset, projectRelativeCandidate.
  now rewrite H.
Qed.

(** C2. The sanitizer returns null for every empty or blank input, every
    input that starts with [#], and every input that starts with one of the
    external prefixes, with or without surrounding white space and in any
    letter case; the resolver returns such a reference unchanged. *)
Theorem external_rejected_and_passed_through :
  (forall raw,
      trim raw = EmptyString
      \/ startsWith (trim raw) "#" = true
      \/ (exists p, In p EXTERNAL_PREFIXES
                    /\ startsWith (toLowerCase (trim raw)) p = true) ->
      passedThrough raw)
  /\ (forall raw,
        startsWith raw "#" = true
        \/ (exists p, In p EXTERNAL_PREFIXES /\ startsWith raw p = true) ->
        passedThrough raw)
  /\ passedThrough "https://example.com/a.png".
Proof.
  assert (General : forall raw,
      trim raw = EmptyString
      \/ startsWith (trim raw) "#" = true
      \/ (exists p, In p EXTERNAL_PREFIXES
                    /\ startsWith (toLowerCase (trim raw)) p = true) ->
      passedThrough raw).
  { intros raw H. apply rejected_is_passed_through, candidate_rejected.
    destruct H as [H|[H|[p [Hin H]]]].
    - now rewrite H.
    - rewrite H. now rewrite orb_true_r.
    - rewrite (external_prefix_detected _ _ Hin H). now rewrite orb_true_r. }
  split; [exact General|]. split.
  - intros raw [H|[p [Hin H]]]; apply General.
    + right; left. apply startsWith_trim; [discriminate | reflexivity | assumption].
    + right; right. exists p. split; [assumption|].
      assert (Hp : p <> EmptyString
                   /\ allChars (fun c => negb (isWhiteSpace c)) p = true
                   /\ toLowerCase p = p).
      { unfold EXTERNAL_PREFIXES in Hin. simpl in Hin.
        destruct Hin as [<-|[<-|[<-|[<-|[<-|[<-|[<-|[]]]]]]]];
          (split; [discriminate | split; reflexivity]). }
      destruct Hp as (Hne & Hws & Hlow).
      rewrite <- Hlow. apply startsWith_toLowerCase.
      now apply startsWith_trim.
  - apply General. right; right. exists "https://". split; [|reflexivity].
    unfold EXTERNAL_PREFIXES; simpl; tauto.
Qed.

Lemma external_rejected_and_passed_through_witness :
  startsWith "  HTTPS://example.com/a.png" "#" = false
  /\ In "https://" EXTERNAL_PREFIXES
  /\ startsWith (toLowerCase (trim "  HTTPS://example.com/a.png")) "https://" = true
  /\ passedThrough "  HTTPS://example.com/a.png".
Proof.
  split; [reflexivity|]. split; [unfold EXTERNAL_PREFIXES; simpl; tauto|].
  split; [reflexivity|].
  apply (proj1 external_rejected_and_passed_through).
  right; right. exists "https://". split; [|reflexivity].
  unfold EXTERNAL_PREFIXES; simpl; tauto.
Defined.








(** *** Segments kept by the loop *)

Lemma splitSlash_segment_chars (s : string) :
  allChars (fun c => negb (isBackslash c)) s = true ->
  Forall (fun part => allChars isSegmentChar part = true) (splitSlash s).
Proof.
  induction s as [|c s IH]; simpl; intros H.
  - constructor; [reflexivity | constructor].
  - apply andb_prop in H as [Hc Hs]. specialize (IH Hs).
    destruct (Ascii.eqb c "/") eqn:Hslash.
    + constructor; [reflexivity | assumption].
    + destruct (splitSlash s) as [|part parts].
      * constructor; [|constructor]. simpl. unfold isSegmentChar, isSlash.
        now rewrite Hslash, Hc.
      * inversion IH as [|? ? Hpart Hparts]; subst.
        constructor; [|assumption]. simpl. unfold isSegmentChar at 1, isSlash.
        now rewrite Hslash, Hc, Hpart.
Qed.

Lemma replaceBackslashes_clean (s : string) :
  allChars (fun c => negb (isBackslash c)) (replaceBackslashes s) = true.
Proof.
  induction s as [|c s IH]; simpl; [reflexivity|].
  rewrite IH, andb_true_r. unfold isBackslash.
  destruct (Ascii.eqb c "\") eqn:E; [reflexivity | now rewrite E].
Qed.

Lemma replaceBackslashes_id (s : string) :
  allChars (fun c => negb (isBackslash c)) s = true -> replaceBackslashes s = s.
Proof.
  induction s as [|c s IH]; simpl; [reflexivity|].
  intros H. apply andb_prop in H as [Hc Hs]. rewrite (IH Hs).
  unfold isBackslash in Hc. apply negb_true_iff in Hc. now rewrite Hc.
Qed.

Lemma candidate_no_backslash (raw relative : string) :
  projectRelativeCandidate raw = Some relative ->
  allChars (fun c => negb (isBackslash c)) relative = true.
Proof.
  unfold projectRelativeCandidate. cbv zeta.
  destruct (isEmpty (trim raw) || startsWith (trim raw) "#"
            || isExternalAssetPath (trim raw)); [discriminate|].
  destruct (isEmpty (pathOnly (splitAssetPathAndSuffix (trim raw)))); [discriminate|].
  pose proof (replaceBackslashes_clean
                (pathOnly (splitAssetPathAndSuffix (trim raw)))) as Hclean.
  destruct (startsWith _ "/").
  - destruct (negb _); [discriminate|].
    intros H; injection H as <-.
    destruct (replaceBackslashes _) as [|c r]; [reflexivity|].
    simpl in Hclean. now apply andb_prop in Hclean as [_ Hr].
  - intros H; now injection H as <-.
Qed.

Lemma Forall_removelast {A} (P : A -> Prop) (l : list A) :
  Forall P l -> Forall P (removelast l).
Proof.
  induction 1 as [|x l Hx Hl IH]; simpl; [constructor|].
  destruct l; [constructor | now constructor].
Qed.

Lemma normalizeSegments_kept (parts acc out : list string) :
  Forall (fun part => allChars isSegmentChar part = true) parts ->
  Forall (fun part => keptSegment part = true) acc ->
  normalizeSegments parts acc = Some out ->
  Forall (fun part => keptSegment part = true) out.
Proof.
  revert acc; induction parts as [|part parts IH]; intros acc Hparts Hacc H; simpl in H.
  - now injection H as <-.
  - inversion Hparts as [|? ? Hpart Hrest]; subst.
    destruct (isEmpty part || String.eqb part ".") eqn:Hskip; [now apply (IH acc)|].
    destruct (String.eqb part "..") eqn:Hup.
    + destruct (length acc =? 0)%nat; [discriminate|].
      apply (IH (removelast acc)); [assumption | now apply Forall_removelast | assumption].
    + apply (IH (acc ++ [part])%list); [assumption | | assumption].
      apply Forall_app. split; [assumption|].
      constructor; [|constructor]. unfold keptSegment.
      now rewrite Hskip, Hup, Hpart.
Qed.

Lemma normalizeSegments_of_kept (parts acc : list string) :
  Forall (fun part => keptSegment part = true) parts ->
  normalizeSegments parts acc = Some (acc ++ parts)%list.
Proof.
  revert acc; induction parts as [|part parts IH]; intros acc H; simpl.
  - now rewrite app_nil_r.
  - inversion H as [|? ? Hpart Hrest]; subst.
    unfold keptSegment in Hpart.
    apply andb_prop in Hpart as [Hpart _]. apply andb_prop in Hpart as [Hskip Hup].
    apply negb_true_iff in Hskip, Hup. rewrite Hskip, Hup.
    rewrite (IH _ Hrest), <- app_assoc. reflexivity.
Qed.

Lemma keptSegment_chars (part : string) :
  keptSegment part = true ->
  part <> EmptyString /\ allChars isSegmentChar part = true.
Proof.
  unfold keptSegment. intros H.
  apply andb_prop in H as [H Hc]. apply andb_prop in H as [H _].
  apply negb_true_iff in H. split; [|assumption].
  intros ->. discriminate H.
Qed.

Lemma splitSlash_append (part rest : string) :
  allChars isSegmentChar part = true ->
  splitSlash (part +:+ String "/" rest) = part :: splitSlash rest.
Proof.
  induction part as [|c part IH]; simpl; intros H; [reflexivity|].
  apply andb_prop in H as [Hc Hp]. unfold isSegmentChar, isSlash in Hc.
  apply andb_prop in Hc as [Hc _]. apply negb_true_iff in Hc.
  now rewrite Hc, (IH Hp).
Qed.

Lemma splitSlash_single (part : string) :
  allChars isSegmentChar part = true -> splitSlash part = [part].
Proof.
  induction part as [|c part IH]; simpl; intros H; [reflexivity|].
  apply andb_prop in H as [Hc Hp]. unfold isSegmentChar, isSlash in Hc.
  apply andb_prop in Hc as [Hc _]. apply negb_true_iff in Hc.
  now rewrite Hc, (IH Hp).
Qed.

Lemma joinSlash_cons (part next : string) (parts : list string) :
  joinSlash (part :: next :: parts)
  = part +:+ String "/" (joinSlash (next :: parts)).
Proof. reflexivity. Qed.

Lemma splitSlash_joinSlash (parts : list string) :
  parts <> [] ->
  Forall (fun part => allChars isSegmentChar part = true) parts ->
  splitSlash (joinSlash parts) = parts.
Proof.
  induction parts as [|part parts IH]; intros Hne H; [contradiction|].
  inversion H as [|? ? Hpart Hrest]; subst.
  destruct parts as [|next parts].
  - simpl. now apply splitSlash_single.
  - rewrite joinSlash_cons, splitSlash_append by assumption.
    now rewrite IH.
Qed.

Lemma segment_no_backslash (part : string) :
  allChars isSegmentChar part = true ->
  allChars (fun c => negb (isBackslash c)) part = true.
Proof.
  induction part as [|c part IH]; simpl; [reflexivity|].
  intros H. apply andb_prop in H as [Hc Hp]. unfold isSegmentChar in Hc.
  apply andb_prop in Hc as [_ Hc]. now rewrite Hc, (IH Hp).
Qed.

Lemma joinSlash_no_backslash (parts : list string) :
  Forall (fun part => allChars isSegmentChar part = true) parts ->
  allChars (fun c => negb (isBackslash c)) (joinSlash parts) = true.
Proof.
  induction parts as [|part parts IH]; intros H; [reflexivity|].
  inversion H as [|? ? Hpart Hrest]; subst.
  destruct parts as [|next parts]; [now apply segment_no_backslash|].
  rewrite joinSlash_cons, allChars_append, (segment_no_backslash _ Hpart).
  simpl. now apply IH.
Qed.

(** What the sanitizer returns is the join of a non-empty list of kept
    segments. *)
Lemma sanitized_shape (p q : string) :
  normalizeProjectRelativeAsset p = Some q ->
  exists parts, parts <> []
    /\ Forall (fun part => keptSegment part = true) parts
    /\ q = joinSlash parts.
Proof.
  unfold normalizeProjectRelativeAsset.
  destruct (projectRelativeCandidate p) as [relative|] eqn:Hcand; [|discriminate].
  destruct (normalizeSegments (splitSlash relative) []) as [parts|] eqn:Hnorm;
    [|discriminate].
  destruct (length parts =? 0)%nat eqn:Hlen; [discriminate|].
  intros H; injection H as <-.
  exists parts. split; [|split; [|reflexivity]].
  - intros ->. discriminate Hlen.
  - eapply normalizeSegments_kept; [| constructor | exact Hnorm].
    apply splitSlash_segment_chars. eapply candidate_no_backslash; eassumption.
Qed.

(** The join of kept segments begins with a segment character. *)
Lemma joined_head (parts : list string) :
  parts <> [] ->
  Forall (fun part => keptSegment part = true) parts ->
  exists c tail, joinSlash parts = String c tail /\ isSegmentChar c = true.
Proof.
  intros Hne H. destruct parts as [|part parts]; [contradiction|].
  inversion H as [|? ? Hpart Hrest]; subst.
  destruct (keptSegment_chars _ Hpart) as [Hnonempty Hchars].
  destruct part as [|c part]; [contradiction|].
  simpl in Hchars. apply andb_prop in Hchars as [Hc _].
  destruct parts as [|next parts].
  - now exists c, part.
  - rewrite joinSlash_cons. simpl.
    now exists c, (part +:+ String "/" (joinSlash (next :: parts))).
Qed.

(** A canonical result is a fixed point of the sanitizer. *)
Lemma sanitize_joined (parts : list string) :
  parts <> [] ->
  Forall (fun part => keptSegment part = true) parts ->
  trim (joinSlash parts) = joinSlash parts ->
  allChars notQueryOrHash (joinSlash parts) = true ->
  isExternalAssetPath (joinSlash parts) = false ->
  normalizeProjectRelativeAsset (joinSlash parts) = Some (joinSlash parts).
Proof.
  intros Hne Hkept Htrim Hplain Hext.
  assert (Hchars : Forall (fun part => allChars isSegmentChar part = true) parts).
  { eapply Forall_impl; [|exact Hkept]. intros part Hp.
    now apply keptSegment_chars in Hp. }
  destruct (joined_head _ Hne Hkept) as (c & tail & Hq & Hc).
  assert (Hcand : projectRelativeCandidate (joinSlash parts) = Some (joinSlash parts)).
  { unfold projectRelativeCandidate. cbv zeta.
    rewrite Htrim, Hext, (pathOnly_whole _ Hplain).
    rewrite (replaceBackslashes_id _ (joinSlash_no_backslash _ Hchars)).
    rewrite Hq in Hplain |- *. simpl in Hplain.
    apply andb_prop in Hplain as [Hnq _].
    unfold notQueryOrHash in Hnq. apply negb_true_iff, orb_false_iff in Hnq as [_ Hhash].
    unfold isSegmentChar, isSlash in Hc. apply andb_prop in Hc as [Hslash _].
    apply negb_true_iff in Hslash.
    simpl. now rewrite Hhash, Hslash. }
  unfold normalizeProjectRelativeAsset.
  rewrite Hcand, (splitSlash_joinSlash _ Hne Hchars).
  rewrite (normalizeSegments_of_kept _ [] Hkept). simpl app.
  destruct parts; [contradiction | reflexivity].
Qed.

(** C4, as the claim states it, fails. The sanitizer keeps white space at the
    edge of an inner segment and trims it when that segment comes first; a
    segment that looks like an external reference is rejected when it comes
    first; and where a line feed follows the first [?], the query is not
    stripped and a [#] kept in a later segment is stripped the second time. *)
Lemma sanitizer_not_idempotent :
  (normalizeProjectRelativeAsset "./ b" = Some " b"
   /\ sanitizeTwice "./ b" = Some "b"
   /\ normalizeProjectRelativeAsset "./ b" <> sanitizeTwice "./ b")
  /\ (normalizeProjectRelativeAsset "./data:x" = Some "data:x"
      /\ sanitizeTwice "./data:x" = None
      /\ normalizeProjectRelativeAsset "./data:x" <> sanitizeTwice "./data:x")
  /\ (normalizeProjectRelativeAsset ("x?" +:+ LF +:+ "/../b#c") = Some "b#c"
      /\ sanitizeTwice ("x?" +:+ LF +:+ "/../b#c") = Some "b"
      /\ normalizeProjectRelativeAsset ("x?" +:+ LF +:+ "/../b#c")
         <> sanitizeTwice ("x?" +:+ LF +:+ "/../b#c")).
Proof. vm_compute. repeat split; discriminate. Qed.

(** C4, amended. A result of the sanitizer that has no white space at either
    end, holds no [?] and no [#], and does not begin with an external prefix
    is returned unchanged when it is sanitized again. *)
Theorem sanitizer_idempotent_on_canonical (p q : string) :
  normalizeProjectRelativeAsset p = Some q ->
  trim q = q ->
  allChars notQueryOrHash q = true ->
  isExternalAssetPath q = false ->
  normalizeProjectRelativeAsset q = Some q
  /\ sanitizeTwice p = normalizeProjectRelativeAsset p.
Proof.
  intros Hp Htrim Hplain Hext.
  destruct (sanitized_shape _ _ Hp) as (parts & Hne & Hkept & ->).
  pose proof (sanitize_joined _ Hne Hkept Htrim Hplain Hext) as Hq.
  split; [exact Hq|].
  unfold sanitizeTwice. now rewrite Hp.
Qed.

Lemma sanitizer_idempotent_on_canonical_witness :
  normalizeProjectRelativeAsset "images/./a//b/../logo.png?v=2#top"
  = Some "images/a/logo.png"
  /\ normalizeProjectRelativeAsset "images/a/logo.png" = Some "images/a/logo.png".
Proof.
  split; [reflexivity|].
  exact (proj1 (sanitizer_idempotent_on_canonical
                  "images/./a//b/../logo.png?v=2#top" "images/a/logo.png"
                  eq_refl eq_refl eq_refl eq_refl)).
Defined.

End SanitizerProps.

(** ** The asset resolver *)

Module ResolverProps.
Import Resolver.

Lemma sanitized_truthy (raw relative : string) :
  normalizeProjectRelativeAsset raw = Some relative -> truthy relative = true.
Proof.
  intros H. destruct (SanitizerProps.sanitized_shape _ _ H) as (parts & Hne & Hkept & ->).
  destruct (SanitizerProps.joined_head _ Hne Hkept) as (c & tail & -> & _).
  reflexivity.
Qed.

Lemma truthy_nonempty (s : string) : s <> EmptyString -> truthy s = true.
Proof. destruct s; [contradiction | reflexivity]. Qed.

(** A call that finds a non-empty payload under its key returns it and
    changes nothing. *)
Lemma resolve_hit rt projectPath rawSrc relative payload w :
  normalizeProjectRelativeAsset rawSrc = Some relative ->
  projectPath <> EmptyString ->
  isTauriRuntime rt = true ->
  projectAssetDataUrlCache w !! cacheKeyOf projectPath relative = Some payload ->
  truthy payload = true ->
  resolveProjectAssetSource rt projectPath rawSrc w = (Fulfilled payload, w).
Proof.
  intros Hrel Hpath Hrt Hkey Ht. unfold resolveProjectAssetSource.
  rewrite Hrel, (sanitized_truthy _ _ Hrel), (truthy_nonempty _ Hpath), Hrt.
  simpl. now rewrite Hkey, Ht.
Qed.

(** With a backend stub that answers with the empty string the cache holds
    the empty string, a second call takes it for a miss and reads again.
    [embeddableAnswer] leaves such answers out. *)
Lemma empty_payload_is_read_again :
  let first := resolveProjectAssetSource emptyPayloadRuntime "/deck" "images/a.png"
                 freshWorld in
  let second := resolveProjectAssetSource emptyPayloadRuntime "/deck" "images/a.png"
                  (snd first) in
  normalizeProjectRelativeAsset "images/a.png" = Some "images/a.png"
  /\ fst first = Fulfilled EmptyString
  /\ projectAssetDataUrlCache (snd first) !! "/deck::images/a.png" = Some EmptyString
  /\ backendReads (snd first) = [("/deck", "images/a.png")]
  /\ backendReads (snd second)
     = [("/deck", "images/a.png"); ("/deck", "images/a.png")].
Proof. vm_compute. repeat split. Qed.

(** *** Calls that overlap *)

(** A call that no other call overlaps is its two parts, one run right after
    the other. *)
Lemma resolve_in_two_parts rt projectPath rawSrc w :
  resolveProjectAssetSource rt projectPath rawSrc w
  = match untilAwait (isTauriRuntime rt) projectPath rawSrc
            (projectAssetDataUrlCache w) with
    | Returns value => (Fulfilled value, w)
    | Awaits cacheKey =>
        let '(settled, cache) :=
          afterAwait cacheKey
            (invoke_resolve_project_asset_data_url rt projectPath rawSrc)
            (projectAssetDataUrlCache w) in
        (settled,
         {| projectAssetDataUrlCache := cache;
            backendReads := (backendReads w ++ [(projectPath, rawSrc)])%list |})
    end.
Proof.
  unfold resolveProjectAssetSource, untilAwait.
  destruct (normalizeProjectRelativeAsset rawSrc) as [relative|]; [|reflexivity].
  destruct (negb (truthy relative) || negb (truthy projectPath)
            || negb (isTauriRuntime rt)) eqn:Hguard; [reflexivity|].
  apply orb_false_iff in Hguard as [_ Hrt]. apply negb_false_iff in Hrt.
  unfold call_resolve_project_asset_data_url, afterAwait. rewrite Hrt.
  simpl negb. cbv iota.
  destruct (projectAssetDataUrlCache w !! cacheKeyOf projectPath relative) as [cached|];
    [destruct (truthy cached); [reflexivity|]|];
    destruct (invoke_resolve_project_asset_data_url rt projectPath rawSrc);
    reflexivity.
Qed.

(** A call made while no call waits, and answered before anything else
    happens, is the call that no other call overlaps. *)
Lemma call_then_answer rt projectPath rawSrc w :
  fst (advance (isTauriRuntime rt)
         (fst (advance (isTauriRuntime rt) {| world := w; suspended := [] |}
                 (Calls projectPath rawSrc)))
         (Answers 0 (invoke_resolve_project_asset_data_url rt projectPath rawSrc)))
  = {| world := snd (resolveProjectAssetSource rt projectPath rawSrc w);
       suspended := [] |}.
Proof.
  rewrite resolve_in_two_parts. unfold advance.
  cbn [world suspended projectAssetDataUrlCache].
  destruct (untilAwait (isTauriRuntime rt) projectPath rawSrc
              (projectAssetDataUrlCache w)) as [value|cacheKey]; [reflexivity|].
  destruct (invoke_resolve_project_asset_data_url rt projectPath rawSrc); reflexivity.
Qed.

(** Calls made one after the other are a run of the page in which no call
    waits while another is made. *)
Lemma resolveAll_is_a_run rt (calls : list (string * string)) :
  forall w,
    runPage (isTauriRuntime rt) (oneAfterTheOther rt calls)
      {| world := w; suspended := [] |}
    = {| world := resolveAll rt calls w; suspended := [] |}.
Proof.
  induction calls as [|[projectPath rawSrc] calls IH]; intros w; [reflexivity|].
  change (runPage (isTauriRuntime rt)
            (oneAfterTheOther rt ((projectPath, rawSrc) :: calls))
            {| world := w; suspended := [] |})
    with (runPage (isTauriRuntime rt) (oneAfterTheOther rt calls)
            (fst (advance (isTauriRuntime rt)
                    (fst (advance (isTauriRuntime rt) {| world := w; suspended := [] |}
                            (Calls projectPath rawSrc)))
                    (Answers 0
                       (invoke_resolve_project_asset_data_url rt projectPath rawSrc))))).
  rewrite call_then_answer. apply IH.
Qed.

Lemma untilAwait_hit isTauri projectPath rawSrc relative
    (cache : gmap string string) cached :
  normalizeProjectRelativeAsset rawSrc = Some relative ->
  projectPath <> EmptyString ->
  isTauri = true ->
  cache !! cacheKeyOf projectPath relative = Some cached ->
  cached <> EmptyString ->
  untilAwait isTauri projectPath rawSrc cache = Returns cached.
Proof.
  intros Hrel Hpath -> Hkey Hcached. unfold untilAwait.
  rewrite Hrel, (sanitized_truthy _ _ Hrel), (truthy_nonempty _ Hpath).
  simpl negb. simpl orb. cbv iota.
  now rewrite Hkey, (truthy_nonempty _ Hcached).
Qed.

Lemma untilAwait_miss isTauri projectPath rawSrc relative
    (cache : gmap string string) :
  normalizeProjectRelativeAsset rawSrc = Some relative ->
  projectPath <> EmptyString ->
  isTauri = true ->
  (forall cached,
      cache !! cacheKeyOf projectPath relative = Some cached -> cached = EmptyString) ->
  untilAwait isTauri projectPath rawSrc cache = Awaits (cacheKeyOf projectPath relative).
Proof.
  intros Hrel Hpath -> Hmiss. unfold untilAwait.
  rewrite Hrel, (sanitized_truthy _ _ Hrel), (truthy_nonempty _ Hpath).
  simpl negb. simpl orb. cbv iota.
  destruct (cache !! cacheKeyOf projectPath relative) as [cached|]; [|reflexivity].
  now rewrite (Hmiss cached eq_refl).
Qed.

(** A call waits only past the guard, and only when the cache holds no
    payload, or an empty one, under its key. *)
Lemma untilAwait_awaits isTauri projectPath rawSrc
    (cache : gmap string string) cacheKey :
  untilAwait isTauri projectPath rawSrc cache = Awaits cacheKey ->
  passedGuard isTauri
    {| suspendedKey := cacheKey; suspendedProject := projectPath;
       suspendedRaw := rawSrc |}
  /\ forall cached, cache !! cacheKey = Some cached -> cached = EmptyString.
Proof.
  unfold untilAwait, passedGuard. cbn [suspendedKey suspendedProject suspendedRaw].
  destruct (normalizeProjectRelativeAsset rawSrc) as [relative|]; [|discriminate].
  destruct (negb (truthy relative) || negb (truthy projectPath) || negb isTauri)
    eqn:Hguard; [discriminate|].
  apply orb_false_iff in Hguard as [Hguard Hrt].
  apply orb_false_iff in Hguard as [_ Hpath].
  apply negb_false_iff in Hrt, Hpath.
  intros H.
  assert (Hkey : cacheKey = cacheKeyOf projectPath relative
                 /\ forall cached,
                      cache !! cacheKeyOf projectPath relative = Some cached ->
                      truthy cached = false).
  { destruct (cache !! cacheKeyOf projectPath relative) as [c|].
    - destruct (truthy c) eqn:Ht; [discriminate|]. injection H as <-.
      split; [reflexivity|]. intros cached [= <-]. exact Ht.
    - injection H as <-. split; [reflexivity|]. discriminate. }
  destruct Hkey as [-> Hfalsy]. split.
  - exists relative. split; [reflexivity|]. split; [reflexivity|].
    split; [|exact Hrt]. intros ->. discriminate Hpath.
  - intros cached Hc. specialize (Hfalsy _ Hc).
    destruct cached; [reflexivity | discriminate].
Qed.

Lemma advance_passedGuard isTauri page move :
  Forall (passedGuard isTauri) (suspended page) ->
  Forall (passedGuard isTauri) (suspended (fst (advance isTauri page move))).
Proof.
  intros H. destruct move as [projectPath rawSrc | i answer]; unfold advance.
  - destruct (untilAwait isTauri projectPath rawSrc
                (projectAssetDataUrlCache (world page))) as [value|cacheKey] eqn:E;
      cbn [fst suspended]; [exact H|].
    apply Forall_app. split; [exact H|]. constructor; [|constructor].
    exact (proj1 (untilAwait_awaits _ _ _ _ _ E)).
  - destruct (suspended page !! i) as [waiting|]; [|exact H].
    destruct (afterAwait (suspendedKey waiting) answer
                (projectAssetDataUrlCache (world page))) as [settled cache].
    cbn [fst suspended]. now apply Forall_delete.
Qed.

Lemma runPage_passedGuard isTauri moves :
  forall page,
    Forall (passedGuard isTauri) (suspended page) ->
    Forall (passedGuard isTauri) (suspended (runPage isTauri moves page)).
Proof.
  induction moves as [|move moves IH]; intros page H; [exact H|].
  apply IH, advance_passedGuard, H.
Qed.

(** A key that holds a non-empty payload holds one from then on, as long as
    the backend answers with non-empty payloads. *)
Lemma advance_keeps_payload isTauri page move cacheKey :
  embeddableAnswer move ->
  (exists cached,
      projectAssetDataUrlCache (world page) !! cacheKey = Some cached
      /\ cached <> EmptyString) ->
  exists cached,
    projectAssetDataUrlCache (world (fst (advance isTauri page move))) !! cacheKey
    = Some cached
    /\ cached <> EmptyString.
Proof.
  intros Hmove (cached & Hkey & Hcached).
  destruct move as [projectPath rawSrc | i answer]; unfold advance.
  - destruct (untilAwait isTauri projectPath rawSrc
                (projectAssetDataUrlCache (world page)));
      cbn [fst world projectAssetDataUrlCache]; eauto.
  - destruct (suspended page !! i) as [waiting|]; [|cbn [fst]; eauto].
    destruct answer as [payload|cause]; cbn [afterAwait fst world projectAssetDataUrlCache].
    + destruct (decide (suspendedKey waiting = cacheKey)) as [->|Hne].
      * exists payload. split; [apply lookup_insert_eq | exact Hmove].
      * exists cached. split; [|exact Hcached].
        rewrite lookup_insert_ne by exact Hne. exact Hkey.
    + eauto.
Qed.

Lemma runPage_keeps_payload isTauri moves cacheKey :
  forall page,
    Forall embeddableAnswer moves ->
    (exists cached,
        projectAssetDataUrlCache (world page) !! cacheKey = Some cached
        /\ cached <> EmptyString) ->
    exists cached,
      projectAssetDataUrlCache (world (runPage isTauri moves page)) !! cacheKey
      = Some cached
      /\ cached <> EmptyString.
Proof.
  induction moves as [|move moves IH]; intros page Hmoves H; [exact H|].
  inversion Hmoves as [|? ? Hmove Hrest]; subst.
  apply IH; [exact Hrest|]. now apply advance_keeps_payload.
Qed.

(** An entry with a non-empty payload changes only when a call for its key
    that waited is answered; and while the entry is there no call for the
    key starts to wait. *)
Lemma advance_keeps_entry isTauri page move cacheKey payload :
  projectAssetDataUrlCache (world page) !! cacheKey = Some payload ->
  payload <> EmptyString ->
  noneSuspendedFor cacheKey page ->
  projectAssetDataUrlCache (world (fst (advance isTauri page move))) !! cacheKey
  = Some payload
  /\ noneSuspendedFor cacheKey (fst (advance isTauri page move)).
Proof.
  intros Hkey Hpayload Hnone. unfold noneSuspendedFor in *.
  destruct move as [projectPath rawSrc | i answer]; unfold advance.
  - destruct (untilAwait isTauri projectPath rawSrc
                (projectAssetDataUrlCache (world page))) as [value|waitingKey] eqn:E;
      cbn [fst world projectAssetDataUrlCache suspended]; [now split|].
    split; [exact Hkey|]. apply Forall_app. split; [exact Hnone|].
    constructor; [|constructor]. cbn [suspendedKey]. intros ->.
    apply Hpayload. exact (proj2 (untilAwait_awaits _ _ _ _ _ E) payload Hkey).
  - destruct (suspended page !! i) as [waiting|] eqn:Hi; [|now split].
    pose proof (Forall_lookup_1 _ _ _ _ Hnone Hi) as Hother.
    destruct answer as [answered|cause];
      cbn [afterAwait fst world projectAssetDataUrlCache suspended].
    + split; [|now apply Forall_delete].
      rewrite lookup_insert_ne by exact Hother. exact Hkey.
    + split; [exact Hkey | now apply Forall_delete].
Qed.

Lemma runPage_keeps_entry isTauri moves cacheKey payload :
  forall page,
    projectAssetDataUrlCache (world page) !! cacheKey = Some payload ->
    payload <> EmptyString ->
    noneSuspendedFor cacheKey page ->
    projectAssetDataUrlCache (world (runPage isTauri moves page)) !! cacheKey
    = Some payload.
Proof.
  induction moves as [|move moves IH]; intros page Hkey Hpayload Hnone; [exact Hkey|].
  destruct (advance_keeps_entry isTauri page move _ _ Hkey Hpayload Hnone)
    as [Hkey' Hnone'].
  now apply IH.
Qed.

(** A call that starts while the cache holds a non-empty payload under its
    key settles with that payload at once: nothing is read, nothing is
    stored, and the call does not wait. *)
Lemma call_served_from_cache isTauri page projectPath rawSrc relative cached :
  normalizeProjectRelativeAsset rawSrc = Some relative ->
  projectPath <> EmptyString ->
  isTauri = true ->
  projectAssetDataUrlCache (world page) !! cacheKeyOf projectPath relative
  = Some cached ->
  cached <> EmptyString ->
  advance isTauri page (Calls projectPath rawSrc) = (page, Some (Fulfilled cached)).
Proof.
  intros Hrel Hpath Hrt Hkey Hcached. unfold advance.
  now rewrite (untilAwait_hit _ _ _ _ _ _ Hrel Hpath Hrt Hkey Hcached).
Qed.

(** Once the backend has answered a call with a payload, the key of the call
    holds a payload for good, and every call for the same project whose
    reference the sanitizer maps to the same path is served from the cache. *)
Lemma stored_payload_is_served
    isTauri (before between : list Move) (i : nat)
    (projectPath first other relative payload : string) :
  normalizeProjectRelativeAsset first = Some relative ->
  normalizeProjectRelativeAsset other = Some relative ->
  suspended (runPage isTauri before freshPage) !! i
  = Some {| suspendedKey := cacheKeyOf projectPath relative;
            suspendedProject := projectPath;
            suspendedRaw := first |} ->
  payload <> EmptyString ->
  let answered :=
    advance isTauri (runPage isTauri before freshPage) (Answers i (Fulfilled payload)) in
  let later := runPage isTauri between (fst answered) in
  snd answered = Some (Fulfilled payload)
  /\ projectAssetDataUrlCache (world (fst answered)) !! cacheKeyOf projectPath relative
     = Some payload
  /\ (Forall embeddableAnswer between ->
      exists cached,
        projectAssetDataUrlCache (world later) !! cacheKeyOf projectPath relative
        = Some cached
        /\ advance isTauri later (Calls projectPath other)
           = (later, Some (Fulfilled cached)))
  /\ (noneSuspendedFor (cacheKeyOf projectPath relative) (fst answered) ->
      advance isTauri later (Calls projectPath other)
      = (later, Some (Fulfilled payload))).
Proof.
  intros Hfirst Hother Hi Hpayload answered later.
  assert (Hguard : passedGuard isTauri
                     {| suspendedKey := cacheKeyOf projectPath relative;
                        suspendedProject := projectPath;
                        suspendedRaw := first |}).
  { refine (Forall_lookup_1 _ _ _ _ _ Hi).
    apply runPage_passedGuard. constructor. }
  destruct Hguard as (relative' & _ & _ & Hpath & Hrt).
  cbn [suspendedProject] in Hpath.
  assert (Hanswered :
            answered
            = ({| world :=
                    {| projectAssetDataUrlCache :=
                         <[cacheKeyOf projectPath relative := payload]>
                           (projectAssetDataUrlCache
                              (world (runPage isTauri before freshPage)));
                       backendReads :=
                         backendReads (world (runPage isTauri before freshPage)) |};
                  suspended := delete i (suspended (runPage isTauri before freshPage)) |},
               Some (Fulfilled payload))).
  { subst answered. unfold advance. rewrite Hi. reflexivity. }
  assert (Hstored :
            projectAssetDataUrlCache (world (fst answered))
              !! cacheKeyOf projectPath relative = Some payload).
  { rewrite Hanswered. cbn [fst world projectAssetDataUrlCache].
    apply lookup_insert_eq. }
  split; [now rewrite Hanswered|]. split; [exact Hstored|]. split.
  - intros Hbetween.
    destruct (runPage_keeps_payload isTauri between (cacheKeyOf projectPath relative)
                (fst answered) Hbetween (ex_intro _ payload (conj Hstored Hpayload)))
      as (cached & Hkey & Hcached).
    exists cached. split; [exact Hkey|].
    exact (call_served_from_cache _ _ _ _ _ _ Hother Hpath Hrt Hkey Hcached).
  - intros Hnone.
    apply (call_served_from_cache _ _ _ _ relative); try assumption.
    now apply runPage_keeps_entry.
Qed.

(** Two calls for the same reference made one after the other read the
    backend once. *)
Example calls_in_sequence_read_once :
  backendReads
    (resolveAll pngRuntime [("/deck", "images/a.png"); ("/deck", "./images/a.png")]
       freshWorld)
  = [("/deck", "images/a.png")].
Proof. vm_compute. reflexivity. Qed.

(** Two calls for the same reference that overlap both read the backend, and
    the answer that comes last is the one the cache keeps; a call made after
    that is served from the cache. *)
Example overlapping_calls_both_read :
  let moves :=
    [Calls "/deck" "images/a.png"; Calls "/deck" "./images/a.png";
     Answers 0 (Fulfilled pngPayload); Answers 0 (Fulfilled editedPngPayload)] in
  let page := runPage true moves freshPage in
  backendReads (world page) = [("/deck", "images/a.png"); ("/deck", "./images/a.png")]
  /\ projectAssetDataUrlCache (world page) !! "/deck::images/a.png"
     = Some editedPngPayload
  /\ advance true page (Calls "/deck" "images/a.png")
     = (page, Some (Fulfilled editedPngPayload)).
Proof. vm_compute. repeat split. Qed.

(** C5. A call for a pair whose reference the sanitizer accepts, made when
    the cache holds no payload under the key of the pair, reads the backend
    once and waits. Once the backend has answered it with a payload and the
    payload is stored under the key, every call with the same pair made
    later, whatever calls are made and answered in between, settles at once
    with the payload that the cache holds under the key and leaves the page
    as it is: no backend read is issued. When no other call for the key was
    waiting as the payload was stored, the payload served is that one,
    whatever the backend answers to the other calls; when one was, the
    payload served is the one found under the key, the backend answering
    with payloads that are not empty. *)
Theorem cached_payload_is_reused :
  (forall (isTauri : bool) (page : Page) (projectPath rawSrc relativePath : string),
      normalizeProjectRelativeAsset rawSrc = Some relativePath ->
      projectPath <> EmptyString ->
      isTauri = true ->
      (forall cached,
          projectAssetDataUrlCache (world page) !! (projectPath +:+ "::" +:+ relativePath)
          = Some cached ->
          cached = EmptyString) ->
      advance isTauri page (Calls projectPath rawSrc)
      = ({| world :=
              {| projectAssetDataUrlCache := projectAssetDataUrlCache (world page);
                 backendReads :=
                   (backendReads (world page) ++ [(projectPath, rawSrc)])%list |};
            suspended :=
              (suspended page
               ++ [{| suspendedKey := projectPath +:+ "::" +:+ relativePath;
                      suspendedProject := projectPath;
                      suspendedRaw := rawSrc |}])%list |},
         None))
  /\ (forall (isTauri : bool) (before between : list Move) (i : nat)
             (projectPath rawSrc relativePath payload : string),
        normalizeProjectRelativeAsset rawSrc = Some relativePath ->
        let cacheKey := projectPath +:+ "::" +:+ relativePath in
        let started := runPage isTauri before freshPage in
        suspended started !! i
        = Some {| suspendedKey := cacheKey;
                  suspendedProject := projectPath;
                  suspendedRaw := rawSrc |} ->
        embeddableAnswer (Answers i (Fulfilled payload)) ->
        let first := advance isTauri started (Answers i (Fulfilled payload)) in
        let later := runPage isTauri between (fst first) in
        snd first = Some (Fulfilled payload)
        /\ projectAssetDataUrlCache (world (fst first)) !! cacheKey = Some payload
        /\ (Forall embeddableAnswer between ->
            exists cached,
              projectAssetDataUrlCache (world later) !! cacheKey = Some cached
              /\ advance isTauri later (Calls projectPath rawSrc)
                 = (later, Some (Fulfilled cached)))
        /\ (noneSuspendedFor cacheKey (fst first) ->
            advance isTauri later (Calls projectPath rawSrc)
            = (later, Some (Fulfilled payload)))).
Proof.
  split.
  - intros isTauri page projectPath rawSrc relativePath Hrel Hpath Hrt Hmiss.
    unfold advance.
    now rewrite (untilAwait_miss _ _ _ _ _ Hrel Hpath Hrt Hmiss).
  - intros isTauri before between i projectPath rawSrc relativePath payload
      Hrel cacheKey started Hi Hpayload.
    exact (stored_payload_is_served isTauri before between i projectPath rawSrc rawSrc
             relativePath payload Hrel Hrel Hi Hpayload).
Qed.

Lemma cached_payload_is_reused_witness :
  let before := [Calls "/deck" "./images/a.png?v=1"; Calls "/deck" "media/b.mp4"] in
  let between :=
    [Calls "/other" "images/a.png"; Answers 0 (Fulfilled "data:video/mp4;base64,AAAA");
     Answers 0 (Rejected "No such file")] in
  let later :=
    runPage true between
      (fst (advance true (runPage true before freshPage)
              (Answers 0 (Fulfilled pngPayload)))) in
  backendReads (world later)
  = [("/deck", "./images/a.png?v=1"); ("/deck", "media/b.mp4"); ("/other", "images/a.png")]
  /\ advance true later (Calls "/deck" "./images/a.png?v=1")
     = (later, Some (Fulfilled pngPayload)).
Proof.
  split; [vm_compute; reflexivity|].
  refine (proj2 (proj2 (proj2
            (proj2 cached_payload_is_reused true
               [Calls "/deck" "./images/a.png?v=1"; Calls "/deck" "media/b.mp4"]
               [Calls "/other" "images/a.png";
                Answers 0 (Fulfilled "data:video/mp4;base64,AAAA");
                Answers 0 (Rejected "No such file")]
               0%nat "/deck" "./images/a.png?v=1" "images/a.png" pngPayload
               eq_refl eq_refl _))) _).
  - cbn. discriminate.
  - vm_compute. repeat constructor; discriminate.
Defined.

(** C6, as the claim states it, fails: when the backend rejects, the promise
    of [resolveProjectAssetSource] rejects as well. *)
Lemma backend_failure_is_propagated :
  normalizeProjectRelativeAsset "images/missing.png" = Some "images/missing.png"
  /\ fst (resolveProjectAssetSource failingRuntime "/deck" "images/missing.png" freshWorld)
     = Rejected "No such file"
  /\ fst (resolveProjectAssetSource failingRuntime "/deck" "images/missing.png" freshWorld)
     <> Fulfilled "images/missing.png".
Proof. vm_compute. repeat split; discriminate. Qed.

(** C6, amended. [resolveProjectAssetSource] returns the raw reference
    unchanged when the sanitizer returns null, the project path is empty or
    the page runs outside the desktop shell. When it asks the backend and the
    backend rejects, its promise rejects with the cause the backend gave,
    nothing is stored, and both of its callers catch the rejection and fall
    back to the raw reference. It rejects in no other case; and a call that
    other calls overlap rejects in the same way when its answer comes. *)
Theorem resolution_falls_back_to_raw :
  (forall rt projectPath rawSrc w,
      normalizeProjectRelativeAsset rawSrc = None
      \/ projectPath = EmptyString
      \/ isTauriRuntime rt = false ->
      resolveProjectAssetSource rt projectPath rawSrc w = (Fulfilled rawSrc, w))
  /\ (forall rt projectPath rawSrc relative w cause,
        normalizeProjectRelativeAsset rawSrc = Some relative ->
        projectPath <> EmptyString ->
        isTauriRuntime rt = true ->
        (forall cached,
            projectAssetDataUrlCache w !! (projectPath +:+ "::" +:+ relative)
            = Some cached ->
            cached = EmptyString) ->
        invoke_resolve_project_asset_data_url rt projectPath rawSrc = Rejected cause ->
        resolveProjectAssetSource rt projectPath rawSrc w
        = (Rejected cause,
           {| projectAssetDataUrlCache := projectAssetDataUrlCache w;
              backendReads := (backendReads w ++ [(projectPath, rawSrc)])%list |})
        /\ fst (ProjectAssetImage rt projectPath rawSrc w) = rawSrc
        /\ fst (handleOpenAsset rt projectPath rawSrc w) = rawSrc)
  /\ (forall rt projectPath rawSrc w cause,
        fst (resolveProjectAssetSource rt projectPath rawSrc w) = Rejected cause ->
        invoke_resolve_project_asset_data_url rt projectPath rawSrc = Rejected cause
        /\ fst (ProjectAssetImage rt projectPath rawSrc w) = rawSrc
        /\ fst (handleOpenAsset rt projectPath rawSrc w) = rawSrc)
  /\ (forall isTauri page i waiting cause,
        suspended page !! i = Some waiting ->
        snd (advance isTauri page (Answers i (Rejected cause))) = Some (Rejected cause)
        /\ world (fst (advance isTauri page (Answers i (Rejected cause))))
           = {| projectAssetDataUrlCache := projectAssetDataUrlCache (world page);
                backendReads := backendReads (world page) |}).
Proof.
  split; [|split; [|split]].
  - intros rt projectPath rawSrc w H. unfold resolveProjectAssetSource.
    destruct (normalizeProjectRelativeAsset rawSrc) as [relative|]; [|reflexivity].
    destruct H as [H|[H|H]]; [discriminate | |]; rewrite H;
      now rewrite ?orb_true_r.
  - intros rt projectPath rawSrc relative w cause Hrel Hpath Hrt Hmiss Hbackend.
    assert (Hrejects :
              resolveProjectAssetSource rt projectPath rawSrc w
              = (Rejected cause,
                 {| projectAssetDataUrlCache := projectAssetDataUrlCache w;
                    backendReads :=
                      (backendReads w ++ [(projectPath, rawSrc)])%list |})).
    { rewrite resolve_in_two_parts,
        (untilAwait_miss _ _ _ _ _ Hrel Hpath Hrt Hmiss), Hbackend.
      reflexivity. }
    split; [exact Hrejects|].
    unfold ProjectAssetImage, handleOpenAsset. rewrite Hrejects.
    destruct rawSrc; split; reflexivity.
  - intros rt projectPath rawSrc w cause H.
    unfold ProjectAssetImage, handleOpenAsset.
    destruct (resolveProjectAssetSource rt projectPath rawSrc w) as [settled w'] eqn:E.
    simpl in H. subst settled. split.
    + unfold resolveProjectAssetSource in E.
      destruct (normalizeProjectRelativeAsset rawSrc) as [relative|]; [|discriminate].
      destruct (negb (truthy relative) || negb (truthy projectPath)
                || negb (isTauriRuntime rt)) eqn:Hguard; [discriminate|].
      apply orb_false_iff in Hguard as [_ Hrt].
      unfold call_resolve_project_asset_data_url in E. rewrite Hrt in E.
      destruct (invoke_resolve_project_asset_data_url rt projectPath rawSrc)
        as [value|cause'] eqn:Hb.
      * destruct (projectAssetDataUrlCache w !! cacheKeyOf projectPath relative)
          as [cached|]; [destruct (truthy cached)|]; discriminate.
      * destruct (projectAssetDataUrlCache w !! cacheKeyOf projectPath relative)
          as [cached|]; [destruct (truthy cached)|]; congruence.
    + simpl. destruct (truthy rawSrc); split; reflexivity.
  - intros isTauri page i waiting cause Hi. unfold advance. rewrite Hi.
    split; reflexivity.
Qed.

Lemma resolution_falls_back_to_raw_witness :
  resolveProjectAssetSource failingRuntime "/deck" "images/missing.png" freshWorld
  = (Rejected "No such file",
     {| projectAssetDataUrlCache := ∅;
        backendReads := [("/deck", "images/missing.png")] |})
  /\ fst (ProjectAssetImage failingRuntime "/deck" "images/missing.png" freshWorld)
     = "images/missing.png"
  /\ fst (handleOpenAsset failingRuntime "/deck" "images/missing.png" freshWorld)
     = "images/missing.png"
  /\ resolveProjectAssetSource failingRuntime "" "images/missing.png" freshWorld
     = (Fulfilled "images/missing.png", freshWorld).
Proof.
  assert (Hmiss : forall cached,
             projectAssetDataUrlCache freshWorld !! ("/deck" +:+ "::" +:+ "images/missing.png")
             = Some cached ->
             cached = EmptyString).
  { intros cached H. vm_compute in H. discriminate H. }
  destruct (proj1 (proj2 resolution_falls_back_to_raw) failingRuntime "/deck"
              "images/missing.png" "images/missing.png" freshWorld "No such file"
              eq_refl ltac:(discriminate) eq_refl Hmiss eq_refl)
    as (Hrejects & Himage & Hopen).
  split; [exact Hrejects|]. split; [exact Himage|]. split; [exact Hopen|].
  apply (proj1 resolution_falls_back_to_raw). right; left; reflexivity.
Defined.

End ResolverProps.

(** ** The active slide index and the table-of-contents rail *)

Module HomeProps.
Import Home.

Example outline_titles :
  outlineFrom 0 [Some " Intro "; None; Some "  "]
  = [{| index := 0; title := "Intro" |};
     {| index := 1; title := "Slide 2" |};
     {| index := 2; title := "Slide 3" |}].
Proof. reflexivity. Qed.

Example nearest_slide_first_on_tie :
  getCurrentCenteredSlideIndex
    (run (mounted true 0) [DeckRendered threeSlides])
    {| viewportCenterY := 150; slideCenter := fun p => Z.of_nat p * 100 |}
  = 1.
Proof. reflexivity. Qed.

Lemma outlineFrom_length (i : Z) (slides : list (option string)) :
  length (outlineFrom i slides) = length slides.
Proof.
  revert i; induction slides as [|h slides IH]; intros i; simpl; [reflexivity|].
  now rewrite IH.
Qed.

Lemma outlineFrom_index (slides : list (option string)) :
  forall (i : Z) (k : nat) (entry : SlideOutlineEntry),
    nth_error (outlineFrom i slides) k = Some entry ->
    index entry = i + Z.of_nat k /\ (k < length slides)%nat.
Proof.
  induction slides as [|h slides IH]; intros i k entry H.
  - destruct k; discriminate H.
  - destruct k as [|k]; simpl in H.
    + injection H as <-. simpl. split; lia.
    + apply IH in H as [Hi Hk]. simpl. split; lia.
Qed.

Lemma nearestFrom_choice (g : Geometry) (positions : list nat) :
  forall nextIndex minDistance,
    nearestFrom g positions nextIndex minDistance = nextIndex
    \/ exists p, In p positions
                 /\ nearestFrom g positions nextIndex minDistance = Z.of_nat p.
Proof.
  induction positions as [|position rest IH]; intros nextIndex minDistance; simpl.
  - now left.
  - destruct (match minDistance with
              | Some d => Z.abs (slideCenter g position - viewportCenterY g) <? d
              | None => true
              end).
    + destruct (IH (Z.of_nat position)
                  (Some (Z.abs (slideCenter g position - viewportCenterY g))))
        as [H|[p [Hp H]]].
      * right. exists position. split; [now left | exact H].
      * right. exists p. split; [now right | exact H].
    + destruct (IH nextIndex minDistance) as [H|[p [Hp H]]].
      * now left.
      * right. exists p. split; [now right | exact H].
Qed.

(** The handlers get [-1] or the position of a slide on screen. *)
Lemma centered_slide_on_screen (s : State) (g : Geometry) :
  getCurrentCenteredSlideIndex s g = -1
  \/ 0 <= getCurrentCenteredSlideIndex s g < Z.of_nat (length (renderedSlides s)).
Proof.
  unfold getCurrentCenteredSlideIndex.
  destruct (negb (selectedProject s)); [now left|].
  destruct (length (renderedSlides s)) as [|n] eqn:Hn; [now left|].
  right. simpl Nat.eqb. cbv iota.
  destruct (nearestFrom_choice g (seq 0 (S n)) 0 None) as [->|[p [Hp ->]]].
  - lia.
  - apply in_seq in Hp. lia.
Qed.

Lemma position_inRange (s : State) (i : Z) :
  rendered s -> 0 <= i < Z.of_nat (length (renderedSlides s)) ->
  0 <= i <= maxSlideIndex s.
Proof.
  intros [Hcount _] Hi. unfold maxSlideIndex, visibleSlideCount.
  rewrite Hcount. destruct (0 <? Z.of_nat (length (renderedSlides s))) eqn:E; lia.
Qed.

Lemma tocEntry_inRange (s : State) (k : nat) (entry : SlideOutlineEntry) :
  rendered s -> nth_error (slideTocEntries s) k = Some entry ->
  0 <= index entry <= maxSlideIndex s.
Proof.
  intros Hr H. unfold slideTocEntries in H.
  destruct (0 <? length (slideOutline s))%nat eqn:Hlen.
  - destruct Hr as [Hcount Houtline]. rewrite Houtline in H.
    apply outlineFrom_index in H as [Hi Hk].
    apply position_inRange; [now split | lia].
  - apply nth_error_In, in_map_iff in H as [i [<- Hi]].
    apply in_seq in Hi. simpl index. unfold maxSlideIndex. lia.
Qed.

(** What a handler leaves: an index that is not negative, and not above the
    maximum unless the handler changed the maximum. *)
Ltac bounds :=
  repeat split; simpl; try assumption; try lia;
  try (intros _; unfold maxSlideIndex, visibleSlideCount in *; simpl in *; lia).

Lemma handle_bounds (s : State) (e : Event) :
  inRange s -> rendered s ->
  rendered (handle s e)
  /\ 0 <= activeSlideIndex (handle s e)
  /\ (maxSlideIndex (handle s e) = maxSlideIndex s ->
      activeSlideIndex (handle s e) <= maxSlideIndex (handle s e)).
Proof.
  intros Hin Hr. pose proof Hr as [Hcount Houtline].
  unfold inRange in Hin. fold (maxSlideIndex s) in Hin.
  destruct e as [n|slides| |g|k|position| | | |g]; simpl handle.
  - bounds.
  - destruct (selectedProject s); bounds.
  - bounds.
  - destruct (negb (selectedProject s) || presenterMode s); [bounds|].
    destruct (0 <=? getCurrentCenteredSlideIndex s g) eqn:Hc; [|bounds].
    apply Z.leb_le in Hc.
    destruct (centered_slide_on_screen s g) as [Hm|Hpos]; [lia|].
    pose proof (position_inRange s _ Hr Hpos) as Hb.
    destruct (activeSlideIndex s =? getCurrentCenteredSlideIndex s g); bounds.
  - destruct (negb (selectedProject s)); [bounds|].
    destruct (SlideTocRail (slideTocEntries s) (activeSlideIndex s)); [|bounds].
    destruct (nth_error (slideTocEntries s) k) as [entry|] eqn:Hk; [|bounds].
    pose proof (tocEntry_inRange s k entry Hr Hk) as Hb.
    bounds.
  - destruct (negb (selectedProject s) || presenterMode s); [bounds|].
    destruct (position <? length (renderedSlides s))%nat eqn:Hp; [|bounds].
    apply Nat.ltb_lt in Hp.
    assert (Hpos : 0 <= Z.of_nat position < Z.of_nat (length (renderedSlides s))) by lia.
    pose proof (position_inRange s _ Hr Hpos) as Hb.
    bounds.
  - destruct (negb (presenterMode s) || negb (selectedProject s)); bounds.
  - destruct (negb (presenterMode s) || negb (selectedProject s)); bounds.
  - destruct (presenterMode s); bounds.
  - destruct (negb (selectedProject s)); [bounds|].
    destruct (presenterMode s); [bounds|].
    destruct (0 <=? getCurrentCenteredSlideIndex s g) eqn:Hc; [|bounds].
    apply Z.leb_le in Hc.
    destruct (centered_slide_on_screen s g) as [Hm|Hpos]; [lia|].
    pose proof (position_inRange s _ Hr Hpos) as Hb.
    bounds.
Qed.

Lemma maxSlideIndex_nonneg (s : State) : 0 <= maxSlideIndex s.
Proof. unfold maxSlideIndex. lia. Qed.


Lemma mounted_invariant (selected : bool) (slide_count : Z) :
  inRange (mounted selected slide_count) /\ rendered (mounted selected slide_count).
Proof.
  unfold mounted, clampToMaxSlideIndex, inRange, rendered, maxSlideIndex,
    visibleSlideCount. simpl. repeat split; lia.
Qed.



Lemma switchProject_resets (selected : bool) (slide_count : Z) (s : State) :
  activeSlideIndex (switchProject selected slide_count s) = 0
  /\ inRange (switchProject selected slide_count s).
Proof.
  unfold switchProject, clampToMaxSlideIndex, inRange, maxSlideIndex, visibleSlideCount.
  simpl. lia.
Qed.

(** *** Sessions with project switches *)

Lemma rendered_outlined (s : State) : rendered s -> outlined s.
Proof. intros [Hcount Houtline]. now exists (renderedSlides s). Qed.

Lemma tocEntry_inRange_outlined (s : State) (k : nat) (entry : SlideOutlineEntry) :
  outlined s -> nth_error (slideTocEntries s) k = Some entry ->
  0 <= index entry <= maxSlideIndex s.
Proof.
  intros (slides & Hcount & Houtline) H. unfold slideTocEntries in H.
  destruct (0 <? length (slideOutline s))%nat eqn:Hlen.
  - rewrite Houtline in H. apply outlineFrom_index in H as [Hi Hk].
    unfold maxSlideIndex, visibleSlideCount. rewrite Hcount.
    destruct (0 <? Z.of_nat (length slides)) eqn:E; lia.
  - apply nth_error_In, in_map_iff in H as [i [<- Hi]].
    apply in_seq in Hi. simpl index. unfold maxSlideIndex. lia.
Qed.

Lemma handle_selectedProject (s : State) (e : Event) :
  selectedProject (handle s e) = selectedProject s.
Proof.
  destruct e as [n|slides| |g|k|position| | | |g]; simpl handle;
    repeat match goal with
      | |- context [if ?b then _ else _] => destruct b eqn:?
      | |- context [match ?o with Some _ => _ | None => _ end] => destruct o
      end;
    simpl; congruence.
Qed.

Lemma handle_outlined (s : State) (e : Event) :
  outlined s -> outlined (handle s e).
Proof.
  intros H.
  assert (Hset : forall slides, outlined (setRendered slides s)).
  { intros slides. exists slides. split; reflexivity. }
  destruct e as [n|slides| |g|k|position| | | |g]; simpl handle;
    repeat match goal with
      | |- context [if ?b then _ else _] => destruct b
      | |- context [match ?o with Some _ => _ | None => _ end] => destruct o
      end;
    try apply Hset; exact H.
Qed.

(** The bounds of [handle_bounds] when the deck on screen need not be the one
    counted: it is enough that the handlers that read the deck do so only
    when it is, or when no project is selected. *)
Lemma handle_bounds_outlined (s : State) (e : Event) :
  inRange s -> outlined s ->
  (readsDeck e = true -> rendered s \/ selectedProject s = false) ->
  0 <= activeSlideIndex (handle s e)
  /\ (maxSlideIndex (handle s e) = maxSlideIndex s ->
      activeSlideIndex (handle s e) <= maxSlideIndex (handle s e)).
Proof.
  intros Hin Ho Hreads.
  assert (Hread : readsDeck e = true ->
            0 <= activeSlideIndex (handle s e)
            /\ (maxSlideIndex (handle s e) = maxSlideIndex s ->
                activeSlideIndex (handle s e) <= maxSlideIndex (handle s e))).
  { intros He. destruct (Hreads He) as [Hr | Hsel].
    - destruct (handle_bounds s e Hin Hr) as (_ & Hlow & Hhigh). now split.
    - assert (Hsame : handle s e = s).
      { destruct e; try discriminate He; simpl handle; rewrite Hsel; reflexivity. }
      rewrite Hsame. unfold inRange in Hin. fold (maxSlideIndex s) in Hin.
      split; [lia | intros _; lia]. }
  unfold inRange in Hin. fold (maxSlideIndex s) in Hin.
  destruct e as [n|slides| |g|k|position| | | |g];
    try (apply Hread; reflexivity); simpl handle.
  - bounds.
  - destruct (selectedProject s); bounds.
  - bounds.
  - destruct (negb (selectedProject s)); [bounds|].
    destruct (SlideTocRail (slideTocEntries s) (activeSlideIndex s)); [|bounds].
    destruct (nth_error (slideTocEntries s) k) as [entry|] eqn:Hk; [|bounds].
    pose proof (tocEntry_inRange_outlined s k entry Ho Hk) as Hb.
    bounds.
  - destruct (negb (presenterMode s) || negb (selectedProject s)); bounds.
  - destruct (negb (presenterMode s) || negb (selectedProject s)); bounds.
  - destruct (presenterMode s); bounds.
Qed.

Lemma step_outlined (s : State) (e : Event) : outlined s -> outlined (step s e).
Proof.
  intros H. apply (handle_outlined s e) in H. unfold step.
  destruct (maxSlideIndex (handle s e) =? maxSlideIndex s); exact H.
Qed.

Lemma session_outlined (actions : list Action) :
  forall s, outlined s -> outlined (session s actions).
Proof.
  induction actions as [|a actions IH]; intros s H; [exact H|].
  apply IH. destruct a as [e|selected slide_count]; simpl act.
  - now apply step_outlined.
  - exists []. split; reflexivity.
Qed.

(** One event of a session. [current] tells whether the render effect has
    run since the last project switch. *)
Lemma step_session_invariant (current : bool) (s : State) (e : Event) :
  inRange s -> outlined s ->
  (current = true -> rendered s \/ selectedProject s = false) ->
  (readsDeck e = true -> current = true) ->
  inRange (step s e) /\ outlined (step s e)
  /\ (current || rendersDeck e = true ->
      rendered (step s e) \/ selectedProject (step s e) = false).
Proof.
  intros Hin Ho Hcurrent Hreads.
  assert (Hbounds := handle_bounds_outlined s e Hin Ho
                       (fun He => Hcurrent (Hreads He))).
  destruct Hbounds as [Hlow Hhigh].
  assert (Hafter : current || rendersDeck e = true ->
            rendered (handle s e) \/ selectedProject (handle s e) = false).
  { intros Hor. destruct (rendersDeck e) eqn:Hrenders.
    - destruct e; try discriminate Hrenders; simpl handle.
      + destruct (selectedProject s) eqn:Hsel; [|now right].
        left. split; reflexivity.
      + left. split; reflexivity.
    - rewrite orb_false_r in Hor. destruct (Hcurrent Hor) as [Hr | Hsel].
      + left. exact (proj1 (handle_bounds s e Hin Hr)).
      + right. now rewrite handle_selectedProject. }
  split; [|split].
  - unfold step. destruct (maxSlideIndex (handle s e) =? maxSlideIndex s) eqn:E.
    + apply Z.eqb_eq in E. unfold inRange. fold (maxSlideIndex (handle s e)).
      split; [exact Hlow | now apply Hhigh].
    + pose proof (maxSlideIndex_nonneg (handle s e)) as Hmax.
      unfold inRange, clampToMaxSlideIndex. simpl.
      unfold maxSlideIndex, visibleSlideCount in *. simpl. lia.
  - now apply step_outlined.
  - intros Hor. specialize (Hafter Hor). unfold step.
    destruct (maxSlideIndex (handle s e) =? maxSlideIndex s); exact Hafter.
Qed.

(** The index stays in range through a session in which the handlers that
    read the deck on screen do not run between a project switch and the next
    run of the render effect. *)
Lemma session_invariant (actions : list Action) :
  forall (current : bool) (s : State),
    inRange s -> outlined s ->
    (current = true -> rendered s \/ selectedProject s = false) ->
    readsRenderedDeck current actions = true ->
    inRange (session s actions) /\ outlined (session s actions).
Proof.
  induction actions as [|a actions IH]; intros current s Hin Ho Hcurrent Hok;
    [now split|].
  change (session s (a :: actions)) with (session (act s a) actions).
  destruct a as [e|selected slide_count]; cbn [readsRenderedDeck] in Hok; simpl act.
  - destruct (rendersDeck e) eqn:Hrenders.
    + assert (Hreads : readsDeck e = true -> current = true).
      { destruct e; discriminate. }
      destruct (step_session_invariant current s e Hin Ho Hcurrent Hreads)
        as (Hin' & Ho' & Hafter).
      rewrite Hrenders, orb_true_r in Hafter.
      apply (IH true); auto.
    + apply andb_true_iff in Hok as [Hfirst Hrest].
      assert (Hreads : readsDeck e = true -> current = true).
      { intros He. rewrite He in Hfirst. exact Hfirst. }
      destruct (step_session_invariant current s e Hin Ho Hcurrent Hreads)
        as (Hin' & Ho' & Hafter).
      rewrite Hrenders, orb_false_r in Hafter.
      apply (IH current); auto.
  - apply (IH false); [| |discriminate|exact Hok].
    + apply switchProject_resets.
    + exists []. split; reflexivity.
Qed.

Lemma mounted_session_invariant (selected : bool) (slide_count : Z)
    (actions : list Action) :
  readsRenderedDeck true actions = true ->
  inRange (session (mounted selected slide_count) actions)
  /\ outlined (session (mounted selected slide_count) actions).
Proof.
  intros Hok. destruct (mounted_invariant selected slide_count) as [Hin Hr].
  apply (session_invariant actions true); auto using rendered_outlined.
Qed.


(** So do a click on the fifth slide of the deck that is still on screen, and
    a switch to presenter mode while that slide is centred. *)
Example stale_deck_click_and_toggle :
  let switched := session (mounted true 5)
                    [Occurs (DeckRendered fiveSlides); ProjectSwitched true 2] in
  activeSlideIndex switched = 0
  /\ activeSlideIndex (step switched (SlideClicked 4)) = 4
  /\ activeSlideIndex (step switched (PresenterToggled fifthSlideCentered)) = 4
  /\ visibleSlideCount (step switched (SlideClicked 4)) = 2
  /\ visibleSlideCount (step switched (PresenterToggled fifthSlideCentered)) = 2.
Proof. vm_compute. repeat split. Qed.



Lemma step_outlineCounted (s : State) (e : Event) :
  outlineCounted s -> outlineCounted (step s e).
Proof.
  intros H.
  assert (Hhandle : outlineCounted (handle s e)).
  { unfold outlineCounted in *.
    destruct e as [n|slides| |g|k|position| | | |g]; simpl handle;
      repeat match goal with
        | |- context [if ?b then _ else _] => destruct b
        | |- context [match ?o with Some _ => _ | None => _ end] => destruct o
        end;
      simpl; rewrite ?outlineFrom_length; try assumption; reflexivity. }
  unfold step. destruct (maxSlideIndex (handle s e) =? maxSlideIndex s);
    [exact Hhandle | exact Hhandle].
Qed.

Lemma session_outlineCounted (actions : list Action) :
  forall s, outlineCounted s -> outlineCounted (session s actions).
Proof.
  induction actions as [|a actions IH]; intros s H; [exact H|].
  apply IH. destruct a as [e|selected slide_count]; simpl act.
  - now apply step_outlineCounted.
  - reflexivity.
Qed.

(** C10. The rail renders nothing exactly when it gets at most one entry. A
    deck that shows a single slide therefore has no rail; and when the
    outline is empty while the backend reports two slides or more, the
    entries are the synthesized [Slide N] ones and the rail is rendered. Both
    hold at every point of a session. *)
Theorem toc_rail_hidden_for_single_slide :
  (forall entries activeIndex,
      SlideTocRail entries activeIndex = None <-> (length entries <= 1)%nat)
  /\ (forall selected slide_count actions,
        let s := session (mounted selected slide_count) actions in
        (visibleSlideCount s = 1 ->
         SlideTocRail (slideTocEntries s) (activeSlideIndex s) = None)
        /\ (slideOutline s = [] -> 2 <= fallbackCount s ->
            slideTocEntries s
            = map (fun i => {| index := Z.of_nat i;
                               title := "Slide " +:+ pretty (Z.of_nat i + 1) |})
                  (seq 0 (Z.to_nat (fallbackCount s)))
            /\ SlideTocRail (slideTocEntries s) (activeSlideIndex s) <> None)).
Proof.
  assert (Hrail : forall entries activeIndex,
             SlideTocRail entries activeIndex = None <-> (length entries <= 1)%nat).
  { intros entries activeIndex. unfold SlideTocRail.
    destruct (length entries <=? 1)%nat eqn:E.
    - apply Nat.leb_le in E. tauto.
    - apply Nat.leb_gt in E. split; [discriminate | lia]. }
  split; [exact Hrail|].
  intros selected slide_count actions s.
  assert (Hcounted : outlineCounted s).
  { apply session_outlineCounted. reflexivity. }
  unfold outlineCounted in Hcounted. split.
  - intros Hone. apply Hrail. unfold slideTocEntries.
    destruct (0 <? length (slideOutline s))%nat eqn:E.
    + apply Nat.ltb_lt in E.
      unfold visibleSlideCount in Hone. rewrite <- Hcounted in Hone.
      destruct (0 <? Z.of_nat (length (slideOutline s))) eqn:E'; lia.
    + rewrite length_map, length_seq, Hone. simpl. lia.
  - intros Hempty Hfallback.
    assert (Hvisible : visibleSlideCount s = fallbackCount s).
    { unfold visibleSlideCount. rewrite <- Hcounted, Hempty. reflexivity. }
    assert (Hentries : slideTocEntries s
                       = map (fun i => {| index := Z.of_nat i;
                                          title := "Slide " +:+ pretty (Z.of_nat i + 1) |})
                             (seq 0 (Z.to_nat (fallbackCount s)))).
    { unfold slideTocEntries. rewrite Hempty, Hvisible. reflexivity. }
    split; [exact Hentries|].
    intros Hnone. apply Hrail in Hnone.
    rewrite Hentries, length_map, length_seq in Hnone. lia.
Qed.

Lemma toc_rail_hidden_for_single_slide_witness :
  let s := session (mounted true 0)
             [Occurs (DeckRendered fiveSlides); ProjectSwitched true 3;
              Occurs KeyEscape] in
  slideOutline s = [] /\ 2 <= fallbackCount s
  /\ SlideTocRail (slideTocEntries s) (activeSlideIndex s) <> None.
Proof.
  intros s. split; [reflexivity|]. split; [vm_compute; discriminate|].
  exact (proj2 (proj2 (proj2 toc_rail_hidden_for_single_slide true 0
                         [Occurs (DeckRendered fiveSlides); ProjectSwitched true 3;
                          Occurs KeyEscape])
                  eq_refl ltac:(vm_compute; discriminate))).
Defined.

End HomeProps.

(** ** Stale compilations *)

Module PreviewProps.
Import Preview.

Section WithDeck.
Context {Deck : Type}.

Lemma cleanupLatest_length (es : list Effect) :
  length (cleanupLatest es) = length es.
Proof.
  induction es as [|e es IH]; [reflexivity|].
  destruct es as [|e' es]; [reflexivity|].
  change (cleanupLatest (e :: e' :: es)) with (e :: cleanupLatest (e' :: es)).
  simpl length in *. now rewrite IH.
Qed.

Lemma cleanupLatest_snoc (es : list Effect) (e : Effect) :
  cleanupLatest (es ++ [e])
  = (es ++ [{| cancelled := true; pending := pending e |}])%list.
Proof.
  induction es as [|x es IH]; [reflexivity|].
  simpl app. destruct (es ++ [e])%list as [|y rest] eqn:E.
  - destruct es; discriminate E.
  - change (cleanupLatest (x :: y :: rest)) with (x :: cleanupLatest (y :: rest)).
    now rewrite IH.
Qed.

Lemma cleanupLatest_cancels (es : list Effect) :
  olderCancelled es ->
  forall i e, nth_error (cleanupLatest es) i = Some e -> cancelled e = true.
Proof.
  induction es as [|x es IH]; intros Hold i e H.
  - destruct i; discriminate H.
  - destruct es as [|y es].
    + destruct i as [|[|i]]; simpl in H; try discriminate H.
      now injection H as <-.
    + change (cleanupLatest (x :: y :: es)) with (x :: cleanupLatest (y :: es)) in H.
      destruct i as [|i]; simpl in H.
      * injection H as <-. apply (Hold 0%nat); [reflexivity | simpl; lia].
      * apply (IH (fun j e' Hj Hlen => Hold (S j) e' Hj ltac:(simpl in *; lia)) i e H).
Qed.

Lemma nth_error_markSettled (es : list Effect) :
  forall id i,
    nth_error (markSettled id es) i
    = if (i =? id)%nat
      then option_map (fun e => {| cancelled := cancelled e; pending := false |})
             (nth_error es i)
      else nth_error es i.
Proof.
  induction es as [|x es IH]; intros id i.
  - destruct id, i; simpl; try reflexivity; destruct (i =? id)%nat; reflexivity.
  - destruct id as [|id], i as [|i]; simpl; try reflexivity. apply IH.
Qed.

Lemma markSettled_length (id : nat) (es : list Effect) :
  length (markSettled id es) = length es.
Proof.
  revert id; induction es as [|x es IH]; intros [|id]; simpl; try reflexivity.
  now rewrite IH.
Qed.

Lemma markSettled_olderCancelled (id : nat) (es : list Effect) :
  olderCancelled es -> olderCancelled (markSettled id es).
Proof.
  intros Hold i e H Hlen. rewrite markSettled_length in Hlen.
  rewrite nth_error_markSettled in H.
  destruct (i =? id)%nat.
  - destruct (nth_error es i) as [e'|] eqn:E; [|discriminate H].
    injection H as <-. simpl. now apply (Hold i).
  - now apply (Hold i).
Qed.

Lemma snoc_olderCancelled (es : list Effect) (e : Effect) :
  (forall i x, nth_error es i = Some x -> cancelled x = true) ->
  olderCancelled (es ++ [e]).
Proof.
  intros Hall i x H Hlen. rewrite length_app in Hlen. simpl in Hlen.
  rewrite nth_error_app1 in H by lia. now apply (Hall i).
Qed.

Lemma step_olderCancelled (s : State Deck) (e : Event Deck) :
  olderCancelled (effects s) -> olderCancelled (effects (step s e)).
Proof.
  intros Hold. destruct e as [source|id outcome|]; simpl.
  - destruct (isEmpty (trim source)); simpl;
      apply snoc_olderCancelled, cleanupLatest_cancels, Hold.
  - destruct (nth_error (effects s) id) as [x|]; [|exact Hold].
    destruct (pending x); [|exact Hold].
    destruct (cancelled x); [now apply markSettled_olderCancelled|].
    destruct outcome; now apply markSettled_olderCancelled.
  - intros i x H _. now apply (cleanupLatest_cancels _ Hold i).
Qed.

Lemma settle_live (s : State Deck) (id : nat) (deck : Deck) :
  nth_error (effects s) id = Some {| cancelled := false; pending := true |} ->
  step s (Settled id (Evaluated deck))
  = {| CompiledDeck := Some deck; error := error s;
       effects := markSettled id (effects s) |}.
Proof. intros H. simpl. now rewrite H. Qed.

Lemma settle_stale (s : State Deck) (id : nat) (outcome : Outcome Deck) :
  nth_error (effects s) id = Some {| cancelled := true; pending := true |} ->
  step s (Settled id outcome)
  = {| CompiledDeck := CompiledDeck s; error := error s;
       effects := markSettled id (effects s) |}.
Proof. intros H. simpl. now rewrite H. Qed.

Lemma run_olderCancelled (events : list (Event Deck)) (s : State Deck) :
  olderCancelled (effects s) -> olderCancelled (effects (run s events)).
Proof.
  revert s; induction events as [|e events IH]; intros s H; [exact H|].
  apply IH, step_olderCancelled, H.
Qed.

(** C8. A compilation that is not the one issued last changes nothing of what
    is shown when it settles, whatever it settles to. In particular, with A
    issued before B, the deck of B stays on screen whether A settles after B
    or before it. *)
Theorem stale_compile_discarded :
  (forall events id outcome,
      let s := run (@initial Deck) events in
      (S id < length (effects s))%nat ->
      shown (step s (Settled id outcome)) = shown s)
  /\ (forall (s : State Deck) A B deckB outcomeA,
        isEmpty (trim A) = false -> isEmpty (trim B) = false ->
        let a := length (effects s) in
        let b := S a in
        shown (run s [SourceChanged A; SourceChanged B;
                      Settled b (Evaluated deckB); Settled a outcomeA])
        = (Some deckB, EmptyString)
        /\ shown (run s [SourceChanged A; SourceChanged B;
                         Settled a outcomeA; Settled b (Evaluated deckB)])
           = (Some deckB, EmptyString)).
Proof.
  split.
  - intros events id outcome s Hid.
    assert (Hold : olderCancelled (effects s)).
    { apply run_olderCancelled. intros i e H. destruct i; discriminate H. }
    simpl step. destruct (nth_error (effects s) id) as [x|] eqn:E; [|reflexivity].
    destruct (pending x); [|reflexivity].
    now rewrite (Hold id x E Hid).
  - intros s A B deckB outcomeA HA HB a b. subst b.
    set (es := cleanupLatest (effects s)).
    assert (Hlen : length es = a) by apply cleanupLatest_length.
    set (staleA := {| cancelled := true; pending := true |}).
    set (liveB := {| cancelled := false; pending := true |}).
    assert (Htwo : step (step s (SourceChanged A)) (SourceChanged B)
                   = {| CompiledDeck := None; error := EmptyString;
                        effects := (es ++ [staleA; liveB])%list |}).
    { simpl. rewrite HA, HB. simpl. rewrite cleanupLatest_snoc. simpl.
      now rewrite <- app_assoc. }
    assert (HatA : nth_error (es ++ [staleA; liveB])%list a = Some staleA).
    { rewrite nth_error_app2 by lia. now replace (a - length es)%nat with 0%nat by lia. }
    assert (HatB : nth_error (es ++ [staleA; liveB])%list (S a) = Some liveB).
    { rewrite nth_error_app2 by lia. now replace (S a - length es)%nat with 1%nat by lia. }
    assert (Hne1 : (a =? S a)%nat = false) by (apply Nat.eqb_neq; lia).
    assert (Hne2 : (S a =? a)%nat = false) by (apply Nat.eqb_neq; lia).
    split.
    + change (run s [SourceChanged A; SourceChanged B;
                     Settled (S a) (Evaluated deckB); Settled a outcomeA])
        with (step (step (step (step s (SourceChanged A)) (SourceChanged B))
                      (Settled (S a) (Evaluated deckB))) (Settled a outcomeA)).
      rewrite Htwo. rewrite (settle_live _ (S a) deckB) by exact HatB.
      rewrite (settle_stale _ a outcomeA); [reflexivity|].
      cbn [effects]. now rewrite nth_error_markSettled, Hne1, HatA.
    + change (run s [SourceChanged A; SourceChanged B;
                     Settled a outcomeA; Settled (S a) (Evaluated deckB)])
        with (step (step (step (step s (SourceChanged A)) (SourceChanged B))
                      (Settled a outcomeA)) (Settled (S a) (Evaluated deckB))).
      rewrite Htwo. rewrite (settle_stale _ a outcomeA) by exact HatA.
      rewrite (settle_live _ (S a) deckB); [reflexivity|].
      cbn [effects]. now rewrite nth_error_markSettled, Hne2, HatB.
Qed.

End WithDeck.

Lemma stale_compile_discarded_witness :
  let s := run (@initial string) [SourceChanged "# A"; SourceChanged "# B";
                                  Settled 1 (Evaluated "deck B")] in
  (S 0 < length (effects s))%nat
  /\ shown (step s (Settled 0 (Evaluated "deck A"))) = (Some "deck B", EmptyString).
Proof.
  intros s. split; [vm_compute; lia|].
  transitivity (shown s); [|reflexivity].
  exact (proj1 (@stale_compile_discarded string)
           [SourceChanged "# A"; SourceChanged "# B"; Settled 1 (Evaluated "deck B")]
           0%nat (Evaluated "deck A") ltac:(vm_compute; lia)).
Defined.

End PreviewProps.

(** ** Design tokens *)

Module TokensProps.
Import Tokens JsStringFacts SplitFacts.

Example serialized_defaults_start :
  startsWith (tokensToCss DEFAULT_TOKENS)
    (":root {" +:+ LF +:+ "  --slide-bg: #0e0d0a;" +:+ LF +:+ "  --slide-border: #efefeb1f;")
  = true.
Proof. reflexivity. Qed.

Example parse_hand_written :
  parseCssToTokens ":root { --slide-bg : #000 ; --unknown: 1; --slide-fg:#fff; }" slideBg
  = Some "#000"
  /\ parseCssToTokens ":root { --slide-bg : #000 ; --unknown: 1; --slide-fg:#fff; }" slideFg
     = Some "#fff"
  /\ parseCssToTokens ":root { --slide-bg : #000 ; --unknown: 1; --slide-fg:#fff; }" slideAccent
     = None.
Proof. vm_compute. repeat split. Qed.

Lemma length_append (a b : string) :
  String.length (a +:+ b) = (String.length a + String.length b)%nat.
Proof. induction a as [|c a IH]; simpl; [reflexivity | now rewrite IH]. Qed.

Lemma trimStart_length (s : string) :
  (String.length (trimStart s) <= String.length s)%nat.
Proof.
  induction s as [|c s IH]; simpl; [lia|].
  destruct (isWhiteSpace c); simpl; lia.
Qed.

Lemma trimEnd_length (s : string) :
  (String.length (trimEnd s) <= String.length s)%nat.
Proof.
  induction s as [|c s IH]; simpl; [lia|].
  destruct (trimEnd s); [destruct (isWhiteSpace c)|]; simpl in *; lia.
Qed.

Lemma trimEnd_tail (c : ascii) (s : string) :
  trimEnd (String c s) = String c s -> s <> EmptyString -> trimEnd s = s.
Proof.
  simpl. intros H Hne. destruct (trimEnd s) as [|d t].
  - destruct (isWhiteSpace c); [discriminate H|].
    injection H as <-. contradiction.
  - now injection H.
Qed.

Lemma trimEnd_single (c : ascii) :
  trimEnd (String c EmptyString) = String c EmptyString -> isWhiteSpace c = false.
Proof. simpl. destruct (isWhiteSpace c); [discriminate | reflexivity]. Qed.

(** A non-empty string that [trim] leaves alone begins with a character that
    is not white space, and [trimEnd] leaves it alone. *)
Lemma trim_fixed (v : string) :
  v <> EmptyString -> trim v = v ->
  trimEnd v = v
  /\ exists c v', v = String c v' /\ isWhiteSpace c = false.
Proof.
  intros Hne Htrim. destruct v as [|c v]; [contradiction|].
  unfold trim in Htrim. simpl trimStart in Htrim.
  destruct (isWhiteSpace c) eqn:Hc.
  - pose proof (trimEnd_length (trimStart v)) as H1.
    pose proof (trimStart_length v) as H2.
    rewrite Htrim in H1. simpl in H1. lia.
  - split; [exact Htrim|]. now exists c, v.
Qed.

Lemma plainValue_spec (v : string) :
  plainValue v = true ->
  v <> EmptyString /\ trim v = v /\ allChars isValueChar v = true.
Proof.
  unfold plainValue. intros H.
  apply andb_prop in H as [H Hchars]. apply andb_prop in H as [Hne Htrim].
  apply negb_true_iff in Hne. apply String.eqb_eq in Htrim.
  repeat split; try assumption. intros ->. discriminate Hne.
Qed.

(** *** The matcher on one declaration *)

(** A greedy repetition takes a whole run when the continuation accepts what
    follows the run. *)
Lemma rep_greedy_run {R} min cls (k : string -> string -> option R) (w : string) :
  forall s' taken n r,
    allChars cls w = true ->
    match s' with String c _ => cls c = false | EmptyString => True end ->
    (min <= n + String.length w)%nat ->
    k (taken +:+ w) s' = Some r ->
    Regex.rep Regex.Greedy min cls k (w +:+ s') taken n = Some r.
Proof.
  induction w as [|c w IH]; intros s' taken n r Hw Hs' Hmin Hk.
  - simpl String.append. rewrite append_nil_r in Hk. simpl in Hmin.
    assert (Hle : (min <=? n)%nat = true) by (apply Nat.leb_le; lia).
    destruct s' as [|d s'].
    + now rewrite rep_nil, Hle.
    + rewrite rep_cons. cbv zeta. now rewrite Hs', Hle.
  - simpl in Hw. apply andb_prop in Hw as [Hc Hw].
    simpl String.append. rewrite rep_cons. cbv zeta. rewrite Hc.
    rewrite (IH s' (taken +:+ String c EmptyString) (S n) r); try assumption.
    + reflexivity.
    + simpl in Hmin. lia.
    + now rewrite append_assoc.
Qed.

(** Optional white space and a semicolon do not match inside a value. *)
Lemma semicolon_not_in_value (caps : list string) (v : string) :
  forall rest taken n,
    v <> EmptyString -> trimEnd v = v -> allChars isValueChar v = true ->
    Regex.rep Regex.Greedy 0 isWhiteSpace
      (fun _ r => Regex.matchHere [Regex.Lit ";"] r caps)
      (v +:+ String ";" rest) taken n = None.
Proof.
  induction v as [|c v IH]; intros rest taken n Hne Hend Hchars; [contradiction|].
  simpl in Hchars. apply andb_prop in Hchars as [Hc Hv].
  unfold isValueChar in Hc. apply andb_prop in Hc as [_ Hsemi].
  apply negb_true_iff in Hsemi. rewrite Ascii.eqb_sym in Hsemi.
  simpl String.append. rewrite rep_cons. cbv zeta. simpl Nat.leb. cbv iota.
  rewrite matchHere_lit, Hsemi.
  destruct (isWhiteSpace c) eqn:Hws; [|reflexivity].
  destruct v as [|d v].
  - apply trimEnd_single in Hend. congruence.
  - rewrite IH; [reflexivity | discriminate | | assumption].
    apply (trimEnd_tail c); [assumption | discriminate].
Qed.

(** The lazy repetition of group 2 takes the whole value. *)
Lemma lazy_takes_value (caps : list string) (v : string) :
  forall rest taken n,
    (v = EmptyString /\ (1 <= n)%nat) \/ (v <> EmptyString /\ trimEnd v = v) ->
    allChars isValueChar v = true ->
    Regex.rep Regex.Lazy 1 anyButLineTerminator
      (fun taken' r =>
         Regex.matchHere [Regex.Rep Regex.Greedy 0 isWhiteSpace false; Regex.Lit ";"]
           r (caps ++ [taken'])%list)
      (v +:+ String ";" rest) taken n
    = Some ((caps ++ [taken +:+ v])%list, rest).
Proof.
  induction v as [|c v IH]; intros rest taken n Hshape Hchars.
  - destruct Hshape as [[_ Hn]|[Hne _]]; [|contradiction].
    simpl String.append. rewrite rep_cons. cbv zeta.
    assert (Hle : (1 <=? n)%nat = true) by (apply Nat.leb_le; lia).
    rewrite Hle. change (anyButLineTerminator ";") with true. cbv iota.
    rewrite matchHere_rep, rep_cons. cbv zeta.
    change (isWhiteSpace ";") with false. cbv iota. simpl Nat.leb. cbv iota.
    rewrite matchHere_lit, Ascii.eqb_refl. simpl.
    now rewrite append_nil_r.
  - destruct Hshape as [[Hnil _]|[_ Hend]]; [discriminate Hnil|].
    pose proof Hchars as Hall.
    simpl in Hchars. apply andb_prop in Hchars as [Hc Hv].
    pose proof Hc as Hc'. unfold isValueChar in Hc'. apply andb_prop in Hc' as [Hdot _].
    simpl String.append. rewrite rep_cons. cbv zeta. rewrite Hdot.
    assert (Hstop : (if (1 <=? n)%nat
                     then Regex.matchHere
                            [Regex.Rep Regex.Greedy 0 isWhiteSpace false; Regex.Lit ";"]
                            (String c (v +:+ String ";" rest)) (caps ++ [taken])%list
                     else None) = None).
    { destruct (1 <=? n)%nat; [|reflexivity].
      rewrite matchHere_rep.
      apply (semicolon_not_in_value _ (String c v)); [discriminate | assumption | assumption]. }
    rewrite Hstop. simpl Regex.orElse.
    rewrite IH; [now rewrite append_assoc | | assumption].
    destruct v as [|d v]; [left; split; [reflexivity | lia]|].
    right. split; [discriminate|].
    apply (trimEnd_tail c); [assumption | discriminate].
Qed.

(** The expression matches a declaration written by [tokensToCss] and
    captures its name and its value. *)
Lemma declaration_matches (name v rest : string) :
  name <> EmptyString -> allChars isWordOrDash name = true ->
  plainValue v = true ->
  Regex.matchHere TOKEN_DECLARATION_RE
    ("--" +:+ name +:+ ": " +:+ v +:+ ";" +:+ rest) []
  = Some ([name; v], rest).
Proof.
  intros Hname Hword Hplain.
  destruct (plainValue_spec _ Hplain) as (Hne & Htrim & Hchars).
  destruct (trim_fixed _ Hne Htrim) as (Hend & c & v' & Hv & Hc).
  unfold TOKEN_DECLARATION_RE.
  change ("--" +:+ name +:+ ": " +:+ v +:+ ";" +:+ rest)
    with (String "-" (String "-" (name +:+ String ":" (String " " (v +:+ String ";" rest))))).
  rewrite !matchHere_lit, !Ascii.eqb_refl.
  rewrite matchHere_rep.
  apply rep_greedy_run; [assumption | reflexivity | | ].
  { destruct name; [contradiction | simpl; lia]. }
  simpl String.append. simpl app.
  rewrite matchHere_rep, rep_cons. cbv zeta.
  change (isWhiteSpace ":") with false. cbv iota. simpl Nat.leb. cbv iota.
  rewrite matchHere_lit, Ascii.eqb_refl.
  rewrite matchHere_rep.
  change (String " " (v +:+ String ";" rest))
    with (" " +:+ (v +:+ String ";" rest)).
  apply rep_greedy_run; [reflexivity | | simpl; lia | ].
  { rewrite Hv. simpl. exact Hc. }
  simpl String.append.
  rewrite matchHere_rep.
  rewrite (lazy_takes_value [name] v rest EmptyString 0);
    [reflexivity | right; now split | assumption].
Qed.

(** *** The loop over the serialized text *)

Lemma search_unfold (r : Regex.regex) (s : string) :
  Regex.search r s
  = match Regex.matchHere r s [] with
    | Some m => Some m
    | None =>
        match s with
        | String _ s' => Regex.search r s'
        | EmptyString => None
        end
    end.
Proof. destruct s; reflexivity. Qed.

Lemma search_skip (c : ascii) (s : string) :
  Ascii.eqb "-" c = false ->
  Regex.search TOKEN_DECLARATION_RE (String c s)
  = Regex.search TOKEN_DECLARATION_RE s.
Proof.
  intros Hc. rewrite search_unfold. unfold TOKEN_DECLARATION_RE at 1.
  now rewrite matchHere_lit, Hc.
Qed.

Lemma search_found (s : string) (m : Regex.found) :
  Regex.matchHere TOKEN_DECLARATION_RE s [] = Some m ->
  Regex.search TOKEN_DECLARATION_RE s = Some m.
Proof. intros H. now rewrite search_unfold, H. Qed.

Lemma execLoop_step (fuel : nat) (css : string) result :
  execLoop (S fuel) css result
  = match Regex.search TOKEN_DECLARATION_RE css with
    | None => result
    | Some (captures, rest) => execLoop fuel rest (recordMatch result captures)
    end.
Proof. reflexivity. Qed.

Lemma execLoop_skip (fuel : nat) (c : ascii) (s : string) result :
  Ascii.eqb "-" c = false ->
  execLoop fuel (String c s) result = execLoop fuel s result.
Proof.
  intros Hc. destruct fuel as [|fuel]; [reflexivity|].
  now rewrite !execLoop_step, search_skip.
Qed.

Lemma key_names (key : TokenKey) :
  TOKEN_TO_VAR key = "--" +:+ varStem key
  /\ varStem key <> EmptyString
  /\ allChars isWordOrDash (varStem key) = true
  /\ varToToken !! ("--" +:+ varStem key) = Some key.
Proof. destruct key; vm_compute; repeat split; discriminate. Qed.

(** One round of the loop on the line of a key. *)
Lemma execLoop_line (tokens : SlideTokens) (key : TokenKey) (rest : string)
    (fuel : nat) result :
  plainValue (tokens key) = true ->
  execLoop (S fuel) (declarationLine tokens key +:+ rest) result
  = execLoop fuel rest (setToken result key (tokens key)).
Proof.
  intros Hplain.
  destruct (key_names key) as (Hvar & Hne & Hword & Hlookup).
  assert (Hfound : Regex.search TOKEN_DECLARATION_RE
                     (declarationLine tokens key +:+ rest)
                   = Some ([varStem key; tokens key], rest)).
  { unfold declarationLine. rewrite Hvar.
    change (("  " +:+ ("--" +:+ varStem key) +:+ ": " +:+ tokens key +:+ ";") +:+ rest)
      with (String " " (String " "
              ((("--" +:+ varStem key) +:+ ": " +:+ tokens key +:+ ";") +:+ rest))).
    rewrite !search_skip by reflexivity.
    apply search_found.
    etransitivity;
      [|exact (declaration_matches (varStem key) (tokens key) rest Hne Hword Hplain)].
    now rewrite !append_assoc. }
  rewrite execLoop_step, Hfound. unfold recordMatch. now rewrite Hlookup.
Qed.

Lemma execLoop_closing (fuel : nat) result :
  execLoop fuel (LF +:+ "}" +:+ LF) result = result.
Proof. destruct fuel; reflexivity. Qed.

Lemma declarationsFrom_cons (tokens : SlideTokens) (key : TokenKey)
    (keys : list TokenKey) :
  declarationsFrom tokens (key :: keys)
  = declarationLine tokens key
    +:+ match keys with
        | [] => LF +:+ "}" +:+ LF
        | _ :: _ => LF +:+ declarationsFrom tokens keys
        end.
Proof.
  unfold declarationsFrom. destruct keys as [|next keys]; [reflexivity|].
  change (joinLines (map (declarationLine tokens) (key :: next :: keys)))
    with (declarationLine tokens key
          +:+ String "010" (joinLines (map (declarationLine tokens) (next :: keys)))).
  now rewrite append_assoc.
Qed.

Lemma execLoop_declarations (tokens : SlideTokens) (keys : list TokenKey) :
  (forall key, plainValue (tokens key) = true) ->
  forall fuel result,
    (length keys < fuel)%nat ->
    execLoop fuel (declarationsFrom tokens keys) result
    = fold_left (fun r key => setToken r key (tokens key)) keys result.
Proof.
  intros Hplain. induction keys as [|key keys IH]; intros fuel result Hfuel.
  - apply execLoop_closing.
  - destruct fuel as [|fuel]; [simpl in Hfuel; lia|].
    rewrite declarationsFrom_cons, execLoop_line by apply Hplain.
    simpl fold_left. destruct keys as [|next keys].
    + apply execLoop_closing.
    + unfold LF at 1. simpl String.append. rewrite execLoop_skip by reflexivity.
      apply IH. simpl in *. lia.
Qed.

Lemma declarationsFrom_length (tokens : SlideTokens) (keys : list TokenKey) :
  (length keys <= String.length (declarationsFrom tokens keys))%nat.
Proof.
  induction keys as [|key keys IH]; [simpl; lia|].
  rewrite declarationsFrom_cons, length_append.
  assert (1 <= String.length (declarationLine tokens key))%nat
    by (unfold declarationLine; simpl; lia).
  destruct keys as [|next keys]; [simpl; lia|].
  rewrite length_append. simpl in *. lia.
Qed.

Lemma fold_setToken (tokens : SlideTokens) (keys : list TokenKey) :
  forall result key,
    (In key keys ->
     fold_left (fun r k => setToken r k (tokens k)) keys result key = Some (tokens key))
    /\ (~ In key keys ->
        fold_left (fun r k => setToken r k (tokens k)) keys result key = result key).
Proof.
  induction keys as [|k keys IH]; intros result key; simpl.
  - split; [contradiction | reflexivity].
  - destruct (IH (setToken result k (tokens k)) key) as [Hin Hout].
    destruct (in_dec TokenKey_eq_dec key keys) as [Hk|Hk].
    + split; intros; [now apply Hin | tauto].
    + split.
      * intros [->|H]; [|contradiction]. rewrite (Hout Hk). unfold setToken.
        destruct (TokenKey_eq_dec key key); [reflexivity | contradiction].
      * intros Hnot. rewrite (Hout Hk). unfold setToken.
        destruct (TokenKey_eq_dec k key); [tauto | reflexivity].
Qed.

Lemma tokenKeys_complete (key : TokenKey) : In key tokenKeys.
Proof. destruct key; simpl; tauto. Qed.

(** *** The loop ends before its fuel does *)

Lemma rep_consumes {R} (size : R -> nat) q min cls
    (k : string -> string -> option R) :
  (forall taken rest m, k taken rest = Some m -> (size m <= String.length rest)%nat) ->
  forall s taken n m,
    Regex.rep q min cls k s taken n = Some m -> (size m <= String.length s)%nat.
Proof.
  intros Hk. induction s as [|c s IH]; intros taken n m H.
  - rewrite rep_nil in H. destruct (min <=? n)%nat; [|discriminate H].
    now apply Hk in H.
  - rewrite rep_cons in H. cbv zeta in H.
    assert (Hstop : forall m',
               (if (min <=? n)%nat then k taken (String c s) else None) = Some m' ->
               (size m' <= String.length (String c s))%nat).
    { intros m' Hm'. destruct (min <=? n)%nat; [|discriminate Hm'].
      now apply Hk in Hm'. }
    assert (Hmore : forall m',
               Regex.rep q min cls k s (taken +:+ String c EmptyString) (S n) = Some m' ->
               (size m' <= String.length (String c s))%nat).
    { intros m' Hm'. apply IH in Hm'. simpl. lia. }
    destruct (cls c); [|now apply Hstop].
    destruct q.
    + destruct (Regex.rep Regex.Greedy min cls k s _ (S n)) as [m'|] eqn:E.
      * simpl in H. injection H as <-. now apply Hmore.
      * now apply Hstop.
    + destruct (if (min <=? n)%nat then k taken (String c s) else None) as [m'|] eqn:E.
      * simpl in H. injection H as <-. now apply Hstop.
      * now apply Hmore.
Qed.

Lemma matchHere_consumes (r : Regex.regex) :
  forall s caps m,
    Regex.matchHere r s caps = Some m ->
    (String.length (snd m) + length (filter (fun p => match p with
                                                    | Regex.Lit _ => true
                                                    | _ => false
                                                    end) r)
     <= String.length s)%nat.
Proof.
  induction r as [|p r IH]; intros s caps m H.
  - simpl in H. injection H as <-. simpl. lia.
  - destruct p as [c| |q min cls captured].
    + rewrite matchHere_lit in H. destruct s as [|d s]; [discriminate H|].
      destruct (Ascii.eqb c d); [|discriminate H].
      apply IH in H. simpl. lia.
    + simpl in H. destruct s; [|discriminate H]. apply IH in H. simpl in *. lia.
    + rewrite matchHere_rep in H. simpl filter.
      apply (rep_consumes
               (fun m => (String.length (snd m)
                          + length (filter (fun p => match p with
                                                     | Regex.Lit _ => true
                                                     | _ => false
                                                     end) r))%nat))
        in H; [exact H|].
      intros taken rest m' Hm'. now apply IH in Hm'.
Qed.

Lemma search_consumes (s : string) (m : Regex.found) :
  Regex.search TOKEN_DECLARATION_RE s = Some m ->
  (String.length (snd m) < String.length s)%nat.
Proof.
  induction s as [|c s IH]; rewrite search_unfold;
    destruct (Regex.matchHere TOKEN_DECLARATION_RE _ []) as [m'|] eqn:E;
    intros H; try discriminate H.
  - injection H as <-. apply matchHere_consumes in E. simpl in E. lia.
  - injection H as <-. apply matchHere_consumes in E. simpl in E. simpl. lia.
  - apply IH in H. simpl. lia.
Qed.

(** With the fuel that [parseCssToTokens] gives it, or with more, the loop
    stops because no further match is found. *)
Lemma execLoop_fuel (fuel fuel' : nat) :
  forall css result,
    (String.length css < fuel)%nat -> (String.length css < fuel')%nat ->
    execLoop fuel css result = execLoop fuel' css result.
Proof.
  revert fuel'; induction fuel as [|fuel IH]; intros fuel' css result H H'; [lia|].
  destruct fuel' as [|fuel']; [lia|].
  rewrite !execLoop_step.
  destruct (Regex.search TOKEN_DECLARATION_RE css) as [[captures rest]|] eqn:E;
    [|reflexivity].
  apply search_consumes in E. simpl in E.
  apply IH; lia.
Qed.

(** C9, as the claim states it, fails: a value with a semicolon comes back cut
    at the semicolon, a value with white space at an end comes back trimmed,
    and the empty value comes back as a space. *)
Lemma css_round_trip_fails :
  (parseCssToTokens (tokensToCss (updateToken DEFAULT_TOKENS slideBg "a;b")) slideBg
   = Some "a"
   /\ parseCssToTokens (tokensToCss (updateToken DEFAULT_TOKENS slideBg "a;b")) slideBg
      <> Some (updateToken DEFAULT_TOKENS slideBg "a;b" slideBg))
  /\ (parseCssToTokens (tokensToCss (updateToken DEFAULT_TOKENS slideBg " red")) slideBg
      = Some "red"
      /\ parseCssToTokens (tokensToCss (updateToken DEFAULT_TOKENS slideBg " red")) slideBg
         <> Some (updateToken DEFAULT_TOKENS slideBg " red" slideBg))
  /\ (parseCssToTokens (tokensToCss (updateToken DEFAULT_TOKENS slideBg "")) slideBg
      = Some " "
      /\ parseCssToTokens (tokensToCss (updateToken DEFAULT_TOKENS slideBg "")) slideBg
         <> Some (updateToken DEFAULT_TOKENS slideBg "" slideBg)).
Proof. vm_compute. repeat split; discriminate. Qed.

(** C9, amended. For every token record whose values are plain (not empty,
    no white space at either end, on one line, no semicolon), parsing the
    serialized CSS gives back every field; and merging the parsed fields over
    the defaults gives back the record. *)
Theorem css_round_trip_on_plain_values (tokens : SlideTokens) :
  (forall key, plainValue (tokens key) = true) ->
  (forall key, parseCssToTokens (tokensToCss tokens) key = Some (tokens key))
  /\ (forall key, withDefaults (parseCssToTokens (tokensToCss tokens)) key = tokens key).
Proof.
  intros Hplain.
  assert (Hparse : forall key,
             parseCssToTokens (tokensToCss tokens) key = Some (tokens key)).
  { intros key. unfold parseCssToTokens.
    assert (Hcss : tokensToCss tokens
                   = ":root {" +:+ LF +:+ declarationsFrom tokens tokenKeys)
      by reflexivity.
    rewrite Hcss.
    remember (S (String.length (":root {" +:+ LF +:+ declarationsFrom tokens tokenKeys)))
      as fuel eqn:Hfuel.
    assert (Hbig : (length tokenKeys < fuel)%nat).
    { subst fuel. rewrite length_append, length_append.
      pose proof (declarationsFrom_length tokens tokenKeys). simpl in *. lia. }
    change (":root {" +:+ LF +:+ declarationsFrom tokens tokenKeys)
      with (String ":" (String "r" (String "o" (String "o" (String "t" (String " "
              (String "{" (String "010" (declarationsFrom tokens tokenKeys))))))))).
    rewrite !execLoop_skip by reflexivity.
    rewrite (execLoop_declarations tokens tokenKeys Hplain fuel _ Hbig).
    apply fold_setToken, tokenKeys_complete. }
  split; [exact Hparse|].
  intros key. unfold withDefaults. now rewrite Hparse.
Qed.

Lemma default_tokens_plain (key : TokenKey) : plainValue (DEFAULT_TOKENS key) = true.
Proof. destruct key; reflexivity. Qed.

Lemma css_round_trip_on_plain_values_witness :
  (forall key, plainValue (DEFAULT_TOKENS key) = true)
  /\ parseCssToTokens (tokensToCss DEFAULT_TOKENS) slideFontFamily
     = Some (DQ +:+ "Inter" +:+ DQ +:+ ", system-ui, sans-serif").
Proof.
  split; [exact default_tokens_plain|].
  exact (proj1 (css_round_trip_on_plain_values DEFAULT_TOKENS default_tokens_plain)
           slideFontFamily).
Defined.

End TokensProps.

(** ** More on trimming *)

Module TrimFacts.
Import JsStringFacts.

Lemma trimEnd_cons (c : ascii) (s : string) :
  trimEnd (String c s)
  = match trimEnd s with
    | EmptyString => if isWhiteSpace c then EmptyString else String c EmptyString
    | t => String c t
    end.
Proof. reflexivity. Qed.

Lemma trimStart_blank_prefix (w s : string) :
  allChars isWhiteSpace w = true -> trimStart (w +:+ s) = trimStart s.
Proof.
  induction w as [|c w IH]; simpl; [reflexivity|].
  intros H. apply andb_true_iff in H as [Hc Hw]. rewrite Hc. now apply IH.
Qed.

Lemma trimEnd_blank (w : string) :
  allChars isWhiteSpace w = true -> trimEnd w = EmptyString.
Proof.
  induction w as [|c w IH]; [reflexivity|].
  simpl allChars. intros H. apply andb_true_iff in H as [Hc Hw].
  rewrite trimEnd_cons, (IH Hw), Hc. reflexivity.
Qed.

Lemma trimEnd_blank_suffix (s w : string) :
  allChars isWhiteSpace w = true -> trimEnd (s +:+ w) = trimEnd s.
Proof.
  intros Hw. induction s as [|c s IH].
  - simpl. now apply trimEnd_blank.
  - change (String c s +:+ w) with (String c (s +:+ w)).
    rewrite !trimEnd_cons, IH. reflexivity.
Qed.

Lemma trimEnd_idempotent (s : string) : trimEnd (trimEnd s) = trimEnd s.
Proof.
  induction s as [|c s IH]; [reflexivity|].
  rewrite trimEnd_cons. destruct (trimEnd s) as [|a t] eqn:E.
  - destruct (isWhiteSpace c) eqn:Hc; [reflexivity|].
    rewrite trimEnd_cons. simpl trimEnd. now rewrite Hc.
  - rewrite trimEnd_cons, IH. reflexivity.
Qed.

(** What [trimStart] returns is empty or starts with a character that is
    not white space. *)
Lemma trimStart_shape (s : string) :
  trimStart s = EmptyString
  \/ exists c t, trimStart s = String c t /\ isWhiteSpace c = false.
Proof.
  induction s as [|c s IH]; [now left|].
  simpl. destruct (isWhiteSpace c) eqn:Hc; [exact IH|].
  right. now exists c, s.
Qed.

Lemma trimStart_blank (w : string) :
  allChars isWhiteSpace w = true -> trimStart w = EmptyString.
Proof.
  induction w as [|c w IH]; [reflexivity|].
  simpl. intros H. apply andb_true_iff in H as [Hc Hw]. rewrite Hc. now apply IH.
Qed.

(** [trimEnd] keeps the first character of a text that starts with a
    character that is not white space. *)
Lemma trimEnd_head (c : ascii) (t : string) :
  isWhiteSpace c = false -> exists t', trimEnd (String c t) = String c t'.
Proof.
  intros Hc. rewrite trimEnd_cons. destruct (trimEnd t) as [|a t'].
  - rewrite Hc. now exists EmptyString.
  - now exists (String a t').
Qed.

Lemma trim_idempotent (s : string) : trim (trim s) = trim s.
Proof.
  unfold trim. destruct (trimStart_shape s) as [E | (c & t & E & Hc)]; rewrite E.
  - reflexivity.
  - destruct (trimEnd_head c t Hc) as [t' Ht']. rewrite Ht' at 1.
    rewrite (trimStart_nonspace _ _ Hc), <- Ht'. apply trimEnd_idempotent.
Qed.

(** White space around a text does not change what [trim] returns. *)
Lemma trim_padded (lead s trail : string) :
  allChars isWhiteSpace lead = true -> allChars isWhiteSpace trail = true ->
  trim (lead +:+ s +:+ trail) = trim s.
Proof.
  intros Hl Ht. unfold trim. rewrite (trimStart_blank_prefix _ _ Hl).
  assert (H : forall x, trimEnd (trimStart (x +:+ trail)) = trimEnd (trimStart x)).
  { induction x as [|c x IH].
    - simpl. now rewrite (trimStart_blank _ Ht).
    - change (String c x +:+ trail) with (String c (x +:+ trail)). simpl.
      destruct (isWhiteSpace c); [exact IH|].
      change (String c (x +:+ trail)) with (String c x +:+ trail).
      now apply trimEnd_blank_suffix. }
  apply H.
Qed.

Lemma allChars_trimStart (P : ascii -> bool) (s : string) :
  allChars P s = true -> allChars P (trimStart s) = true.
Proof.
  induction s as [|c s IH]; [reflexivity|].
  intros H. simpl. destruct (isWhiteSpace c); [|exact H].
  simpl in H. apply andb_true_iff in H as [_ H]. now apply IH.
Qed.

Lemma allChars_trimEnd (P : ascii -> bool) (s : string) :
  allChars P s = true -> allChars P (trimEnd s) = true.
Proof.
  induction s as [|c s IH]; [reflexivity|].
  intros H. simpl in H. apply andb_true_iff in H as [Hc Hs].
  rewrite trimEnd_cons. specialize (IH Hs). destruct (trimEnd s) as [|a t].
  - destruct (isWhiteSpace c); [reflexivity|]. simpl. now rewrite Hc.
  - simpl. simpl in IH. now rewrite Hc, IH.
Qed.

Lemma allChars_trim (P : ascii -> bool) (s : string) :
  allChars P s = true -> allChars P (trim s) = true.
Proof. intros H. unfold trim. now apply allChars_trimEnd, allChars_trimStart. Qed.

(** A text without white space is what [trim] returns for it. *)
Lemma trimEnd_black (s : string) :
  allChars (fun c => negb (isWhiteSpace c)) s = true -> trimEnd s = s.
Proof.
  induction s as [|c s IH]; [reflexivity|].
  simpl allChars. intros H. apply andb_true_iff in H as [Hc Hs].
  rewrite trimEnd_cons, (IH Hs). apply negb_true_iff in Hc.
  destruct s; [now rewrite Hc | reflexivity].
Qed.

Lemma trim_black (s : string) :
  allChars (fun c => negb (isWhiteSpace c)) s = true -> trim s = s.
Proof.
  intros H. unfold trim. destruct s as [|c s]; [reflexivity|].
  assert (Hc : isWhiteSpace c = false).
  { simpl in H. apply andb_true_iff in H as [Hc _]. now apply negb_true_iff in Hc. }
  rewrite (trimStart_nonspace _ _ Hc). now apply trimEnd_black.
Qed.

(** A text that ends with a trimmed, non-empty text is trimmed at its end. *)
Lemma trimEnd_append_fixed (a b : string) :
  b <> EmptyString -> trimEnd b = b -> trimEnd (a +:+ b) = a +:+ b.
Proof.
  intros Hb Hfix. induction a as [|c a IH]; [exact Hfix|].
  change (String c a +:+ b) with (String c (a +:+ b)).
  rewrite trimEnd_cons, IH.
  destruct (a +:+ b) eqn:E; [|reflexivity].
  destruct a; simpl in E; [congruence | discriminate].
Qed.

End TrimFacts.

(** ** Metadata block of a deck source *)

Module DeckSourceProps.
Import JsStringFacts SplitFacts TrimFacts DeckSource.

Example frontmatter_samples :
  stripFrontmatter ("---" +:+ LF +:+ "title: Talk" +:+ LF +:+ "---" +:+ LF +:+ "# One")
  = "# One"
  /\ stripFrontmatter ("---" +:+ LF +:+ "---" +:+ LF +:+ "# One")
     = "---" +:+ LF +:+ "---" +:+ LF +:+ "# One"
  /\ stripFrontmatter ("---" +:+ LF +:+ "title: Talk" +:+ LF +:+ "--- # One")
     = "---" +:+ LF +:+ "title: Talk" +:+ LF +:+ "--- # One"
  /\ normalizeDeckSource ("---" +:+ LF +:+ "title: Talk" +:+ LF +:+ "---  ") = EmptyString.
Proof. repeat split. Qed.

Lemma afterLiteral_startsWith (p s : string) :
  startsWith s p = false -> afterLiteral p s = None.
Proof.
  revert s. induction p as [|b p IH]; intros s; simpl; [discriminate|].
  destruct s as [|a s]; [reflexivity|].
  destruct (Ascii.eqb a b); simpl; [apply IH | reflexivity].
Qed.

Lemma afterLiteral_append (p rest : string) : afterLiteral p (p +:+ rest) = Some rest.
Proof.
  induction p as [|b p IH]; simpl; [reflexivity|].
  now rewrite Ascii.eqb_refl.
Qed.

Lemma afterLiteral_suffix (p s rest : string) :
  afterLiteral p s = Some rest -> s = p +:+ rest.
Proof.
  revert s. induction p as [|b p IH]; intros s; simpl.
  - congruence.
  - destruct s as [|a s]; [discriminate|].
    destruct (Ascii.eqb_spec a b) as [->|]; [|discriminate].
    intros H. now rewrite (IH _ H).
Qed.

(** *** Nothing is removed without a closing fence *)

Lemma occursIn_cons (needle : string) (c : ascii) (s : string) :
  occursIn needle (String c s) = false ->
  startsWith (String c s) needle = false /\ occursIn needle s = false.
Proof. simpl. intros H. now apply orb_false_iff in H. Qed.

Lemma occursIn_head (needle s : string) :
  occursIn needle s = false -> startsWith s needle = false.
Proof.
  destruct s; simpl; intros H; now apply orb_false_iff in H as [H' _].
Qed.

Lemma occursIn_suffix (needle pre s : string) :
  occursIn needle (pre +:+ s) = false -> occursIn needle s = false.
Proof.
  induction pre as [|c pre IH]; [trivial|].
  change (String c pre +:+ s) with (String c (pre +:+ s)).
  intros H. apply occursIn_cons in H as [_ H]. now apply IH.
Qed.

Lemma closingFence_absent (rest : string) :
  startsWith rest (LF +:+ "---") = false -> closingFence rest = None.
Proof. intros H. unfold closingFence. now rewrite (afterLiteral_startsWith _ _ H). Qed.

Lemma lazy_body_unclosed (body : string) :
  forall taken n,
    occursIn (LF +:+ "---") body = false ->
    Regex.rep Regex.Lazy 0 anyChar (fun _ rest' => closingFence rest') body taken n = None.
Proof.
  induction body as [|c body IH]; intros taken n H.
  - rewrite rep_nil. simpl Nat.leb. cbv iota. reflexivity.
  - apply occursIn_cons in H as [Hhere Hlater].
    rewrite rep_cons. simpl Nat.leb. cbv zeta iota.
    rewrite (closingFence_absent _ Hhere). unfold anyChar at 1. simpl Regex.orElse.
    now apply IH.
Qed.

(** A repetition fails when its continuation fails on every suffix of the
    input. *)
Lemma rep_fails {R} q min cls (k : string -> string -> option R) (s : string) :
  (forall taken pre rest, s = pre +:+ rest -> k taken rest = None) ->
  forall taken n, Regex.rep q min cls k s taken n = None.
Proof.
  induction s as [|c s IH]; intros Hk taken n.
  - rewrite rep_nil. rewrite (Hk taken EmptyString EmptyString eq_refl).
    now destruct (min <=? n)%nat.
  - rewrite rep_cons. cbv zeta.
    rewrite (Hk taken EmptyString (String c s) eq_refl).
    assert (IH' : forall taken n, Regex.rep q min cls k s taken n = None).
    { apply IH. intros taken' pre rest E. apply (Hk taken' (String c pre) rest).
      simpl. now rewrite E. }
    rewrite IH'. destruct (min <=? n)%nat, (cls c), q; reflexivity.
Qed.

Lemma unclosed_unmatched (source : string) :
  occursIn (LF +:+ "---") source = false -> matchFrontmatter source = None.
Proof.
  intros H. unfold matchFrontmatter.
  destruct (afterLiteral "---" source) as [afterDashes|] eqn:E; [|reflexivity].
  apply afterLiteral_suffix in E. subst source.
  apply occursIn_suffix in H.
  apply rep_fails. intros taken pre rest Hsplit.
  destruct (afterLiteral LF rest) as [body|] eqn:Ebody; [|reflexivity].
  apply afterLiteral_suffix in Ebody. subst rest afterDashes.
  apply lazy_body_unclosed.
  apply (occursIn_suffix _ LF), (occursIn_suffix _ pre). exact H.
Qed.

(** *** What is removed is a prefix *)

Lemma rep_leaves_suffix q min cls (k : string -> string -> option string) :
  (forall taken rest out, k taken rest = Some out -> exists pre, rest = pre +:+ out) ->
  forall s taken n out,
    Regex.rep q min cls k s taken n = Some out -> exists pre, s = pre +:+ out.
Proof.
  intros Hk. induction s as [|c s IH]; intros taken n out.
  - rewrite rep_nil. destruct (min <=? n)%nat; [apply Hk | discriminate].
  - rewrite rep_cons. cbv zeta.
    assert (Hstop : (if (min <=? n)%nat then k taken (String c s) else None) = Some out ->
                    exists pre, String c s = pre +:+ out).
    { destruct (min <=? n)%nat; [apply Hk | discriminate]. }
    assert (Hmore : Regex.rep q min cls k s (taken +:+ String c EmptyString) (S n) = Some out ->
                    exists pre, String c s = pre +:+ out).
    { intros H. destruct (IH _ _ _ H) as [pre ->]. now exists (String c pre). }
    destruct (cls c); [|exact Hstop].
    destruct q; unfold Regex.orElse.
    + destruct (Regex.rep Regex.Greedy min cls k s _ _) eqn:E; [|exact Hstop].
      intros H. apply Hmore. congruence.
    + destruct (if (min <=? n)%nat then k taken (String c s) else None) eqn:E;
        [|exact Hmore].
      intros H. apply Hstop. congruence.
Qed.

Lemma lineFeedOrEnd_suffix (rest out : string) :
  lineFeedOrEnd rest = Some out -> exists pre, rest = pre +:+ out.
Proof.
  destruct rest as [|c rest]; simpl.
  - intros [= <-]. now exists EmptyString.
  - destruct (Ascii.eqb c "010"); [|discriminate].
    intros [= <-]. now exists (String c EmptyString).
Qed.

Lemma closingFence_suffix (rest out : string) :
  closingFence rest = Some out -> exists pre, rest = pre +:+ out.
Proof.
  unfold closingFence.
  destruct (afterLiteral (LF +:+ "---") rest) as [afterDashes|] eqn:E; [|discriminate].
  apply afterLiteral_suffix in E. subst rest. intros H.
  apply rep_leaves_suffix in H as [pre ->].
  - exists ((LF +:+ "---") +:+ pre). now rewrite append_assoc.
  - intros _ r o. apply lineFeedOrEnd_suffix.
Qed.

Lemma matchFrontmatter_suffix (source out : string) :
  matchFrontmatter source = Some out ->
  exists pre, source = "---" +:+ pre +:+ out.
Proof.
  unfold matchFrontmatter.
  destruct (afterLiteral "---" source) as [afterDashes|] eqn:E; [|discriminate].
  apply afterLiteral_suffix in E. subst source. intros H.
  apply rep_leaves_suffix in H as [pre ->]; [now exists pre|].
  intros _ rest o.
  destruct (afterLiteral LF rest) as [body|] eqn:Ebody; [|discriminate].
  apply afterLiteral_suffix in Ebody. subst rest. intros Hbody.
  apply rep_leaves_suffix in Hbody as [pre' ->].
  - exists (LF +:+ pre'). now rewrite append_assoc.
  - intros _ r o'. apply closingFence_suffix.
Qed.

(** X6. [stripFrontmatter] only ever removes a prefix that starts with three
    dashes, and it returns the text unchanged when the text does not start
    with three dashes or when no line feed in it is followed by three
    dashes. *)
Theorem frontmatter_needs_both_fences (source : string) :
  (startsWith source "---" = false \/ occursIn (LF +:+ "---") source = false ->
   stripFrontmatter source = source)
  /\ (stripFrontmatter source = source
      \/ exists pre, source = "---" +:+ pre +:+ stripFrontmatter source).
Proof.
  unfold stripFrontmatter. split.
  - intros [H | H].
    + unfold matchFrontmatter. now rewrite (afterLiteral_startsWith _ _ H).
    + now rewrite (unclosed_unmatched _ H).
  - destruct (matchFrontmatter source) as [out|] eqn:E; [|now left].
    right. now apply matchFrontmatter_suffix.
Qed.

Lemma frontmatter_needs_both_fences_witness :
  occursIn (LF +:+ "---") ("--- draft" +:+ LF +:+ "# One") = false
  /\ stripFrontmatter ("--- draft" +:+ LF +:+ "# One") = "--- draft" +:+ LF +:+ "# One".
Proof.
  split; [reflexivity|].
  apply (proj1 (frontmatter_needs_both_fences ("--- draft" +:+ LF +:+ "# One"))).
  right. reflexivity.
Defined.


(** *** A closed metadata block is removed *)

Lemma no_fence_across (m tail : string) :
  m <> EmptyString -> startsWith m (LF +:+ "---") = false ->
  startsWith (m +:+ LF +:+ tail) (LF +:+ "---") = false.
Proof.
  intros Hm H.
  destruct m as [|c [|d [|e [|f m]]]]; try congruence; simpl in *;
    repeat (match goal with
            | |- context [Ascii.eqb ?x ?y] => destruct (Ascii.eqb x y)
            end; simpl in *; try reflexivity; try discriminate).
Qed.

Lemma lazy_body_closed (meta tail out : string) :
  occursIn (LF +:+ "---") meta = false ->
  closingFence (LF +:+ tail) = Some out ->
  forall taken n,
    Regex.rep Regex.Lazy 0 anyChar (fun _ rest' => closingFence rest')
      (meta +:+ LF +:+ tail) taken n = Some out.
Proof.
  intros Hmeta Hclose. induction meta as [|c meta IH]; intros taken n.
  - change (EmptyString +:+ LF +:+ tail) with (String "010" tail).
    rewrite rep_cons. simpl Nat.leb. cbv zeta iota.
    change (String "010" tail) with (LF +:+ tail). rewrite Hclose. reflexivity.
  - change (String c meta +:+ LF +:+ tail) with (String c (meta +:+ LF +:+ tail)).
    rewrite rep_cons. simpl Nat.leb. cbv zeta iota.
    change (String c (meta +:+ LF +:+ tail)) with (String c meta +:+ LF +:+ tail).
    rewrite closingFence_absent.
    + unfold anyChar at 1. simpl Regex.orElse. apply IH.
      now apply occursIn_cons in Hmeta.
    + apply no_fence_across; [discriminate|]. now apply occursIn_head.
Qed.

(** Where the greedy run of white space after the closing dashes ends: after
    a line feed inside the run, or at the end of the input. *)
Lemma closing_blank_run (s : string) :
  forall taken n out,
    Regex.rep Regex.Greedy 0 isWhiteSpace (fun _ rest' => lineFeedOrEnd rest') s taken n
    = Some out ->
    exists w, allChars isWhiteSpace w = true
              /\ (s = w +:+ LF +:+ out \/ (s = w /\ out = EmptyString)).
Proof.
  assert (Hstop : forall s out, lineFeedOrEnd s = Some out ->
                    exists w, allChars isWhiteSpace w = true
                              /\ (s = w +:+ LF +:+ out \/ (s = w /\ out = EmptyString))).
  { intros [|c x] out; simpl.
    - intros [= <-]. exists EmptyString. split; [reflexivity|]. now right.
    - destruct (Ascii.eqb_spec c "010") as [->|]; [|discriminate].
      intros [= <-]. exists EmptyString. split; [reflexivity|]. now left. }
  induction s as [|c s IH]; intros taken n out.
  - rewrite rep_nil. simpl Nat.leb. cbv iota. apply Hstop.
  - rewrite rep_cons. simpl Nat.leb. cbv zeta iota.
    destruct (isWhiteSpace c) eqn:Hc; [|apply Hstop].
    unfold Regex.orElse.
    destruct (Regex.rep Regex.Greedy 0 isWhiteSpace _ s _ _) as [o|] eqn:E; [|apply Hstop].
    intros [= <-]. destruct (IH _ _ _ E) as (w & Hw & Hs).
    exists (String c w). split; [simpl; now rewrite Hc, Hw|].
    destruct Hs as [-> | [-> ->]]; [now left | now right].
Qed.

Lemma closing_blank_run_found (body taken : string) (n : nat) :
  exists out,
    Regex.rep Regex.Greedy 0 isWhiteSpace (fun _ rest' => lineFeedOrEnd rest')
      (LF +:+ body) taken n = Some out.
Proof.
  change (LF +:+ body) with (String "010" body).
  rewrite rep_cons. simpl Nat.leb. cbv zeta iota.
  change (isWhiteSpace "010") with true. cbv iota. unfold Regex.orElse.
  destruct (Regex.rep Regex.Greedy 0 isWhiteSpace _ body _ _) as [o|];
    [now exists o | now exists body].
Qed.

Lemma blank_then_rest (w rest : string) (c : ascii) :
  allChars isWhiteSpace w = true -> isWhiteSpace c = false ->
  forall w' rest',
    allChars isWhiteSpace w' = true ->
    w +:+ String c rest = w' +:+ rest' ->
    exists v, allChars isWhiteSpace v = true /\ rest' = v +:+ String c rest.
Proof.
  revert w. induction w as [|a w IH]; intros Hw Hc w' rest' Hw' E.
  - destruct w' as [|b w'].
    + exists EmptyString. split; [reflexivity|]. simpl in E. now subst.
    + simpl in E. injection E as -> _. simpl in Hw'. rewrite Hc in Hw'. discriminate.
  - simpl in Hw. apply andb_true_iff in Hw as [Ha Hw].
    destruct w' as [|b w'].
    + exists (String a w). split; [simpl; now rewrite Ha, Hw|]. simpl in E. now subst.
    + simpl in E. injection E as _ E. simpl in Hw'. apply andb_true_iff in Hw' as [_ Hw'].
      exact (IH Hw Hc w' rest' Hw' E).
Qed.

Lemma matchFrontmatter_closed (meta body : string) :
  startsBlack meta = true ->
  occursIn (LF +:+ "---") meta = false ->
  exists out w,
    matchFrontmatter (withFrontmatter meta body) = Some out
    /\ allChars isWhiteSpace w = true
    /\ body = w +:+ out.
Proof.
  intros Hblack Hmeta.
  destruct (closing_blank_run_found body EmptyString 0) as [out Hout].
  exists out.
  assert (Hshape : exists w, allChars isWhiteSpace w = true /\ body = w +:+ out).
  { destruct (closing_blank_run _ _ _ _ Hout) as (w & Hw & [E | [E ->]]).
    - destruct w as [|a w].
      + exists EmptyString. split; [reflexivity|]. simpl in E. now injection E.
      + simpl in E. injection E as _ E. simpl in Hw. apply andb_true_iff in Hw as [_ Hw].
        exists (w +:+ LF). split.
        * rewrite allChars_append, Hw. reflexivity.
        * now rewrite append_assoc.
    - destruct w as [|a w]; [discriminate|].
      simpl in E. injection E as _ E. simpl in Hw. apply andb_true_iff in Hw as [_ Hw].
      exists w. split; [exact Hw|]. now rewrite append_nil_r. }
  destruct Hshape as (w & Hw & Hbody). exists w. split; [|now split].
  destruct meta as [|c meta]; [discriminate|].
  simpl in Hblack. apply negb_true_iff in Hblack.
  assert (Hlf : Ascii.eqb c "010" = false).
  { destruct (Ascii.eqb_spec c "010") as [->|]; [discriminate | reflexivity]. }
  unfold matchFrontmatter, withFrontmatter.
  rewrite afterLiteral_append.
  change (LF +:+ String c meta +:+ LF +:+ "---" +:+ LF +:+ body)
    with (String "010" (String c (meta +:+ LF +:+ ("---" +:+ LF +:+ body)))).
  set (rest := meta +:+ LF +:+ ("---" +:+ LF +:+ body)).
  assert (Hnone : afterLiteral LF (String c rest) = None).
  { simpl. now rewrite Hlf. }
  assert (Hsome : afterLiteral LF (String "010" (String c rest)) = Some (String c rest)).
  { reflexivity. }
  rewrite rep_cons. cbv zeta. change (isWhiteSpace "010") with true. cbv iota.
  rewrite rep_cons. cbv zeta. rewrite Hblack, Hnone, Hsome.
  simpl Nat.leb. cbv iota. unfold Regex.orElse at 1.
  subst rest.
  change (String c (meta +:+ LF +:+ ("---" +:+ LF +:+ body)))
    with (String c meta +:+ LF +:+ ("---" +:+ LF +:+ body)).
  apply lazy_body_closed; [exact Hmeta|].
  unfold closingFence.
  change (LF +:+ "---" +:+ LF +:+ body) with ((LF +:+ "---") +:+ (LF +:+ body)).
  rewrite afterLiteral_append. exact Hout.
Qed.

Lemma normalizeDeckSource_closed (meta body : string) :
  startsBlack meta = true ->
  occursIn (LF +:+ "---") meta = false ->
  normalizeDeckSource (withFrontmatter meta body) = trim body.
Proof.
  intros Hblack Hmeta.
  destruct (matchFrontmatter_closed meta body Hblack Hmeta) as (out & w & Hm & Hw & Hbody).
  unfold normalizeDeckSource, stripFrontmatter. rewrite Hm.
  rewrite Hbody. unfold trim. now rewrite (trimStart_blank_prefix _ _ Hw).
Qed.

(** X7. For a document that opens with a metadata block (three dashes on
    the first line, lines of which the first starts with a character other
    than white space and none starts with three dashes, three dashes on a
    line, then the body), [stripFrontmatter] returns the body without some
    of its leading white space, [normalizeDeckSource] returns the trimmed
    body, and a body that is empty or starts with a character other than
    white space is returned as it is. *)
Theorem frontmatter_is_stripped (meta body : string) :
  startsBlack meta = true ->
  occursIn (LF +:+ "---") meta = false ->
  (exists w, allChars isWhiteSpace w = true
             /\ body = w +:+ stripFrontmatter (withFrontmatter meta body))
  /\ normalizeDeckSource (withFrontmatter meta body) = trim body
  /\ (body = EmptyString \/ startsBlack body = true ->
      stripFrontmatter (withFrontmatter meta body) = body).
Proof.
  intros Hblack Hmeta.
  destruct (matchFrontmatter_closed meta body Hblack Hmeta) as (out & w & Hm & Hw & Hbody).
  split; [|split; [now apply normalizeDeckSource_closed|]];
    unfold stripFrontmatter; rewrite Hm.
  - now exists w.
  - intros [-> | Hb].
    + destruct w; [now simpl in Hbody | discriminate].
    + destruct w as [|a w]; [now simpl in Hbody|].
      rewrite Hbody in Hb. simpl in Hb, Hw.
      apply andb_true_iff in Hw as [Ha _]. rewrite Ha in Hb. discriminate.
Qed.

Lemma frontmatter_is_stripped_witness :
  startsBlack "title: Talk" = true
  /\ occursIn (LF +:+ "---") "title: Talk" = false
  /\ normalizeDeckSource (withFrontmatter "title: Talk" (LF +:+ "  # One " +:+ LF))
     = "# One".
Proof.
  split; [reflexivity|]. split; [reflexivity|].
  transitivity (trim (LF +:+ "  # One " +:+ LF)); [|reflexivity].
  exact (proj1 (proj2 (frontmatter_is_stripped "title: Talk" (LF +:+ "  # One " +:+ LF)
                         eq_refl eq_refl))).
Defined.

(** X8. A page that holds nothing but a metadata block and white space,
    and a missing page, reach the preview as the empty text, and the preview
    then shows no deck and the message for an empty page. *)
Theorem blank_page_is_reported {Deck : Type} (s : Preview.State Deck) :
  (forall meta blank,
      startsBlack meta = true ->
      occursIn (LF +:+ "---") meta = false ->
      allChars isWhiteSpace blank = true ->
      normalizeDeckSource (withFrontmatter meta blank) = EmptyString)
  /\ (forall blank,
        allChars isWhiteSpace blank = true -> normalizeDeckSource blank = EmptyString)
  /\ (forall page_mdx,
        normalizeDeckSource page_mdx = EmptyString ->
        Preview.shown (Preview.step s (Preview.SourceChanged (normalizeDeckSource page_mdx)))
        = (None, "Project has an empty page.mdx.")).
Proof.
  split; [|split].
  - intros meta blank Hblack Hmeta Hblank.
    rewrite (normalizeDeckSource_closed meta blank Hblack Hmeta).
    unfold trim. now rewrite (trimStart_blank _ Hblank).
  - intros blank Hblank. unfold normalizeDeckSource.
    assert (Hsame : stripFrontmatter blank = blank).
    { unfold stripFrontmatter, matchFrontmatter.
      rewrite afterLiteral_startsWith; [reflexivity|].
      destruct blank as [|c blank]; [reflexivity|].
      simpl in Hblank. apply andb_true_iff in Hblank as [Hc _].
      simpl. destruct (Ascii.eqb_spec c "-") as [->|]; [discriminate | reflexivity]. }
    rewrite Hsame. unfold trim. now rewrite (trimStart_blank _ Hblank).
  - intros page_mdx ->. reflexivity.
Qed.

Lemma blank_page_is_reported_witness :
  normalizeDeckSource (withFrontmatter "title: Talk" (LF +:+ "  ")) = EmptyString
  /\ Preview.shown
       (Preview.step (@Preview.initial string)
          (Preview.SourceChanged
             (normalizeDeckSource (withFrontmatter "title: Talk" (LF +:+ "  ")))))
     = (None, "Project has an empty page.mdx.").
Proof.
  split.
  - exact (proj1 (blank_page_is_reported (@Preview.initial string))
             "title: Talk" (LF +:+ "  ") eq_refl eq_refl eq_refl).
  - exact (proj2 (proj2 (blank_page_is_reported (@Preview.initial string)))
             (withFrontmatter "title: Talk" (LF +:+ "  ")) eq_refl).
Defined.

End DeckSourceProps.

(** ** Helpers of the settings panel *)

Module SettingsProps.
Import JsStringFacts TrimFacts Settings.

Example hexForInput_samples :
  hexForInput " #abcdef12 " = "#abcdef"
  /\ hexForInput "#ABC" = "#AABBCC"
  /\ hexForInput "#abcd" = "#aabbcc"
  /\ hexForInput "#12345" = "#000000"
  /\ hexForInput "red" = "#000000".
Proof. repeat split. Qed.

Example fontLabel_samples :
  fontLabel (Tokens.DEFAULT_TOKENS Tokens.slideFontFamily) = "Inter"
  /\ fontLabel (Tokens.DEFAULT_TOKENS Tokens.slideHeadingFont) = "Same as body"
  /\ fontLabel " 'SF Mono' , ui-monospace" = "SF Mono"
  /\ fontLabel ",serif" = ",serif".
Proof. repeat split. Qed.

Lemma hexDigit_black (c : ascii) : isHexDigit c = true -> isWhiteSpace c = false.
Proof. destruct c as [[] [] [] [] [] [] [] []]; vm_compute; congruence. Qed.

Lemma hexDigits_black (digits : string) :
  allChars isHexDigit digits = true ->
  allChars (fun c => negb (isWhiteSpace c)) digits = true.
Proof.
  induction digits as [|c digits IH]; [reflexivity|].
  simpl. intros H. apply andb_true_iff in H as [Hc Hd].
  now rewrite (hexDigit_black _ Hc), (IH Hd).
Qed.

Lemma hashAndHexDigits_shape (lo hi : nat) (t : string) :
  hashAndHexDigits lo hi t = true ->
  exists digits, t = String "#" digits
    /\ (lo <= String.length digits <= hi)%nat
    /\ allChars isHexDigit digits = true.
Proof.
  destruct t as [|c digits]; [discriminate|].
  unfold hashAndHexDigits. intros H.
  apply andb_true_iff in H as [H Hd]. apply andb_true_iff in H as [H Hhi].
  apply andb_true_iff in H as [Hc Hlo].
  apply Ascii.eqb_eq in Hc. subst c.
  apply Nat.leb_le in Hlo, Hhi. now exists digits.
Qed.

Lemma hashAndHexDigits_wider (n lo hi : nat) (t : string) :
  (lo <= n <= hi)%nat -> hashAndHexDigits n n t = true -> hashAndHexDigits lo hi t = true.
Proof.
  intros Hn H. apply hashAndHexDigits_shape in H as (digits & -> & Hlen & Hd).
  unfold hashAndHexDigits. rewrite Hd, Ascii.eqb_refl.
  replace (lo <=? String.length digits)%nat with true by (symmetry; apply Nat.leb_le; lia).
  replace (String.length digits <=? hi)%nat with true by (symmetry; apply Nat.leb_le; lia).
  reflexivity.
Qed.

Lemma hashAndHexDigits_trimmed (lo hi : nat) (t : string) :
  hashAndHexDigits lo hi t = true -> trim t = t.
Proof.
  intros H. apply hashAndHexDigits_shape in H as (digits & -> & _ & Hd).
  apply trim_black. simpl. now apply hexDigits_black.
Qed.

Ltac hex_digits :=
  repeat match goal with
         | H : (_ && _)%bool = true |- _ => apply andb_true_iff in H as [? ?]
         end;
  repeat match goal with
         | H : isHexDigit _ = true |- _ => rewrite H; clear H
         end;
  reflexivity.

Lemma hexForInput_six (v : string) : hashAndHexDigits 6 6 (hexForInput v) = true.
Proof.
  unfold hexForInput.
  destruct (hashAndHexDigits 8 8 (trim v)) eqn:E8.
  { apply hashAndHexDigits_shape in E8 as (digits & -> & Hlen & Hd).
    destruct digits as [|d1 [|d2 [|d3 [|d4 [|d5 [|d6 [|d7 [|d8 [|d9 ?]]]]]]]]];
      simpl in Hlen; try lia.
    cbn [allChars] in Hd.
    cbn [String.substring hashAndHexDigits String.length Nat.leb allChars].
    rewrite Ascii.eqb_refl. hex_digits. }
  destruct (hashAndHexDigits 6 6 (trim v)) eqn:E6; [exact E6|].
  destruct (hashAndHexDigits 4 4 (trim v)) eqn:E4.
  { apply hashAndHexDigits_shape in E4 as (digits & -> & Hlen & Hd).
    destruct digits as [|d1 [|d2 [|d3 [|d4 [|d5 ?]]]]]; simpl in Hlen; try lia.
    cbn [allChars] in Hd.
    cbn [element String.get String.append hashAndHexDigits String.length Nat.leb allChars].
    rewrite Ascii.eqb_refl. hex_digits. }
  destruct (hashAndHexDigits 3 3 (trim v)) eqn:E3; [|reflexivity].
  apply hashAndHexDigits_shape in E3 as (digits & -> & Hlen & Hd).
  destruct digits as [|d1 [|d2 [|d3 [|d4 ?]]]]; simpl in Hlen; try lia.
  cbn [allChars] in Hd.
  cbn [element String.get String.append hashAndHexDigits String.length Nat.leb allChars].
  rewrite Ascii.eqb_refl. hex_digits.
Qed.

Lemma hexForInput_fixed (t : string) :
  hashAndHexDigits 6 6 t = true -> hexForInput t = t.
Proof.
  intros H. unfold hexForInput. rewrite (hashAndHexDigits_trimmed _ _ _ H), H.
  destruct (hashAndHexDigits 8 8 t) eqn:E8; [|reflexivity].
  apply hashAndHexDigits_shape in H as (digits & -> & Hlen & _).
  apply hashAndHexDigits_shape in E8 as (digits' & Heq & Hlen' & _).
    injection Heq as Heq. subst digits'. lia.
Qed.

(** X15. Whatever text a token holds, [hexForInput] returns a hash sign
    followed by exactly six hexadecimal digits, the only form a colour input
    accepts. A trimmed value of that form is returned as it is, so the
    function is idempotent; and the result is the fallback [#000000] for
    every value that [isHexColor] rejects. *)
Theorem hexForInput_is_six_digit_colour (v : string) :
  hashAndHexDigits 6 6 (hexForInput v) = true
  /\ (hashAndHexDigits 6 6 (trim v) = true -> hexForInput v = trim v)
  /\ hexForInput (hexForInput v) = hexForInput v
  /\ (isHexColor v = false -> hexForInput v = "#000000").
Proof.
  split; [apply hexForInput_six|]. split; [|split].
  - intros H. unfold hexForInput. rewrite H.
    destruct (hashAndHexDigits 8 8 (trim v)) eqn:E8; [|reflexivity].
    apply hashAndHexDigits_shape in H as (digits & Ht & Hlen & _).
    apply hashAndHexDigits_shape in E8 as (digits' & Heq & Hlen' & _).
    rewrite Ht in Heq. injection Heq as Heq. subst digits'. lia.
  - apply hexForInput_fixed, hexForInput_six.
  - unfold isHexColor, hexForInput. intros Hno.
    assert (Hn : forall n, (3 <= n <= 8)%nat -> hashAndHexDigits n n (trim v) = false).
    { intros n Hn. destruct (hashAndHexDigits n n (trim v)) eqn:E; [|reflexivity].
      now rewrite (hashAndHexDigits_wider n 3 8 _ Hn E) in Hno. }
    rewrite !Hn by lia. reflexivity.
Qed.

Lemma hexForInput_is_six_digit_colour_witness :
  hashAndHexDigits 6 6 (trim " #AbCdEf ") = true
  /\ hexForInput " #AbCdEf " = "#AbCdEf"
  /\ isHexColor "#12345g" = false
  /\ hexForInput "#12345g" = "#000000".
Proof.
  split; [reflexivity|]. split.
  - exact (proj1 (proj2 (hexForInput_is_six_digit_colour " #AbCdEf ")) eq_refl).
  - split; [reflexivity|].
    exact (proj2 (proj2 (proj2 (hexForInput_is_six_digit_colour "#12345g"))) eq_refl).
Defined.

(** *** Font labels *)

Lemma removeQuotes_clean (s : string) :
  allChars (fun c => negb (isQuote c)) (removeQuotes s) = true.
Proof.
  induction s as [|c s IH]; [reflexivity|].
  simpl. destruct (isQuote c) eqn:Hc; [exact IH|].
  simpl. now rewrite Hc, IH.
Qed.

(** X16. The label of a font value holds no quotation mark and no white
    space at either end. *)
Theorem fontLabel_is_bare (fontValue : string) :
  allChars (fun c => negb (isQuote c)) (fontLabel fontValue) = true
  /\ trim (fontLabel fontValue) = fontLabel fontValue.
Proof.
  unfold fontLabel.
  destruct (String.eqb fontValue "var(--slide-font-family)"); [now split|].
  destruct (String.eqb fontValue "var(--slide-code-font)"); [now split|].
  split.
  - apply allChars_trim, removeQuotes_clean.
  - apply trim_idempotent.
Qed.

End SettingsProps.

(** ** More on the path sanitizer *)

Module ReferenceFacts.
Import JsStringFacts SplitFacts TrimFacts.

Lemma trimEnd_append (a b : string) :
  trimEnd (a +:+ b) = if isEmpty (trimEnd b) then trimEnd a else a +:+ trimEnd b.
Proof.
  induction a as [|c a IH].
  - simpl. now destruct (trimEnd b).
  - change (String c a +:+ b) with (String c (a +:+ b)).
    rewrite !trimEnd_cons, IH.
    destruct (trimEnd b) as [|x t] eqn:E; simpl isEmpty; cbv iota; [reflexivity|].
    destruct a; reflexivity.
Qed.

Lemma toLowerCase_append (a b : string) :
  toLowerCase (a +:+ b) = toLowerCase a +:+ toLowerCase b.
Proof. induction a as [|c a IH]; simpl; [reflexivity | now rewrite IH]. Qed.

Lemma toLowerChar_mark (c : ascii) :
  notQueryOrHash (toLowerChar c) = notQueryOrHash c.
Proof. destruct c as [[] [] [] [] [] [] [] []]; reflexivity. Qed.

(** A prefix without [?] and [#] is found in the path or not at all. *)
Lemma startsWith_before_mark (a b p : string) (c : ascii) :
  allChars notQueryOrHash p = true -> notQueryOrHash c = false ->
  a <> EmptyString \/ p <> EmptyString ->
  startsWith (a +:+ String c b) p = startsWith a p.
Proof.
  intros Hp Hc. revert a. induction p as [|x p IH]; intros a Hne.
  - now destruct a.
  - simpl in Hp. apply andb_true_iff in Hp as [Hx Hp].
    destruct a as [|y a]; simpl.
    + destruct (Ascii.eqb_spec c x) as [->|]; [congruence | reflexivity].
    + destruct (Ascii.eqb y x); [|reflexivity]. simpl.
      destruct p as [|x' p']; [now destruct a|].
      apply IH; [exact Hp|]. right. discriminate.
Qed.

Lemma isExternal_before_mark (a b : string) (c : ascii) :
  notQueryOrHash c = false ->
  isExternalAssetPath (a +:+ String c b) = isExternalAssetPath a.
Proof.
  intros Hc. unfold isExternalAssetPath.
  rewrite toLowerCase_append.
  change (toLowerCase (String c b)) with (String (toLowerChar c) (toLowerCase b)).
  assert (Hc' : notQueryOrHash (toLowerChar c) = false) by now rewrite toLowerChar_mark.
  rewrite (startsWith_before_mark a b "//" c eq_refl Hc) by (right; discriminate).
  assert (Hlower : forall p, allChars notQueryOrHash p = true -> p <> EmptyString ->
             startsWith (toLowerCase a +:+ String (toLowerChar c) (toLowerCase b)) p
             = startsWith (toLowerCase a) p).
  { intros p Hp Hne. apply startsWith_before_mark; auto. }
  rewrite !Hlower by (reflexivity || discriminate).
  reflexivity.
Qed.

Lemma takeWhile_before_mark (a b : string) (c : ascii) :
  allChars notQueryOrHash a = true -> notQueryOrHash c = false ->
  takeWhile notQueryOrHash (a +:+ String c b) = a
  /\ dropWhile notQueryOrHash (a +:+ String c b) = String c b.
Proof.
  intros Ha Hc. induction a as [|x a IH]; simpl.
  - now rewrite Hc.
  - simpl in Ha. apply andb_true_iff in Ha as [Hx Ha]. rewrite Hx.
    destruct (IH Ha) as [-> ->]. now split.
Qed.

Lemma isUrlSuffix_trimEnd (suffix : string) :
  isUrlSuffix suffix = true -> isUrlSuffix (trimEnd suffix) = true.
Proof.
  destruct suffix as [|c suffix]; [trivial|].
  intros H. pose proof H as H'. simpl in H. apply andb_true_iff in H as [Hc Hs].
  assert (Hblack : isWhiteSpace c = false).
  { unfold notQueryOrHash in Hc. apply negb_true_iff, negb_false_iff, orb_true_iff in Hc.
    destruct Hc as [Hc | Hc]; apply Ascii.eqb_eq in Hc; subst c; reflexivity. }
  destruct (trimEnd_head c suffix Hblack) as [t Ht].
  pose proof (allChars_trimEnd anyButLineTerminator (String c suffix)) as Hall.
  rewrite Ht in *. simpl. rewrite Hc. apply Hall.
  simpl in H'. now apply andb_true_iff in H' as [_ H'].
Qed.

(** The trimmed form of a reference with white space around it, and the path
    that [splitAssetPathAndSuffix] finds in it. *)
Lemma reference_parts (lead path suffix trail : string) :
  allChars isWhiteSpace lead = true -> allChars isWhiteSpace trail = true ->
  path <> EmptyString -> trim path = path ->
  allChars notQueryOrHash path = true ->
  isUrlSuffix suffix = true ->
  trim (lead +:+ path +:+ suffix +:+ trail) = path +:+ trimEnd suffix
  /\ pathOnly (splitAssetPathAndSuffix (path +:+ trimEnd suffix)) = path.
Proof.
  intros Hlead Htrail Hne Hfix Hpath Hsuffix.
  destruct (TokensProps.trim_fixed path Hne Hfix) as (Hend & c & p & -> & Hc).
  split.
  - replace (lead +:+ String c p +:+ suffix +:+ trail)
      with (lead +:+ (String c p +:+ suffix) +:+ trail) by now rewrite !append_assoc.
    rewrite (trim_padded _ _ _ Hlead Htrail). unfold trim.
    change (String c p +:+ suffix) with (String c (p +:+ suffix)).
    rewrite (trimStart_nonspace _ _ Hc).
    change (String c (p +:+ suffix)) with (String c p +:+ suffix).
    rewrite trimEnd_append, Hend.
    destruct (trimEnd suffix); simpl isEmpty; cbv iota; [now rewrite append_nil_r | reflexivity].
  - apply isUrlSuffix_trimEnd in Hsuffix.
    destruct (trimEnd suffix) as [|x t]; [rewrite append_nil_r; now apply pathOnly_whole|].
    simpl in Hsuffix. apply andb_true_iff in Hsuffix as [Hx Hline].
    apply negb_true_iff in Hx.
    rewrite splitAssetPathAndSuffix_closed.
    destruct (takeWhile_before_mark (String c p) t x Hpath Hx) as [Htake Hdrop].
    rewrite Htake, Hdrop.
    change (allChars anyButLineTerminator (String x t))
      with (anyButLineTerminator x && allChars anyButLineTerminator t).
    rewrite Hline. reflexivity.
Qed.

End ReferenceFacts.

Module SanitizerMore.
Import JsStringFacts SplitFacts TrimFacts ReferenceFacts SanitizerProps.

(** What the sanitizer returns depends on the trimmed reference through four
    observations only. *)
Lemma candidate_congruence (raw1 raw2 : string) :
  isEmpty (trim raw1) = isEmpty (trim raw2) ->
  startsWith (trim raw1) "#" = startsWith (trim raw2) "#" ->
  isExternalAssetPath (trim raw1) = isExternalAssetPath (trim raw2) ->
  pathOnly (splitAssetPathAndSuffix (trim raw1))
  = pathOnly (splitAssetPathAndSuffix (trim raw2)) ->
  normalizeProjectRelativeAsset raw1 = normalizeProjectRelativeAsset raw2.
Proof.
  intros H1 H2 H3 H4. unfold normalizeProjectRelativeAsset, projectRelativeCandidate.
  now rewrite H1, H2, H3, H4.
Qed.

(** X2. White space around a reference and a query string or fragment
    after its path do not change what the sanitizer returns: the result is
    that of the path alone. *)
Theorem sanitizer_reads_the_path_only (lead path suffix trail : string) :
  allChars isWhiteSpace lead = true -> allChars isWhiteSpace trail = true ->
  path <> EmptyString -> trim path = path ->
  allChars notQueryOrHash path = true ->
  isUrlSuffix suffix = true ->
  normalizeProjectRelativeAsset (lead +:+ path +:+ suffix +:+ trail)
  = normalizeProjectRelativeAsset path.
Proof.
  intros Hlead Htrail Hne Hfix Hpath Hsuffix.
  destruct (reference_parts _ _ _ _ Hlead Htrail Hne Hfix Hpath Hsuffix) as [Htrim Hsplit].
  apply candidate_congruence; rewrite Htrim, Hfix.
  - destruct path; [congruence | reflexivity].
  - destruct path; [congruence | reflexivity].
  - pose proof (isUrlSuffix_trimEnd _ Hsuffix) as Hs.
    destruct (trimEnd suffix) as [|x t]; [now rewrite append_nil_r|].
    simpl in Hs. apply andb_true_iff in Hs as [Hx _]. apply negb_true_iff in Hx.
    now apply isExternal_before_mark.
  - rewrite Hsplit. symmetry. now apply pathOnly_whole.
Qed.

Lemma sanitizer_reads_the_path_only_witness :
  normalizeProjectRelativeAsset ("  " +:+ "./images/a.png" +:+ "?v=2#top " +:+ LF)
  = normalizeProjectRelativeAsset "./images/a.png".
Proof.
  apply (sanitizer_reads_the_path_only "  " "./images/a.png" "?v=2#top " LF);
    solve [reflexivity | discriminate].
Defined.

(** X1. A path returned by the sanitizer is a relative path in normal
    form: it is not empty, does not start with a slash, holds no backslash,
    and none of its segments is empty, a single dot or a double dot. *)
Theorem sanitized_path_is_normal (raw q : string) :
  normalizeProjectRelativeAsset raw = Some q ->
  q <> EmptyString
  /\ startsWith q "/" = false
  /\ allChars (fun c => negb (isBackslash c)) q = true
  /\ Forall (fun part => part <> EmptyString /\ part <> "." /\ part <> "..")
       (splitSlash q).
Proof.
  intros H. destruct (sanitized_shape _ _ H) as (parts & Hne & Hkept & ->).
  assert (Hchars : Forall (fun part => allChars isSegmentChar part = true) parts).
  { eapply Forall_impl; [|exact Hkept]. intros part Hp. now apply keptSegment_chars. }
  destruct (joined_head parts Hne Hkept) as (c & tail & Hq & Hc).
  split; [rewrite Hq; discriminate|]. split.
  - rewrite Hq. simpl. unfold isSegmentChar, isSlash in Hc.
    apply andb_true_iff in Hc as [Hc _]. apply negb_true_iff in Hc.
    now rewrite Hc.
  - split; [now apply joinSlash_no_backslash|].
    rewrite (splitSlash_joinSlash parts Hne Hchars).
    eapply Forall_impl; [|exact Hkept]. intros part Hp. unfold keptSegment in Hp.
    apply andb_true_iff in Hp as [Hp _]. apply andb_true_iff in Hp as [Hdot Hdots].
    apply negb_true_iff, orb_false_iff in Hdot as [Hempty Hdot].
    apply negb_true_iff in Hdots.
    repeat split; intros ->; discriminate.
Qed.

Lemma sanitized_path_is_normal_witness :
  normalizeProjectRelativeAsset "\images\.\a\\b\..\logo.png#top" = Some "images/a/logo.png"
  /\ Forall (fun part => part <> EmptyString /\ part <> "." /\ part <> "..")
       (splitSlash "images/a/logo.png").
Proof.
  split; [reflexivity|].
  exact (proj2 (proj2 (proj2 (sanitized_path_is_normal
                                "\images\.\a\\b\..\logo.png#top" "images/a/logo.png"
                                eq_refl)))).
Defined.

End SanitizerMore.

(** ** Kind of a linked asset *)

Module AssetKindProps.
Import JsStringFacts SplitFacts TrimFacts ReferenceFacts AssetKind.

Example inferAssetKind_samples :
  inferAssetKind " a/b.PNG?x=1#y " = Some image
  /\ inferAssetKind "clip.mp4#t=3" = Some video
  /\ inferAssetKind "a.png.txt" = None
  /\ inferAssetKind "png" = None
  /\ inferAssetKind "   " = None.
Proof. repeat split. Qed.

Lemma reverse_acc (s acc : string) : reverse s acc = reverse s EmptyString +:+ acc.
Proof.
  revert acc. induction s as [|c s IH]; intros acc; simpl; [reflexivity|].
  rewrite IH, (IH (String c EmptyString)), append_assoc. reflexivity.
Qed.

Lemma reverse_append (a b : string) :
  reverse (a +:+ b) EmptyString = reverse b EmptyString +:+ reverse a EmptyString.
Proof.
  induction a as [|c a IH]; simpl.
  - now rewrite append_nil_r.
  - rewrite reverse_acc, IH, (reverse_acc a (String c EmptyString)), append_assoc.
    reflexivity.
Qed.

Lemma endsWith_append (a b : string) : endsWith (a +:+ b) b = true.
Proof. unfold endsWith. rewrite reverse_append. apply startsWith_append. Qed.

Lemma allChars_toLowerCase (P : ascii -> bool) (s : string) :
  (forall c, P (toLowerChar c) = P c) ->
  allChars P (toLowerCase s) = allChars P s.
Proof.
  intros HP. induction s as [|c s IH]; simpl; [reflexivity|]. now rewrite HP, IH.
Qed.

Lemma toLowerChar_blank (c : ascii) :
  negb (isWhiteSpace (toLowerChar c)) = negb (isWhiteSpace c).
Proof. destruct c as [[] [] [] [] [] [] [] []]; reflexivity. Qed.

Lemma extension_listed (ext : string) :
  In ext IMAGE_ASSET_EXTENSIONS \/ In ext VIDEO_ASSET_EXTENSIONS ->
  ext <> EmptyString
  /\ allChars notQueryOrHash ext = true
  /\ allChars (fun c => negb (isWhiteSpace c)) ext = true.
Proof.
  intros [H | H]; simpl in H;
    repeat (destruct H as [<- | H]; [repeat split; discriminate|]);
    destruct H.
Qed.

(** The path of a reference whose path ends in an extension written in any
    mix of cases. *)
Lemma extension_path (stem ext written : string) :
  In ext IMAGE_ASSET_EXTENSIONS \/ In ext VIDEO_ASSET_EXTENSIONS ->
  toLowerCase written = ext ->
  trim stem = stem -> allChars notQueryOrHash stem = true ->
  let path := stem +:+ "." +:+ written in
  path <> EmptyString /\ trim path = path /\ allChars notQueryOrHash path = true
  /\ toLowerCase path = toLowerCase stem +:+ "." +:+ ext.
Proof.
  intros Hin Hlower Hfix Hstem path. subst path.
  destruct (extension_listed ext Hin) as (Hne & Hmarks & Hblack).
  rewrite <- Hlower in Hmarks, Hblack.
  rewrite (allChars_toLowerCase _ _ toLowerChar_mark) in Hmarks.
  rewrite (allChars_toLowerCase _ _ toLowerChar_blank) in Hblack.
  assert (Hend : trimEnd (stem +:+ "." +:+ written) = stem +:+ "." +:+ written).
  { apply trimEnd_append_fixed; [discriminate|]. apply trimEnd_black.
    simpl. exact Hblack. }
  split; [destruct stem; discriminate|]. split; [|split].
  - unfold trim. destruct stem as [|c stem].
    + simpl trimStart. exact Hend.
    + assert (Hc : isWhiteSpace c = false).
      { destruct (TokensProps.trim_fixed (String c stem)) as (_ & c' & s' & E & Hc');
          [discriminate | exact Hfix |]. now injection E as -> _. }
      change (String c stem +:+ "." +:+ written) with (String c (stem +:+ "." +:+ written)).
      rewrite (trimStart_nonspace _ _ Hc). exact Hend.
  - rewrite !allChars_append, Hstem, Hmarks. reflexivity.
  - rewrite !toLowerCase_append, Hlower. reflexivity.
Qed.

Lemma hasExtension_found (extensions : list string) (stem ext : string) (path : string) :
  In ext extensions ->
  toLowerCase path = stem +:+ "." +:+ ext ->
  hasExtension extensions path = true.
Proof.
  intros Hin Hpath. unfold hasExtension. apply existsb_exists. exists ext.
  split; [exact Hin|]. rewrite Hpath. apply endsWith_append.
Qed.

Lemma video_is_no_image (stem ext path : string) :
  In ext VIDEO_ASSET_EXTENSIONS ->
  toLowerCase path = stem +:+ "." +:+ ext ->
  hasExtension IMAGE_ASSET_EXTENSIONS path = false.
Proof.
  intros Hin Hpath. unfold hasExtension. rewrite Hpath.
  unfold endsWith. simpl in Hin.
  repeat (destruct Hin as [<- | Hin];
          [simpl existsb; rewrite !reverse_append; reflexivity|]).
  destruct Hin.
Qed.

(** X3. A link whose path ends in a dot and a known image or video
    extension, in any mix of upper and lower case, is classified by that
    extension; white space around the link and a query string or fragment
    after the path do not matter. *)
Theorem asset_kind_by_extension (lead stem ext written suffix trail : string) :
  allChars isWhiteSpace lead = true -> allChars isWhiteSpace trail = true ->
  trim stem = stem -> allChars notQueryOrHash stem = true ->
  toLowerCase written = ext ->
  isUrlSuffix suffix = true ->
  (In ext IMAGE_ASSET_EXTENSIONS ->
   inferAssetKind (lead +:+ (stem +:+ "." +:+ written) +:+ suffix +:+ trail) = Some image)
  /\ (In ext VIDEO_ASSET_EXTENSIONS ->
      inferAssetKind (lead +:+ (stem +:+ "." +:+ written) +:+ suffix +:+ trail) = Some video).
Proof.
  intros Hlead Htrail Hfix Hstem Hlower Hsuffix.
  assert (Hkind : In ext IMAGE_ASSET_EXTENSIONS \/ In ext VIDEO_ASSET_EXTENSIONS ->
            exists t,
              inferAssetKind (lead +:+ (stem +:+ "." +:+ written) +:+ suffix +:+ trail)
              = (if hasExtension IMAGE_ASSET_EXTENSIONS (stem +:+ "." +:+ written)
                 then Some image
                 else if hasExtension VIDEO_ASSET_EXTENSIONS (stem +:+ "." +:+ written)
                      then Some video else None)
              /\ toLowerCase (stem +:+ "." +:+ written) = t +:+ "." +:+ ext).
  { intros Hin.
    destruct (extension_path stem ext written Hin Hlower Hfix Hstem)
      as (Hne & Htrim & Hmarks & Hpath).
    destruct (reference_parts lead _ suffix trail Hlead Htrail Hne Htrim Hmarks Hsuffix)
      as [Hvalue Hsplit].
    exists (toLowerCase stem). split; [|exact Hpath].
    unfold inferAssetKind. rewrite Hvalue, Hsplit.
    destruct (stem +:+ "." +:+ written) eqn:E; [congruence | reflexivity]. }
  split; intros Hin.
  - destruct Hkind as (t & -> & Hpath); [now left|].
    now rewrite (hasExtension_found _ t ext _ Hin Hpath).
  - destruct Hkind as (t & -> & Hpath); [now right|].
    rewrite (video_is_no_image t ext _ Hin Hpath).
    now rewrite (hasExtension_found _ t ext _ Hin Hpath).
Qed.

Lemma asset_kind_by_extension_witness :
  inferAssetKind (" " +:+ ("media/Clip One" +:+ "." +:+ "MP4") +:+ "#t=3" +:+ " ")
  = Some video.
Proof.
  apply (proj2 (asset_kind_by_extension " " "media/Clip One" "mp4" "MP4" "#t=3" " "
                  eq_refl eq_refl eq_refl eq_refl eq_refl eq_refl)).
  simpl. tauto.
Defined.

End AssetKindProps.

(** ** More on the asset resolver *)

Module ResolverMore.
Import JsStringFacts ResolverProps Resolver.

(** The first call for a key that misses the cache and is answered by the
    backend. *)
Lemma resolve_miss rt projectPath rawSrc relative payload w :
  normalizeProjectRelativeAsset rawSrc = Some relative ->
  projectPath <> EmptyString ->
  isTauriRuntime rt = true ->
  projectAssetDataUrlCache w !! cacheKeyOf projectPath relative = None ->
  invoke_resolve_project_asset_data_url rt projectPath rawSrc = Fulfilled payload ->
  resolveProjectAssetSource rt projectPath rawSrc w
  = (Fulfilled payload,
     {| projectAssetDataUrlCache :=
          <[cacheKeyOf projectPath relative := payload]> (projectAssetDataUrlCache w);
        backendReads := (backendReads w ++ [(projectPath, rawSrc)])%list |}).
Proof.
  intros Hrel Hpath Hrt Hmiss Hbackend. unfold resolveProjectAssetSource.
  rewrite Hrel, (sanitized_truthy _ _ Hrel), (truthy_nonempty _ Hpath), Hrt.
  simpl negb. simpl orb. cbv iota. rewrite Hmiss.
  unfold call_resolve_project_asset_data_url. rewrite Hrt, Hbackend. reflexivity.
Qed.

(** X4. References that the sanitizer maps to the same path share one
    cache entry. Once the backend has answered a call for one spelling with a
    payload, a call for any other spelling for the same project made later,
    whatever calls are made and answered in between, settles at once with
    the payload held under the shared key and issues no backend read. That
    payload is the one stored for the first spelling when no other call for
    the key was waiting at that time, whatever the backend answers to the
    other calls; when one was, it is a payload stored since, the backend
    answering with payloads that are not empty. *)
Theorem spellings_share_cache_entry
    (isTauri : bool) (before between : list Move) (i : nat)
    (projectPath first other relative payload : string) :
  normalizeProjectRelativeAsset first = Some relative ->
  normalizeProjectRelativeAsset other = Some relative ->
  let cacheKey := cacheKeyOf projectPath relative in
  let started := runPage isTauri before freshPage in
  suspended started !! i
  = Some {| suspendedKey := cacheKey;
            suspendedProject := projectPath;
            suspendedRaw := first |} ->
  embeddableAnswer (Answers i (Fulfilled payload)) ->
  let stored := fst (advance isTauri started (Answers i (Fulfilled payload))) in
  let later := runPage isTauri between stored in
  (Forall embeddableAnswer between ->
   exists cached,
     projectAssetDataUrlCache (world later) !! cacheKey = Some cached
     /\ advance isTauri later (Calls projectPath other)
        = (later, Some (Fulfilled cached)))
  /\ (noneSuspendedFor cacheKey stored ->
      advance isTauri later (Calls projectPath other)
      = (later, Some (Fulfilled payload))).
Proof.
  intros Hfirst Hother cacheKey started Hi Hpayload stored later.
  exact (proj2 (proj2 (stored_payload_is_served isTauri before between i projectPath
                         first other relative payload Hfirst Hother Hi Hpayload))).
Qed.

Lemma spellings_share_cache_entry_witness :
  let before := [Calls "/deck" "./images/a.png?v=1"] in
  let between := [Calls "/deck" "media/b.mp4"; Answers 0 (Rejected "No such file")] in
  let later :=
    runPage true between
      (fst (advance true (runPage true before freshPage)
              (Answers 0 (Fulfilled pngPayload)))) in
  advance true later (Calls "/deck" " images\a.png#top")
  = (later, Some (Fulfilled pngPayload)).
Proof.
  refine (proj2 (spellings_share_cache_entry true
                   [Calls "/deck" "./images/a.png?v=1"]
                   [Calls "/deck" "media/b.mp4"; Answers 0 (Rejected "No such file")]
                   0 "/deck" "./images/a.png?v=1" " images\a.png#top" "images/a.png"
                   pngPayload eq_refl eq_refl eq_refl _) _).
  - cbn. discriminate.
  - vm_compute. constructor.
Defined.

(** X5. An image and the lightbox never end up with an empty source for a
    reference that is not empty: what they show is the reference itself or
    the non-empty value the resolver settled to, whatever the backend and
    the cache hold. *)
Theorem shown_source_is_never_empty rt (projectPath src : string) (w : World) :
  src <> EmptyString ->
  (fst (ProjectAssetImage rt projectPath src w) <> EmptyString
   /\ (fst (ProjectAssetImage rt projectPath src w) = src
       \/ fst (resolveProjectAssetSource rt projectPath src w)
          = Fulfilled (fst (ProjectAssetImage rt projectPath src w))))
  /\ (fst (handleOpenAsset rt projectPath src w) <> EmptyString
      /\ (fst (handleOpenAsset rt projectPath src w) = src
          \/ fst (resolveProjectAssetSource rt projectPath src w)
             = Fulfilled (fst (handleOpenAsset rt projectPath src w)))).
Proof.
  intros Hsrc. unfold ProjectAssetImage, handleOpenAsset.
  destruct (resolveProjectAssetSource rt projectPath src w) as [[value | cause] w'];
    simpl.
  - destruct value as [|c value]; simpl; repeat split; auto; discriminate.
  - destruct src; [congruence|]. simpl. repeat split; auto; discriminate.
Qed.

Lemma shown_source_is_never_empty_witness :
  fst (ProjectAssetImage emptyPayloadRuntime "/deck" "images/a.png" freshWorld)
  = "images/a.png".
Proof.
  destruct (shown_source_is_never_empty emptyPayloadRuntime "/deck" "images/a.png"
              freshWorld ltac:(discriminate)) as [[_ [H | H]] _].
  - exact H.
  - discriminate H.
Defined.

(** *** What reaches the backend *)

(** One call issues no backend read, or one read of its own reference; in
    the second case the sanitizer has accepted the reference, the project
    path is not empty and the page runs in the desktop shell. *)
Lemma resolve_reads rt (projectPath rawSrc : string) (w : World) :
  backendReads (snd (resolveProjectAssetSource rt projectPath rawSrc w)) = backendReads w
  \/ (backendReads (snd (resolveProjectAssetSource rt projectPath rawSrc w))
      = (backendReads w ++ [(projectPath, rawSrc)])%list
      /\ normalizeProjectRelativeAsset rawSrc <> None
      /\ projectPath <> EmptyString
      /\ isTauriRuntime rt = true).
Proof.
  unfold resolveProjectAssetSource.
  destruct (normalizeProjectRelativeAsset rawSrc) as [relative|]; [|now left].
  destruct (negb (truthy relative) || negb (truthy projectPath)
            || negb (isTauriRuntime rt)) eqn:Hguard; [now left|].
  apply orb_false_iff in Hguard as [Hguard Hrt].
  apply orb_false_iff in Hguard as [_ Hpath].
  apply negb_false_iff in Hrt, Hpath.
  assert (Hbackend :
            backendReads
              (snd match call_resolve_project_asset_data_url rt projectPath rawSrc w with
                   | (Fulfilled nextSource, w') =>
                       (Fulfilled nextSource,
                        {| projectAssetDataUrlCache :=
                             <[cacheKeyOf projectPath relative := nextSource]>
                               (projectAssetDataUrlCache w');
                           backendReads := backendReads w' |})
                   | (Rejected cause, w') => (Rejected cause, w')
                   end)
            = (backendReads w ++ [(projectPath, rawSrc)])%list).
  { unfold call_resolve_project_asset_data_url. rewrite Hrt. simpl negb. cbv iota.
    now destruct (invoke_resolve_project_asset_data_url rt projectPath rawSrc). }
  destruct (projectAssetDataUrlCache w !! cacheKeyOf projectPath relative) as [cached|].
  - destruct (truthy cached); [now left|]. right.
    split; [exact Hbackend|]. split; [discriminate|]. split; [|exact Hrt].
    intros ->. discriminate Hpath.
  - right. split; [exact Hbackend|]. split; [discriminate|]. split; [|exact Hrt].
    intros ->. discriminate Hpath.
Qed.

(** X22. Whatever calls are made, the backend is only ever asked to read
    references that the sanitizer accepts, for a project path that is not
    empty: the log of backend reads grows by at most one entry for each
    call, each new entry is the project and the reference of one of the
    calls, and the sanitizer accepts that reference. *)
Theorem backend_reads_only_sanitized_references
    rt (calls : list (string * string)) (w : World) :
  exists reads,
    backendReads (resolveAll rt calls w) = (backendReads w ++ reads)%list
    /\ (length reads <= length calls)%nat
    /\ forall projectPath rawSrc,
         In (projectPath, rawSrc) reads ->
         In (projectPath, rawSrc) calls
         /\ normalizeProjectRelativeAsset rawSrc <> None
         /\ projectPath <> EmptyString
         /\ isTauriRuntime rt = true.
Proof.
  revert w. induction calls as [|[projectPath rawSrc] calls IH]; intros w.
  - exists []. split; [simpl; now rewrite app_nil_r|]. split; [reflexivity|].
    intros p r [].
  - simpl resolveAll.
    destruct (IH (snd (resolveProjectAssetSource rt projectPath rawSrc w)))
      as (reads & Hreads & Hlen & Hall).
    destruct (resolve_reads rt projectPath rawSrc w) as [Hsame | (Hone & Hok)].
    + exists reads. rewrite Hreads, Hsame. split; [reflexivity|].
      split; [simpl; lia|]. intros p r Hin.
      destruct (Hall p r Hin) as [Hcall Hrest]. split; [now right | exact Hrest].
    + exists ((projectPath, rawSrc) :: reads). rewrite Hreads, Hone.
      split; [now rewrite <- app_assoc|]. split; [simpl; lia|].
      intros p r [[= <- <-] | Hin].
      * split; [now left | exact Hok].
      * destruct (Hall p r Hin) as [Hcall Hrest]. split; [now right | exact Hrest].
Qed.

End ResolverMore.

(** ** More on the slide index and the table of contents *)

Module HomeMore.
Import HomeProps Home.

(** What the loop of [getCurrentCenteredSlideIndex] returns: the index it
    started with if no remaining slide is closer than the distance it started
    with, and otherwise the first of the remaining slides that are closest. *)
Lemma nearestFrom_first_closest (g : Geometry) (positions : list nat) :
  forall nextIndex minDistance,
    (nearestFrom g positions nextIndex minDistance = nextIndex
     /\ forall p, In p positions ->
          match minDistance with
          | Some d => d <= distanceToCenter g p
          | None => False
          end)
    \/ exists pre p post,
         positions = (pre ++ p :: post)%list
         /\ nearestFrom g positions nextIndex minDistance = Z.of_nat p
         /\ match minDistance with
            | Some d => distanceToCenter g p < d
            | None => True
            end
         /\ (forall x, In x pre -> distanceToCenter g p < distanceToCenter g x)
         /\ (forall x, In x post -> distanceToCenter g p <= distanceToCenter g x).
Proof.
  induction positions as [|position rest IH]; intros nextIndex minDistance.
  - left. split; [reflexivity|]. intros p [].
  - simpl nearestFrom. fold (distanceToCenter g position).
    set (closer := match minDistance with
                   | Some d => distanceToCenter g position <? d
                   | None => true
                   end).
    assert (Hcloser : closer = true ->
              match minDistance with
              | Some d => distanceToCenter g position < d
              | None => True
              end).
    { subst closer. destruct minDistance; [apply Z.ltb_lt | trivial]. }
    assert (Hfar : closer = false ->
              exists d, minDistance = Some d /\ d <= distanceToCenter g position).
    { subst closer. destruct minDistance as [d|]; [|discriminate].
      intros H. apply Z.ltb_ge in H. now exists d. }
    destruct closer.
    + specialize (Hcloser eq_refl). right.
      destruct (IH (Z.of_nat position) (Some (distanceToCenter g position)))
        as [[Hsame Hrest] | (pre & p & post & -> & Hp & Hlt & Hpre & Hpost)].
      * exists [], position, rest. repeat split; auto. intros x [].
      * exists (position :: pre), p, post. repeat split; auto.
        -- destruct minDistance; [lia | trivial].
        -- intros x [<- | Hx]; [exact Hlt | now apply Hpre].
    + destruct (Hfar eq_refl) as (d & -> & Hd).
      destruct (IH nextIndex (Some d))
        as [[Hsame Hrest] | (pre & p & post & -> & Hp & Hlt & Hpre & Hpost)].
      * left. split; [exact Hsame|]. intros p [<- | Hp]; [exact Hd | now apply Hrest].
      * right. exists (position :: pre), p, post. repeat split; auto.
        intros x [<- | Hx]; [lia | now apply Hpre].
Qed.

Lemma seq_split (pre post : list nat) (p : nat) :
  forall start len,
    seq start len = (pre ++ p :: post)%list ->
    (forall x, In x pre -> (x < p)%nat) /\ (start <= p < start + len)%nat.
Proof.
  induction pre as [|a pre IH]; intros start len E.
  - destruct len as [|len]; [discriminate|]. simpl in E. injection E as <- _.
    split; [intros x []|lia].
  - destruct len as [|len]; [discriminate|]. simpl in E. injection E as <- E.
    destruct (IH _ _ E) as [Hpre Hp]. split; [|lia].
    intros x [<- | Hx]; [lia | now apply Hpre].
Qed.

(** X10. With a project selected and a deck on screen,
    [getCurrentCenteredSlideIndex] returns the position of a slide whose
    centre is nearest to the centre of the viewport, and of the slides that
    are equally near the first one. *)
Theorem centered_slide_is_nearest (s : State) (g : Geometry) :
  selectedProject s = true ->
  renderedSlides s <> [] ->
  exists p,
    getCurrentCenteredSlideIndex s g = Z.of_nat p
    /\ (p < length (renderedSlides s))%nat
    /\ (forall q, (q < length (renderedSlides s))%nat ->
          distanceToCenter g p <= distanceToCenter g q)
    /\ (forall q, (q < p)%nat -> distanceToCenter g p < distanceToCenter g q).
Proof.
  intros Hs Hdeck. unfold getCurrentCenteredSlideIndex. rewrite Hs. simpl negb. cbv iota.
  destruct (renderedSlides s) as [|slide slides] eqn:E; [congruence|].
  set (n := length (slide :: slides)).
  replace (n =? 0)%nat with false by (subst n; reflexivity).
  destruct (nearestFrom_first_closest g (seq 0 n) 0 None)
    as [[_ Hnone] | (pre & p & post & Hseq & Hp & _ & Hpre & Hpost)].
  - exfalso. apply (Hnone 0%nat). subst n. simpl. now left.
  - exists p. destruct (seq_split _ _ _ _ _ Hseq) as [Hbefore Hrange].
    split; [exact Hp|]. split; [lia|]. split.
    + intros q Hq.
      assert (Hin : In q (seq 0 n)) by (apply in_seq; lia).
      rewrite Hseq in Hin. apply in_app_iff in Hin as [Hin | [<- | Hin]].
      * specialize (Hpre q Hin). lia.
      * lia.
      * now apply Hpost.
    + intros q Hq.
      assert (Hin : In q (seq 0 n)) by (apply in_seq; lia).
      rewrite Hseq in Hin. apply in_app_iff in Hin as [Hin | [<- | Hin]].
      * now apply Hpre.
      * lia.
      * exfalso.
        assert (Hnodup : NoDup (seq 0 n)) by apply seq_NoDup.
        rewrite Hseq in Hnodup.
        assert (Hsorted : forall start len pre' p' post' x,
                   seq start len = (pre' ++ p' :: post')%list ->
                   In x post' -> (p' < x)%nat).
        { clear. intros start len pre'. revert start len.
          induction pre' as [|a pre' IH]; intros start len p' post' x E Hx.
          - destruct len; [discriminate|]. simpl in E. injection E as <- E.
            rewrite <- E in Hx. apply in_seq in Hx. lia.
          - destruct len; [discriminate|]. simpl in E. injection E as _ E.
            exact (IH _ _ _ _ _ E Hx). }
        specialize (Hsorted _ _ _ _ _ _ Hseq Hin). lia.
Qed.

Lemma centered_slide_is_nearest_witness :
  exists p,
    getCurrentCenteredSlideIndex
      (run (mounted true 0) [DeckRendered threeSlides])
      {| viewportCenterY := 150; slideCenter := fun p => Z.of_nat p * 100 |}
    = Z.of_nat p
    /\ (p < 3)%nat.
Proof.
  destruct (centered_slide_is_nearest
              (run (mounted true 0) [DeckRendered threeSlides])
              {| viewportCenterY := 150; slideCenter := fun p => Z.of_nat p * 100 |}
              eq_refl ltac:(discriminate)) as (p & Hp & Hlt & _).
  exists p. split; [exact Hp | exact Hlt].
Defined.

(** *** The ticks of the rail *)

Lemma outlineFrom_nth (slides : list (option string)) :
  forall (i : Z) (k : nat),
    (k < length slides)%nat ->
    exists entry, nth_error (outlineFrom i slides) k = Some entry
                  /\ index entry = i + Z.of_nat k.
Proof.
  induction slides as [|heading slides IH]; intros i k Hk; [simpl in Hk; lia|].
  destruct k as [|k].
  - simpl. eexists. split; [reflexivity|]. simpl. lia.
  - simpl in Hk. destruct (IH (i + 1) k ltac:(lia)) as (entry & He & Hi).
    exists entry. split; [exact He | lia].
Qed.

(** The entries of the table of contents are numbered by their position, and
    there is one for each slide that is counted. *)
Lemma tocEntries_numbered (s : State) :
  outlined s ->
  (forall k entry, nth_error (slideTocEntries s) k = Some entry -> index entry = Z.of_nat k)
  /\ Z.of_nat (length (slideTocEntries s)) = Z.max (visibleSlideCount s) 0.
Proof.
  intros (deck & Hcount & Houtline). unfold slideTocEntries, visibleSlideCount.
  rewrite Houtline, Hcount, outlineFrom_length.
  destruct deck as [|slide slides].
  - change (0 <? length (@nil (option string)))%nat with false.
    change (0 <? Z.of_nat (length (@nil (option string)))) with false. cbv iota. split.
    + intros k entry Hk. rewrite nth_error_map in Hk.
      destruct (nth_error (seq 0 (Z.to_nat (fallbackCount s))) k) as [i|] eqn:Ei;
        [|discriminate].
      simpl in Hk. injection Hk as <-. simpl.
      assert (Hlt : (k < length (seq 0 (Z.to_nat (fallbackCount s))))%nat).
      { apply nth_error_Some. congruence. }
      apply nth_error_nth with (d := 0%nat) in Ei.
      rewrite length_seq in Hlt. rewrite seq_nth in Ei by exact Hlt. lia.
    + rewrite length_map, length_seq. lia.
  - replace (0 <? length (slide :: slides))%nat with true by reflexivity.
    replace (0 <? Z.of_nat (length (slide :: slides))) with true
      by (symmetry; apply Z.ltb_lt; simpl; lia).
    split.
    + intros k entry Hk. apply outlineFrom_index in Hk as [Hk _]. lia.
    + rewrite outlineFrom_length. lia.
Qed.

(** After a project switch the rail can be left without an active tick: the
    viewport recomputation reads the deck of the project shown before, and
    the index it sets has no tick among the two of the selected project. *)
Example rail_without_active_tick :
  let s := session (mounted true 5)
             [Occurs (DeckRendered fiveSlides); ProjectSwitched true 2;
              Occurs (ViewportChanged fifthSlideCentered)] in
  option_map (map tickActive) (SlideTocRail (slideTocEntries s) (activeSlideIndex s))
  = Some [false; false].
Proof. reflexivity. Qed.

(** X11. At every point of a session, with project switches or without, the
    entries of the table of contents are numbered by their position, a tick
    of the rail is marked active exactly when its position is the active
    slide index, and a click on a tick makes the slide at its position the
    active one. The rail has a tick at the active slide index, so that one
    tick is marked, in a session in which no viewport recomputation, slide
    click or presenter toggle comes between a project switch and the next
    run of the render effect of the preview. *)
Theorem toc_rail_follows_active_slide (selected : bool) (slide_count : Z)
    (actions : list Action) :
  let s := session (mounted selected slide_count) actions in
  (forall k entry, nth_error (slideTocEntries s) k = Some entry -> index entry = Z.of_nat k)
  /\ (forall ticks k tick,
        SlideTocRail (slideTocEntries s) (activeSlideIndex s) = Some ticks ->
        nth_error ticks k = Some tick ->
        tickActive tick = (Z.of_nat k =? activeSlideIndex s))
  /\ (readsRenderedDeck true actions = true ->
      forall ticks,
        SlideTocRail (slideTocEntries s) (activeSlideIndex s) = Some ticks ->
        exists tick,
          nth_error ticks (Z.to_nat (activeSlideIndex s)) = Some tick
          /\ tickActive tick = true)
  /\ (forall k entry,
        selectedProject s = true ->
        SlideTocRail (slideTocEntries s) (activeSlideIndex s) <> None ->
        nth_error (slideTocEntries s) k = Some entry ->
        activeSlideIndex (step s (TocSelected k)) = Z.of_nat k).
Proof.
  intros s.
  assert (Houtlined : outlined s).
  { apply session_outlined, rendered_outlined, mounted_invariant. }
  destruct (tocEntries_numbered s Houtlined) as [Hnumbered Hlength].
  assert (Hactive : forall ticks k tick,
             SlideTocRail (slideTocEntries s) (activeSlideIndex s) = Some ticks ->
             nth_error ticks k = Some tick ->
             tickActive tick = (Z.of_nat k =? activeSlideIndex s)).
  { intros ticks k tick Hrail Hk. unfold SlideTocRail in Hrail.
    destruct (length (slideTocEntries s) <=? 1)%nat; [discriminate|].
    injection Hrail as <-. rewrite nth_error_map in Hk.
    destruct (nth_error (slideTocEntries s) k) as [entry|] eqn:E; [|discriminate].
    simpl in Hk. injection Hk as <-. simpl.
    now rewrite (Hnumbered _ _ E). }
  split; [exact Hnumbered|]. split; [exact Hactive|]. split.
  - intros Hok ticks Hrail.
    destruct (mounted_session_invariant selected slide_count actions Hok)
      as [Hrange _].
    fold s in Hrange. unfold inRange in Hrange.
    assert (Hlt : (Z.to_nat (activeSlideIndex s) < length ticks)%nat).
    { unfold SlideTocRail in Hrail.
      destruct (length (slideTocEntries s) <=? 1)%nat eqn:Hfew; [discriminate|].
      injection Hrail as <-. apply Nat.leb_gt in Hfew. rewrite length_map. lia. }
    apply nth_error_Some in Hlt.
    destruct (nth_error ticks (Z.to_nat (activeSlideIndex s))) as [tick|] eqn:E;
      [|congruence].
    exists tick. split; [reflexivity|].
    rewrite (Hactive _ _ _ Hrail E). apply Z.eqb_eq. lia.
  - intros k entry Hselected Hrail Hk.
    assert (Hhandle : handle s (TocSelected k) = setActiveSlideIndex (index entry) s).
    { simpl. rewrite Hselected. simpl negb. cbv iota.
      destruct (SlideTocRail (slideTocEntries s) (activeSlideIndex s)); [|congruence].
      now rewrite Hk. }
    unfold step. rewrite Hhandle.
    replace (maxSlideIndex (setActiveSlideIndex (index entry) s)) with (maxSlideIndex s)
      by reflexivity.
    rewrite Z.eqb_refl. simpl. now apply Hnumbered.
Qed.

Lemma toc_rail_follows_active_slide_witness :
  let actions :=
    [Occurs (DeckRendered fiveSlides); ProjectSwitched true 3;
     Occurs (DeckRendered threeSlides); Occurs (SlideClicked 1)] in
  let s := session (mounted true 0) actions in
  readsRenderedDeck true actions = true
  /\ activeSlideIndex s = 1
  /\ exists ticks tick,
       SlideTocRail (slideTocEntries s) (activeSlideIndex s) = Some ticks
       /\ nth_error ticks 1 = Some tick
       /\ tickActive tick = true.
Proof.
  intros actions s. split; [reflexivity|]. split; [reflexivity|].
  destruct (proj1 (proj2 (proj2 (toc_rail_follows_active_slide true 0 actions)))
              eq_refl _ eq_refl) as (tick & Hnth & Hactive).
  eexists. exists tick. split; [reflexivity|]. split; [exact Hnth | exact Hactive].
Defined.

End HomeMore.

(** ** What the preview shows *)

Module PreviewMore.
Import PreviewProps Preview PreviewView.

Section WithDeck.
Context {Deck : Type}.

Lemma live_is_last (es : list Effect) (i : nat) (e : Effect) :
  olderCancelled es -> nth_error es i = Some e -> live e = true ->
  S i = length es.
Proof.
  intros Hold He Hlive.
  assert (Hlt : (i < length es)%nat) by (apply nth_error_Some; congruence).
  destruct (Nat.eq_dec (S i) (length es)) as [|Hne]; [assumption|].
  unfold live in Hlive. rewrite (Hold i e He) in Hlive by lia. discriminate.
Qed.

Lemma settled_leaves_none_live (es : list Effect) (id : nat) (x : Effect) :
  olderCancelled es -> nth_error es id = Some x -> live x = true ->
  forall i e, nth_error (markSettled id es) i = Some e -> live e = false.
Proof.
  intros Hold Hx Hlive i e He. rewrite nth_error_markSettled in He.
  destruct (i =? id)%nat eqn:Ei.
  - destruct (nth_error es i); [|discriminate]. injection He as <-.
    unfold live. simpl. apply andb_false_r.
  - destruct (live e) eqn:Hle; [|reflexivity].
    pose proof (live_is_last _ _ _ Hold Hx Hlive).
    pose proof (live_is_last _ _ _ Hold He Hle).
    apply Nat.eqb_neq in Ei. lia.
Qed.

Lemma step_coherent (s : State Deck) (e : Event Deck) :
  coherent s -> coherent (step s e).
Proof.
  intros (Hold & Hdeck & Hlive).
  split; [now apply step_olderCancelled|].
  destruct e as [source|id outcome|].
  - assert (Hcleaned : forall i x,
               nth_error (cleanupLatest (effects s)) i = Some x -> live x = false).
    { intros i x Hx. unfold live. now rewrite (cleanupLatest_cancels _ Hold i x Hx). }
    simpl. destruct (isEmpty (trim source)); simpl; (split; [congruence|]);
      intros i x Hx Hl.
    + exfalso.
      destruct (Nat.lt_ge_cases i (length (cleanupLatest (effects s)))) as [Hi | Hi].
      * rewrite nth_error_app1 in Hx by exact Hi.
        rewrite (Hcleaned _ _ Hx) in Hl. discriminate.
      * rewrite nth_error_app2 in Hx by exact Hi.
        destruct (i - length (cleanupLatest (effects s)))%nat as [|[|k]];
          simpl in Hx; try discriminate.
        injection Hx as <-. discriminate Hl.
    + now split.
  - simpl. destruct (nth_error (effects s) id) as [x|] eqn:Hx; [|now split].
    destruct (pending x) eqn:Hp; [|now split].
    destruct (cancelled x) eqn:Hc; simpl.
    + split; [exact Hdeck|]. intros i y Hy Hl.
      rewrite nth_error_markSettled in Hy. destruct (i =? id)%nat.
      * destruct (nth_error (effects s) i); [|discriminate]. injection Hy as <-.
        unfold live in Hl. simpl in Hl. rewrite andb_false_r in Hl. discriminate.
      * exact (Hlive i y Hy Hl).
    + assert (Hxl : live x = true) by (unfold live; now rewrite Hc, Hp).
      destruct (Hlive id x Hx Hxl) as [Hnone Herror].
      pose proof (settled_leaves_none_live _ _ _ Hold Hx Hxl) as Hquiet.
      destruct outcome as [deck|message]; simpl.
      * split; [intros _; exact Herror|].
        intros i y Hy Hl. rewrite (Hquiet i y Hy) in Hl. discriminate.
      * split; [intros H; now rewrite Hnone in H|].
        intros i y Hy Hl. rewrite (Hquiet i y Hy) in Hl. discriminate.
  - simpl. split; [exact Hdeck|]. intros i x Hx Hl. exfalso.
    unfold live in Hl. rewrite (cleanupLatest_cancels _ Hold i x Hx) in Hl. discriminate.
Qed.

Lemma run_coherent (events : list (Event Deck)) :
  forall s, coherent s -> coherent (run s events).
Proof.
  induction events as [|e events IH]; intros s H; [exact H|].
  apply IH, step_coherent, H.
Qed.

Lemma initial_coherent : coherent (@initial Deck).
Proof.
  split; [|split].
  - intros i e H. destruct i; discriminate H.
  - intros H. now contradiction H.
  - intros i e H. destruct i; discriminate H.
Qed.

(** X9. Whatever has happened since the component was mounted: a compiled
    deck is on screen (no message left over hides it); while the evaluation
    of the current source is under way the placeholder is on screen; and
    when that evaluation settles, its deck is on screen, or the message of
    its failure if that is not empty. *)
Theorem preview_shows_current_source (events : list (Event Deck)) :
  let s := run (@initial Deck) events in
  (forall deck, CompiledDeck s = Some deck -> render s = DeckOnScreen deck)
  /\ (forall id e,
        nth_error (effects s) id = Some e -> live e = true ->
        render s = Loading
        /\ (forall deck, render (step s (Settled id (Evaluated deck))) = DeckOnScreen deck)
        /\ (forall message,
              message <> EmptyString ->
              render (step s (Settled id (Failed (Some message)))) = ErrorMessage message)).
Proof.
  intros s.
  destruct (run_coherent events _ initial_coherent) as (Hold & Hdeck & Hlive).
  fold s in Hold, Hdeck, Hlive. split.
  - intros deck H. unfold render. rewrite Hdeck by congruence. now rewrite H.
  - intros id e He Hl. destruct (Hlive id e He Hl) as [Hnone Herror].
    unfold live in Hl. apply andb_true_iff in Hl as [Hc Hp].
    apply negb_true_iff in Hc.
    split; [|split].
    + unfold render. now rewrite Herror, Hnone.
    + intros deck. unfold render. simpl. rewrite He, Hp, Hc. simpl.
      now rewrite Herror.
    + intros message Hm. unfold render. simpl. rewrite He, Hp, Hc. simpl.
      destruct message; [congruence | reflexivity].
Qed.

End WithDeck.

Lemma preview_shows_current_source_witness :
  let s := run (@initial string)
             [SourceChanged "# A"; SourceChanged "# B"; Settled 0 (Evaluated "deck A")] in
  nth_error (effects s) 1 = Some {| cancelled := false; pending := true |}
  /\ render s = Loading
  /\ render (step s (Settled 1 (Evaluated "deck B"))) = DeckOnScreen "deck B".
Proof.
  split; [reflexivity|].
  destruct (proj2 (preview_shows_current_source
                     [SourceChanged "# A"; SourceChanged "# B";
                      Settled 0 (Evaluated "deck A")])
              1%nat {| cancelled := false; pending := true |} eq_refl eq_refl)
    as (Hloading & Hdeck & _).
  split; [exact Hloading | exact (Hdeck "deck B")].
Defined.

End PreviewMore.

(** ** More on the design tokens *)

Module TokensMore.
Import JsStringFacts TrimFacts TokensProps Tokens Stylesheet.

Example parse_partial_sheet :
  withDefaults
    (parseCssToTokens
       (styleSheet [("slide-bg", "#000"); ("brand", "red"); ("slide-bg", "#111111")]))
    slideBg = "#111111"
  /\ withDefaults
       (parseCssToTokens
          (styleSheet [("slide-bg", "#000"); ("brand", "red"); ("slide-bg", "#111111")]))
       slideFg = "#edecec".
Proof. split; vm_compute; reflexivity. Qed.

(** The table [varToToken] maps the name of a variable to its key and
    nothing else to a key. *)
Lemma fold_insert_lookup (keys : list TokenKey) :
  forall (m : gmap string TokenKey) (x : string) (k : TokenKey),
    fold_left (fun m key => <[TOKEN_TO_VAR key := key]> m) keys m !! x = Some k ->
    TOKEN_TO_VAR k = x \/ m !! x = Some k.
Proof.
  induction keys as [|a keys IH]; intros m x k H; [now right|].
  simpl in H. destruct (IH _ _ _ H) as [Hk | Hk]; [now left|].
  destruct (decide (TOKEN_TO_VAR a = x)) as [<- | Hne].
  - rewrite lookup_insert_eq in Hk. injection Hk as <-. now left.
  - rewrite lookup_insert_ne in Hk by exact Hne. now right.
Qed.

Lemma varToToken_lookup (x : string) (k : TokenKey) :
  varToToken !! x = Some k <-> TOKEN_TO_VAR k = x.
Proof.
  split.
  - intros H. destruct (fold_insert_lookup tokenKeys ∅ x k H) as [Hk | Hk]; [exact Hk|].
    rewrite lookup_empty in Hk. discriminate.
  - intros <-. destruct (key_names k) as (-> & _ & _ & H). exact H.
Qed.

Lemma recordMatch_declaration result (name value : string) (key : TokenKey) :
  recordMatch result [name; value] key
  = if String.eqb ("--" +:+ name) (TOKEN_TO_VAR key) then Some value else result key.
Proof.
  unfold recordMatch.
  destruct (varToToken !! ("--" +:+ name)) as [k|] eqn:E.
  - apply varToToken_lookup in E. unfold setToken.
    destruct (TokenKey_eq_dec k key) as [-> | Hne].
    + now rewrite <- E, String.eqb_refl.
    + destruct (String.eqb_spec ("--" +:+ name) (TOKEN_TO_VAR key)) as [Heq|]; [|reflexivity].
      exfalso. apply Hne.
      assert (H1 : varToToken !! ("--" +:+ name) = Some k) by now apply varToToken_lookup.
      assert (H2 : varToToken !! ("--" +:+ name) = Some key) by now apply varToToken_lookup.
      congruence.
  - destruct (String.eqb_spec ("--" +:+ name) (TOKEN_TO_VAR key)) as [Heq|]; [|reflexivity].
    symmetry in Heq. apply varToToken_lookup in Heq. congruence.
Qed.

(** One round of the loop on a rule. *)
Lemma execLoop_rule (d : declaration) (rest : string) (fuel : nat) result :
  wellFormed d = true ->
  execLoop (S fuel) (rule d +:+ rest) result
  = execLoop fuel (LF +:+ rest) (recordMatch result [fst d; snd d]).
Proof.
  intros Hd. unfold wellFormed in Hd.
  apply andb_true_iff in Hd as [Hd Hplain]. apply andb_true_iff in Hd as [Hne Hword].
  assert (Hname : fst d <> EmptyString) by (destruct (fst d); [discriminate | congruence]).
  assert (Hfound : Regex.search TOKEN_DECLARATION_RE (rule d +:+ rest)
                   = Some ([fst d; snd d], LF +:+ rest)).
  { unfold rule.
    replace (("  --" +:+ fst d +:+ ": " +:+ snd d +:+ ";" +:+ LF) +:+ rest)
      with (String " " (String " "
              ("--" +:+ fst d +:+ ": " +:+ snd d +:+ ";" +:+ (LF +:+ rest))))
      by (rewrite !append_assoc; reflexivity).
    rewrite !search_skip by reflexivity.
    apply search_found.
    exact (declaration_matches (fst d) (snd d) (LF +:+ rest) Hname Hword Hplain). }
  now rewrite execLoop_step, Hfound.
Qed.

Lemma execLoop_rules (ds : list declaration) :
  Forall (fun d => wellFormed d = true) ds ->
  forall fuel result,
    (2 * length ds < fuel)%nat ->
    execLoop fuel (rules ds +:+ "}" +:+ LF) result
    = fold_left (fun r d => recordMatch r [fst d; snd d]) ds result.
Proof.
  induction 1 as [|d ds Hd Hds IH]; intros fuel result Hfuel.
  - destruct fuel; reflexivity.
  - destruct fuel as [|fuel]; [simpl in Hfuel; lia|].
    change (rules (d :: ds)) with (rule d +:+ rules ds).
    rewrite append_assoc, (execLoop_rule _ _ _ _ Hd).
    unfold LF at 1. simpl String.append.
    rewrite (execLoop_skip fuel "010" (rules ds +:+ String "}" LF)
               (recordMatch result [fst d; snd d]) eq_refl).
    etransitivity; [apply IH; simpl in Hfuel; lia | reflexivity].
Qed.

Lemma rules_length (ds : list declaration) :
  (2 * length ds <= String.length (rules ds))%nat.
Proof.
  induction ds as [|d ds IH]; [simpl; lia|].
  change (rules (d :: ds)) with (rule d +:+ rules ds).
  rewrite length_append. unfold rule. simpl String.length. simpl length. lia.
Qed.

Lemma fold_recordMatch (ds : list declaration) (key : TokenKey) :
  forall result value,
    result key = value ->
    fold_left (fun r d => recordMatch r [fst d; snd d]) ds result key
    = fold_left (fun value d =>
                   if String.eqb ("--" +:+ fst d) (TOKEN_TO_VAR key) then Some (snd d)
                   else value)
                ds value.
Proof.
  induction ds as [|d ds IH]; intros result value H; [exact H|].
  cbn [fold_left]. apply IH. rewrite recordMatch_declaration, H. reflexivity.
Qed.

(** X13. For a style sheet made of well-formed declarations of custom
    properties, in any order and with any names, each token takes the value
    of the last declaration of its variable; declarations of other names are
    ignored, and a token whose variable is not declared keeps its default
    when the parsed values are merged over the defaults. *)
Theorem stylesheet_sets_declared_tokens (ds : list declaration) (key : TokenKey) :
  Forall (fun d => wellFormed d = true) ds ->
  parseCssToTokens (styleSheet ds) key = declared ds key
  /\ withDefaults (parseCssToTokens (styleSheet ds)) key
     = match declared ds key with
       | Some value => value
       | None => DEFAULT_TOKENS key
       end.
Proof.
  intros Hds.
  assert (Hparse : parseCssToTokens (styleSheet ds) key = declared ds key).
  { unfold parseCssToTokens.
    remember (S (String.length (styleSheet ds))) as fuel eqn:Hfuel.
    assert (Hbig : (2 * length ds < fuel)%nat).
    { subst fuel. unfold styleSheet. rewrite !length_append.
      pose proof (rules_length ds). lia. }
    unfold styleSheet.
    change (":root {" +:+ LF +:+ rules ds +:+ "}" +:+ LF)
      with (String ":" (String "r" (String "o" (String "o" (String "t" (String " "
              (String "{" (String "010" (rules ds +:+ "}" +:+ LF))))))))).
    rewrite !execLoop_skip by reflexivity.
    rewrite (execLoop_rules ds Hds fuel _ Hbig).
    now apply fold_recordMatch. }
  split; [exact Hparse|]. unfold withDefaults. now rewrite Hparse.
Qed.

Lemma stylesheet_sets_declared_tokens_witness :
  parseCssToTokens
    (styleSheet [("slide-bg", "#000"); ("brand", "red"); ("slide-bg", "#111111")])
    slideBg
  = Some "#111111".
Proof.
  apply (proj1 (stylesheet_sets_declared_tokens
                  [("slide-bg", "#000"); ("brand", "red"); ("slide-bg", "#111111")]
                  slideBg ltac:(repeat constructor))).
Defined.

(** *** Colours chosen with the colour input *)

Lemma parse_serialized (tokens : SlideTokens) :
  (forall key, plainValue (tokens key) = true) ->
  forall key, parseCssToTokens (tokensToCss tokens) key = Some (tokens key).
Proof.
  intros Hplain key. unfold parseCssToTokens.
  assert (Hcss : tokensToCss tokens = ":root {" +:+ LF +:+ declarationsFrom tokens tokenKeys)
    by reflexivity.
  rewrite Hcss.
  remember (S (String.length (":root {" +:+ LF +:+ declarationsFrom tokens tokenKeys)))
    as fuel eqn:Hfuel.
  assert (Hbig : (length tokenKeys < fuel)%nat).
  { subst fuel. rewrite length_append, length_append.
    pose proof (declarationsFrom_length tokens tokenKeys). simpl in *. lia. }
  change (":root {" +:+ LF +:+ declarationsFrom tokens tokenKeys)
    with (String ":" (String "r" (String "o" (String "o" (String "t" (String " "
            (String "{" (String "010" (declarationsFrom tokens tokenKeys))))))))).
  rewrite !execLoop_skip by reflexivity.
  rewrite (execLoop_declarations tokens tokenKeys Hplain fuel _ Hbig).
  apply fold_setToken, tokenKeys_complete.
Qed.

Lemma hexDigit_valueChar (c : ascii) :
  Settings.isHexDigit c = true -> isValueChar c = true.
Proof. destruct c as [[] [] [] [] [] [] [] []]; vm_compute; congruence. Qed.

Lemma sixDigitColour_plain (colour : string) :
  Settings.hashAndHexDigits 6 6 colour = true -> plainValue colour = true.
Proof.
  intros H. unfold plainValue.
  rewrite (SettingsProps.hashAndHexDigits_trimmed _ _ _ H), String.eqb_refl.
  apply SettingsProps.hashAndHexDigits_shape in H as (digits & -> & _ & Hd).
  simpl. clear -Hd. induction digits as [|c digits IH]; [reflexivity|].
  simpl in Hd. apply andb_true_iff in Hd as [Hc Hd].
  simpl. now rewrite (hexDigit_valueChar _ Hc), (IH Hd).
Qed.

(** X14. A colour chosen with the colour input (a hash sign and six
    hexadecimal digits) survives saving and loading: with the other tokens
    plain, parsing the serialized tokens and merging them over the defaults
    gives back every token, and the colour input shows the chosen colour
    again. *)
Theorem picked_colour_survives_reload
    (tokens : SlideTokens) (key : TokenKey) (colour : string) :
  (forall k, plainValue (tokens k) = true) ->
  Settings.hashAndHexDigits 6 6 colour = true ->
  let next := updateToken tokens key colour in
  let loaded := withDefaults (parseCssToTokens (tokensToCss next)) in
  (forall k, loaded k = next k)
  /\ Settings.hexForInput (loaded key) = colour.
Proof.
  intros Hplain Hcolour next loaded.
  assert (Hnext : forall k, plainValue (next k) = true).
  { intros k. subst next. unfold updateToken.
    destruct (TokenKey_eq_dec key k); [now apply sixDigitColour_plain | apply Hplain]. }
  assert (Hloaded : forall k, loaded k = next k).
  { intros k. subst loaded. unfold withDefaults. now rewrite (parse_serialized next Hnext). }
  split; [exact Hloaded|].
  rewrite Hloaded. subst next. unfold updateToken.
  destruct (TokenKey_eq_dec key key); [|congruence].
  now apply SettingsProps.hexForInput_fixed.
Qed.

Lemma picked_colour_survives_reload_witness :
  Settings.hexForInput
    (withDefaults (parseCssToTokens (tokensToCss (updateToken DEFAULT_TOKENS slideAccent "#ff8800")))
       slideAccent)
  = "#ff8800".
Proof.
  exact (proj2 (picked_colour_survives_reload DEFAULT_TOKENS slideAccent "#ff8800"
                  default_tokens_plain eq_refl)).
Defined.

End TokensMore.

(** ** Tracked projects *)

Module ProjectsProps.
Import Projects.

Lemma tracked_find (projects : list ProjectSummary) (value : string) :
  tracked projects value = true ->
  exists project,
    find (fun project => String.eqb (path project) value) projects = Some project
    /\ In project projects /\ path project = value.
Proof.
  unfold tracked. intros H.
  destruct (find (fun project => String.eqb (path project) value) projects)
    as [project|] eqn:E.
  - exists project. apply find_some in E as [Hin Heq].
    apply String.eqb_eq in Heq. now repeat split.
  - apply existsb_exists in H as (project & Hin & Heq).
    now rewrite (find_none _ _ E project Hin) in Heq.
Qed.

Lemma nextSelection_choice (projects : list ProjectSummary) (preferredPath : string) :
  (preferredPath <> EmptyString /\ tracked projects preferredPath = true
   /\ nextSelection projects preferredPath = preferredPath)
  \/ nextSelection projects preferredPath
     = match projects with
       | first :: _ => path first
       | [] => EmptyString
       end.
Proof.
  unfold nextSelection.
  destruct preferredPath as [|c rest]; [now right|].
  simpl isEmpty. simpl negb. simpl andb.
  destruct (tracked projects (String c rest)) eqn:E; [left | now right].
  now repeat split.
Qed.

(** X17. With projects tracked, each under a path that is not empty, the
    path selected after the state is refreshed is that of a tracked project,
    so that a project is selected; it is the preferred path whenever that
    path is tracked. With no project tracked the selection is empty and no
    project is selected. *)
Theorem refresh_selects_tracked_project
    (projects : list ProjectSummary) (preferredPath : string) :
  (forall project, In project projects -> path project <> EmptyString) ->
  (projects <> [] ->
   exists project,
     selectedProject projects (refreshState projects preferredPath) = Some project
     /\ In project projects
     /\ path project = refreshState projects preferredPath)
  /\ (tracked projects preferredPath = true ->
      refreshState projects preferredPath = preferredPath)
  /\ (projects = [] ->
      refreshState projects preferredPath = EmptyString
      /\ selectedProject projects (refreshState projects preferredPath) = None).
Proof.
  intros Hpaths. unfold refreshState. split; [|split].
  - intros Hne.
    assert (Htracked : tracked projects (nextSelection projects preferredPath) = true
                       /\ nextSelection projects preferredPath <> EmptyString).
    { destruct (nextSelection_choice projects preferredPath) as [(Hp & Ht & ->) | ->].
      - now split.
      - destruct projects as [|first rest]; [congruence|]. split.
        + unfold tracked. simpl. now rewrite String.eqb_refl.
        + apply Hpaths. now left. }
    destruct Htracked as [Ht Hnonempty].
    destruct (tracked_find _ _ Ht) as (project & Hfind & Hin & Hpath).
    exists project. unfold selectedProject.
    destruct (nextSelection projects preferredPath); [congruence|].
    now repeat split.
  - intros Ht. unfold nextSelection. rewrite Ht.
    destruct preferredPath as [|c rest]; [|reflexivity].
    apply tracked_find in Ht as (project & _ & Hin & Hpath).
    now destruct (Hpaths project Hin).
  - intros ->. unfold nextSelection, tracked. simpl. rewrite andb_false_r. now split.
Qed.

Lemma refresh_selects_tracked_project_witness :
  exists project,
    selectedProject
      [{| name := "Talk"; path := "/decks/talk"; slide_count := 3 |};
       {| name := "Demo"; path := "/decks/demo"; slide_count := 5 |}]
      (refreshState
         [{| name := "Talk"; path := "/decks/talk"; slide_count := 3 |};
          {| name := "Demo"; path := "/decks/demo"; slide_count := 5 |}]
         "/decks/gone")
    = Some project
    /\ path project = "/decks/talk".
Proof.
  destruct (proj1 (refresh_selects_tracked_project
                     [{| name := "Talk"; path := "/decks/talk"; slide_count := 3 |};
                      {| name := "Demo"; path := "/decks/demo"; slide_count := 5 |}]
                     "/decks/gone"
                     ltac:(intros project [<- | [<- | []]]; discriminate))
              ltac:(discriminate)) as (project & Hsel & _ & Hpath).
  exists project. split; [exact Hsel | exact Hpath].
Defined.

(** X18. When a project is removed and the backend no longer tracks its
    path, that path is not selected afterwards; and the selection stays where
    it was when another project, still tracked, was selected. *)
Theorem removed_project_is_deselected
    (projects : list ProjectSummary) (selectedPath removed : string) :
  removed <> EmptyString ->
  tracked projects removed = false ->
  handleRemoveProject projects selectedPath removed <> removed
  /\ (selectedPath <> removed -> tracked projects selectedPath = true ->
      selectedPath <> EmptyString ->
      handleRemoveProject projects selectedPath removed = selectedPath).
Proof.
  intros Hremoved Huntracked. unfold handleRemoveProject. split.
  - destruct (nextSelection_choice projects
                (if String.eqb selectedPath removed then EmptyString else selectedPath))
      as [(Hp & Ht & ->) | ->].
    + destruct (String.eqb_spec selectedPath removed) as [|Hne]; congruence.
    + destruct projects as [|first rest]; [congruence|].
      intros Heq. unfold tracked in Huntracked. simpl in Huntracked.
      rewrite Heq, String.eqb_refl in Huntracked. discriminate.
  - intros Hother Ht Hne.
    destruct (String.eqb_spec selectedPath removed) as [|_]; [congruence|].
    unfold nextSelection. rewrite Ht. now destruct selectedPath.
Qed.

Lemma removed_project_is_deselected_witness :
  handleRemoveProject
    [{| name := "Demo"; path := "/decks/demo"; slide_count := 5 |}]
    "/decks/talk" "/decks/talk"
  <> "/decks/talk".
Proof.
  exact (proj1 (removed_project_is_deselected
                  [{| name := "Demo"; path := "/decks/demo"; slide_count := 5 |}]
                  "/decks/talk" "/decks/talk" ltac:(discriminate) eq_refl)).
Defined.

(** *** Pins *)

Lemma includes_In (pinnedPaths : list string) (value : string) :
  includes pinnedPaths value = true <-> In value pinnedPaths.
Proof.
  unfold includes. rewrite existsb_exists. split.
  - intros (x & Hin & Heq). apply String.eqb_eq in Heq. now subst.
  - intros Hin. exists value. split; [exact Hin | apply String.eqb_refl].
Qed.

Lemma filter_absent (path : string) (previous : list string) :
  ~ In path previous ->
  filter (fun candidate => negb (String.eqb candidate path)) previous = previous.
Proof.
  induction previous as [|a previous IH]; intros Hout; [reflexivity|].
  cbn [filter]. destruct (String.eqb_spec a path) as [-> | Hne].
  - exfalso. apply Hout. now left.
  - cbn [negb]. f_equal. apply IH. intros Hin. apply Hout. now right.
Qed.

(** X20. Toggling the pin of a project pins it if it was not pinned and
    unpins it if it was, and changes the pin of no other project; a list of
    pins without duplicates stays without duplicates; and toggling twice a
    project that was not pinned gives back the list. *)
Theorem toggle_pin_flips_one_project (path : string) (previous : list string) :
  (In path (handleTogglePin path previous) <-> ~ In path previous)
  /\ (forall other, other <> path ->
        (In other (handleTogglePin path previous) <-> In other previous))
  /\ (NoDup previous -> NoDup (handleTogglePin path previous))
  /\ (~ In path previous ->
      handleTogglePin path (handleTogglePin path previous) = previous).
Proof.
  assert (Hfilter : forall other,
             In other (filter (fun candidate => negb (String.eqb candidate path)) previous)
             <-> In other previous /\ other <> path).
  { intros other. rewrite filter_In. split; intros [Hin Hne]; split; try assumption.
    - apply negb_true_iff in Hne. now apply String.eqb_neq in Hne.
    - apply negb_true_iff. now apply String.eqb_neq. }
  assert (Hpinned : includes previous path = true ->
            handleTogglePin path previous
            = filter (fun candidate => negb (String.eqb candidate path)) previous).
  { intros E. unfold handleTogglePin. now rewrite E. }
  assert (Hunpinned : includes previous path = false ->
            handleTogglePin path previous = path :: previous).
  { intros E. unfold handleTogglePin. now rewrite E. }
  destruct (includes previous path) eqn:E.
  - rewrite (Hpinned eq_refl). apply includes_In in E. split; [|split; [|split]].
    + rewrite Hfilter. tauto.
    + intros other Hne. rewrite Hfilter. tauto.
    + intros Hnodup. now apply List.NoDup_filter.
    + tauto.
  - rewrite (Hunpinned eq_refl).
    assert (Hout : ~ In path previous).
    { intros Hin. apply includes_In in Hin. congruence. }
    split; [|split; [|split]].
    + simpl. tauto.
    + intros other Hne. simpl. split; [intros [Heq | Hin]; [congruence | exact Hin] | tauto].
    + intros Hnodup. now constructor.
    + intros _. unfold handleTogglePin, includes. cbn [existsb filter].
      rewrite String.eqb_refl. cbn [orb negb]. now apply filter_absent.
Qed.

Lemma toggle_pin_flips_one_project_witness :
  handleTogglePin "/decks/talk" (handleTogglePin "/decks/talk" ["/decks/demo"])
  = ["/decks/demo"].
Proof.
  apply (proj2 (proj2 (proj2 (toggle_pin_flips_one_project "/decks/talk" ["/decks/demo"])))).
  intros [H | []]. discriminate H.
Defined.

(** *** Order of the projects in the sidebar *)

Section SortFacts.
Context {A : Type} (compare : A -> A -> Z).
Hypothesis compare_transitive :
  forall a b c, compare a b <= 0 -> compare b c <= 0 -> compare a c <= 0.
Hypothesis compare_total : forall a b, 0 < compare a b -> compare b a <= 0.

Lemma insert_permutation (x : A) (sorted : list A) :
  Permutation (x :: sorted) (insert compare x sorted).
Proof.
  induction sorted as [|y rest IH]; simpl; [reflexivity|].
  destruct (compare x y <=? 0); [reflexivity|].
  rewrite perm_swap. now constructor.
Qed.

Lemma sort_permutation (items : list A) : Permutation items (sort compare items).
Proof.
  induction items as [|x items IH]; simpl; [reflexivity|].
  rewrite <- insert_permutation. now constructor.
Qed.

Lemma insert_sorted (x : A) (sorted : list A) :
  StronglySorted (fun a b => compare a b <= 0) sorted ->
  StronglySorted (fun a b => compare a b <= 0) (insert compare x sorted).
Proof.
  induction 1 as [|y rest Hsorted IH Hy]; simpl.
  - constructor; constructor.
  - destruct (compare x y <=? 0) eqn:E.
    + apply Z.leb_le in E. constructor; [now constructor|].
      constructor; [exact E|].
      eapply Forall_impl; [|exact Hy]. intros z Hz. now apply (compare_transitive x y z).
    + apply Z.leb_gt in E. constructor; [exact IH|].
      rewrite <- insert_permutation. constructor; [|exact Hy].
      now apply compare_total.
Qed.

Lemma sort_sorted (items : list A) :
  StronglySorted (fun a b => compare a b <= 0) (sort compare items).
Proof.
  induction items as [|x items IH]; simpl; [constructor | now apply insert_sorted].
Qed.

End SortFacts.

Lemma sorted_before {A} (R : A -> A -> Prop) (front middle back : list A) (a b : A) :
  StronglySorted R (front ++ a :: middle ++ b :: back) -> R a b.
Proof.
  induction front as [|x front IH]; simpl; intros H.
  - apply StronglySorted_inv in H as [_ H]. rewrite Forall_forall in H.
    apply H, in_app_iff. right. now left.
  - apply StronglySorted_inv in H as [H _]. now apply IH.
Qed.

Section ProjectListFacts.
Context (localeCompare : string -> string -> Z).
Hypothesis localeCompare_transitive :
  forall a b c, localeCompare a b <= 0 -> localeCompare b c <= 0 -> localeCompare a c <= 0.
Hypothesis localeCompare_total :
  forall a b, 0 < localeCompare a b -> localeCompare b a <= 0.

Lemma compareProjects_transitive (pinnedPaths : list string) (a b c : ProjectSummary) :
  compareProjects localeCompare pinnedPaths a b <= 0 ->
  compareProjects localeCompare pinnedPaths b c <= 0 ->
  compareProjects localeCompare pinnedPaths a c <= 0.
Proof.
  unfold compareProjects.
  destruct (includes pinnedPaths (path a)), (includes pinnedPaths (path b)),
    (includes pinnedPaths (path c)); simpl; try lia;
    apply localeCompare_transitive.
Qed.

Lemma compareProjects_total (pinnedPaths : list string) (a b : ProjectSummary) :
  0 < compareProjects localeCompare pinnedPaths a b ->
  compareProjects localeCompare pinnedPaths b a <= 0.
Proof.
  unfold compareProjects.
  destruct (includes pinnedPaths (path a)), (includes pinnedPaths (path b));
    simpl; try lia; apply localeCompare_total.
Qed.

(** X19. For a comparison of names that is transitive and total, the
    sidebar lists exactly the tracked projects, every pinned project before
    every project that is not pinned, and the projects of either group in
    the order of their names. *)
Theorem sidebar_lists_pinned_first
    (projects : list ProjectSummary) (pinnedPaths : list string) :
  Permutation projects (sortedProjects localeCompare projects pinnedPaths)
  /\ forall front middle back a b,
       sortedProjects localeCompare projects pinnedPaths
       = (front ++ a :: middle ++ b :: back)%list ->
       (includes pinnedPaths (path b) = true -> includes pinnedPaths (path a) = true)
       /\ (includes pinnedPaths (path a) = includes pinnedPaths (path b) ->
           localeCompare (name a) (name b) <= 0).
Proof.
  split; [apply sort_permutation|].
  intros front middle back a b Hsplit.
  pose proof (sort_sorted (compareProjects localeCompare pinnedPaths)
                (compareProjects_transitive pinnedPaths)
                (compareProjects_total pinnedPaths) projects) as Hsorted.
  fold (sortedProjects localeCompare projects pinnedPaths) in Hsorted.
  rewrite Hsplit in Hsorted. apply sorted_before in Hsorted.
  unfold compareProjects in Hsorted.
  destruct (includes pinnedPaths (path a)), (includes pinnedPaths (path b));
    simpl in Hsorted; split; intros; try reflexivity; try discriminate; try lia.
Qed.

End ProjectListFacts.

Lemma sidebar_lists_pinned_first_witness :
  sortedProjects compareByLength
    [{| name := "Talk"; path := "/decks/talk"; slide_count := 3 |};
     {| name := "Demo day"; path := "/decks/demo"; slide_count := 5 |};
     {| name := "Q1"; path := "/decks/q1"; slide_count := 8 |}]
    ["/decks/demo"]
  = ([] ++ {| name := "Demo day"; path := "/decks/demo"; slide_count := 5 |}
        :: [] ++ {| name := "Q1"; path := "/decks/q1"; slide_count := 8 |}
        :: [{| name := "Talk"; path := "/decks/talk"; slide_count := 3 |}])%list
  /\ (includes ["/decks/demo"] "/decks/q1" = true -> includes ["/decks/demo"] "/decks/demo" = true).
Proof.
  split; [reflexivity|].
  exact (proj1 (proj2 (sidebar_lists_pinned_first compareByLength
                         ltac:(unfold compareByLength; lia)
                         ltac:(unfold compareByLength; lia)
                         [{| name := "Talk"; path := "/decks/talk"; slide_count := 3 |};
                          {| name := "Demo day"; path := "/decks/demo"; slide_count := 5 |};
                          {| name := "Q1"; path := "/decks/q1"; slide_count := 8 |}]
                         ["/decks/demo"])
                  [] [] [{| name := "Talk"; path := "/decks/talk"; slide_count := 3 |}]
                  {| name := "Demo day"; path := "/decks/demo"; slide_count := 5 |}
                  {| name := "Q1"; path := "/decks/q1"; slide_count := 8 |}
                  eq_refl)).
Defined.

(** *** Pinned projects in the variant that keeps the pins in its state *)

Lemma pinOrderFrom_absent (pinnedPaths : list string) (value : string) :
  forall index, ~ In value pinnedPaths -> pinOrderFrom index pinnedPaths value = None.
Proof.
  induction pinnedPaths as [|pinned rest IH]; intros index Hout; [reflexivity|].
  cbn [pinOrderFrom]. rewrite IH by (intros Hin; apply Hout; now right).
  destruct (String.eqb_spec pinned value) as [-> | _]; [|reflexivity].
  exfalso. apply Hout. now left.
Qed.

(** Without duplicates, the order of a pinned path is its position. *)
Lemma pinOrderFrom_position (pinnedPaths : list string) :
  NoDup pinnedPaths ->
  forall index position value,
    nth_error pinnedPaths position = Some value ->
    pinOrderFrom index pinnedPaths value = Some (index + position)%nat.
Proof.
  induction 1 as [|pinned rest Hout Hrest IH]; intros index position value Hnth.
  - destruct position; discriminate Hnth.
  - cbn [pinOrderFrom]. destruct position as [|position].
    + injection Hnth as <-. rewrite (pinOrderFrom_absent _ _ _ Hout), String.eqb_refl.
      f_equal. lia.
    + simpl in Hnth. rewrite (IH (S index) position value Hnth). f_equal. lia.
Qed.

Lemma pinOrderOr_position (pinnedPaths : list string) (position : nat) (value : string) :
  NoDup pinnedPaths ->
  nth_error pinnedPaths position = Some value ->
  pinOrderOr pinnedPaths value = Z.of_nat position.
Proof.
  intros Hnodup Hnth. unfold pinOrderOr.
  now rewrite (pinOrderFrom_position _ Hnodup 0 position value Hnth).
Qed.

Lemma sorted_by_position {A} (order : A -> Z) (items : list A) :
  forall start,
    (forall position item,
        nth_error items position = Some item -> order item = start + Z.of_nat position) ->
    StronglySorted (fun a b => order a < order b) items.
Proof.
  induction items as [|a items IH]; intros start Horder; [constructor|].
  constructor.
  - apply (IH (start + 1)). intros position item Hnth.
    rewrite (Horder (S position) item Hnth). lia.
  - apply Forall_forall. intros b Hb. apply In_nth_error in Hb as [position Hnth].
    rewrite (Horder 0%nat a eq_refl), (Horder (S position) b Hnth). lia.
Qed.

Lemma sorted_filter {A} (R : A -> A -> Prop) (keep : A -> bool) (items : list A) :
  StronglySorted R items -> StronglySorted R (filter keep items).
Proof.
  induction 1 as [|a items Hsorted IH Ha]; [constructor|].
  cbn [filter]. destruct (keep a); [|exact IH].
  constructor; [exact IH|].
  apply Forall_forall. intros b Hb. apply filter_In in Hb as [Hb _].
  rewrite Forall_forall in Ha. now apply Ha.
Qed.

Lemma sorted_map {A B} (R : B -> B -> Prop) (f : A -> B) (items : list A) :
  StronglySorted (fun a b => R (f a) (f b)) items -> StronglySorted R (map f items).
Proof.
  induction 1 as [|a items Hsorted IH Ha]; [constructor|].
  cbn [map]. constructor; [exact IH|].
  apply Forall_forall. intros b Hb. apply in_map_iff in Hb as (x & <- & Hx).
  rewrite Forall_forall in Ha. now apply Ha.
Qed.

(** Two lists with the same elements that are sorted by a strict order are
    the same list. *)
Lemma sorted_unique {A} (R : A -> A -> Prop) :
  (forall a b, R a b -> R b a -> False) ->
  forall first second,
    StronglySorted R first -> StronglySorted R second ->
    (forall x, In x first <-> In x second) ->
    first = second.
Proof.
  intros Hasym. induction first as [|a first IH]; intros second H1 H2 Hsame.
  - destruct second as [|b second]; [reflexivity|].
    destruct (proj2 (Hsame b)). now left.
  - destruct second as [|b second]; [destruct (proj1 (Hsame a)); now left|].
    apply StronglySorted_inv in H1 as [H1 Ha]. apply StronglySorted_inv in H2 as [H2 Hb].
    rewrite Forall_forall in Ha, Hb.
    assert (Hhead : a = b).
    { destruct (proj1 (Hsame a) (or_introl eq_refl)) as [Hab | Hab]; [now symmetry|].
      destruct (proj2 (Hsame b) (or_introl eq_refl)) as [Hba | Hba]; [exact Hba|].
      destruct (Hasym a b (Ha b Hba) (Hb a Hab)). }
    subst b. f_equal. apply IH; try assumption.
    intros x. split; intros Hx.
    + destruct (proj1 (Hsame x) (or_intror Hx)) as [<- | Hin]; [|exact Hin].
      destruct (Hasym a a (Ha a Hx) (Ha a Hx)).
    + destruct (proj2 (Hsame x) (or_intror Hx)) as [<- | Hin]; [|exact Hin].
      destruct (Hasym a a (Hb a Hx) (Hb a Hx)).
Qed.

Lemma map_filter_path (keep : string -> bool) (projects : list ProjectSummary) :
  map path (filter (fun project => keep (path project)) projects)
  = filter keep (map path projects).
Proof.
  induction projects as [|project projects IH]; [reflexivity|].
  cbn [filter map]. destruct (keep (path project)); cbn [map]; now rewrite IH.
Qed.

Lemma tracked_In (projects : list ProjectSummary) (value : string) :
  tracked projects value = true <-> In value (map path projects).
Proof.
  unfold tracked. rewrite existsb_exists, in_map_iff. split.
  - intros (project & Hin & Heq). apply String.eqb_eq in Heq. now exists project.
  - intros (project & Heq & Hin). exists project. split; [exact Hin|].
    now apply String.eqb_eq.
Qed.

Lemma strictly_sorted (order : string -> Z) (pinnedPaths items : list string) :
  (forall x y, In x pinnedPaths -> In y pinnedPaths -> order x = order y -> x = y) ->
  (forall x, In x items -> In x pinnedPaths) ->
  NoDup items ->
  StronglySorted (fun x y => order x - order y <= 0) items ->
  StronglySorted (fun x y => order x < order y) items.
Proof.
  intros Hinj Hin Hnodup Hsorted. induction Hsorted as [|a items Hsorted IH Ha].
  - constructor.
  - apply NoDup_cons_iff in Hnodup as [Hout Hnodup].
    constructor; [apply IH; [intros x Hx; apply Hin; now right | exact Hnodup]|].
    rewrite Forall_forall in Ha. apply Forall_forall. intros b Hb.
    specialize (Ha b Hb).
    assert (order a <> order b).
    { intros Heq. apply Hout.
      rewrite (Hinj a b (Hin a (or_introl eq_refl)) (Hin b (or_intror Hb)) Heq).
      exact Hb. }
    lia.
Qed.

(** X21. In the variant of the page that keeps the pins in its own state,
    with no path pinned twice and no path tracked twice, the sidebar lists
    the pinned projects in the order of the pins, and after them the other
    projects in the order in which they are tracked. *)
Theorem pinned_projects_in_pin_order
    (projects : list ProjectSummary) (pinnedPaths : list string) :
  NoDup pinnedPaths ->
  NoDup (map path projects) ->
  map path (orderedProjects projects pinnedPaths)
  = (filter (tracked projects) pinnedPaths
     ++ filter (fun value => negb (includes pinnedPaths value)) (map path projects))%list.
Proof.
  intros Hpins Hpaths. unfold orderedProjects. rewrite map_app. f_equal.
  2: { apply (map_filter_path (fun value => negb (includes pinnedPaths value))). }
  set (pinned := filter (fun project => includes pinnedPaths (path project)) projects).
  set (order := pinOrderOr pinnedPaths).
  assert (Hperm : Permutation pinned (sort (compareByPin pinnedPaths) pinned))
    by apply sort_permutation.
  assert (Hsorted : StronglySorted (fun a b => compareByPin pinnedPaths a b <= 0)
                      (sort (compareByPin pinnedPaths) pinned)).
  { apply sort_sorted; unfold compareByPin; intros; lia. }
  assert (Hpinned : map path pinned = filter (includes pinnedPaths) (map path projects)).
  { apply (map_filter_path (includes pinnedPaths)). }
  assert (Hmembers : forall x,
             In x (map path (sort (compareByPin pinnedPaths) pinned))
             <-> In x (filter (tracked projects) pinnedPaths)).
  { intros x. rewrite <- (Permutation_in' eq_refl (Permutation_map path Hperm)).
    rewrite Hpinned, !filter_In, includes_In, tracked_In. tauto. }
  assert (Hinj : forall x y, In x pinnedPaths -> In y pinnedPaths ->
                   order x = order y -> x = y).
  { intros x y Hx Hy Heq.
    apply In_nth_error in Hx as [i Hi]. apply In_nth_error in Hy as [j Hj].
    subst order. cbv beta in Heq.
    rewrite (pinOrderOr_position _ _ _ Hpins Hi), (pinOrderOr_position _ _ _ Hpins Hj) in Heq.
    assert (i = j) by lia. subst j. congruence. }
  apply (sorted_unique (fun x y => order x < order y)).
  - intros a b. lia.
  - apply (strictly_sorted order pinnedPaths).
    + exact Hinj.
    + intros x Hx. apply Hmembers, filter_In in Hx. tauto.
    + apply (Permutation_NoDup (Permutation_map path Hperm)).
      rewrite Hpinned. now apply List.NoDup_filter.
    + apply sorted_map. exact Hsorted.
  - apply sorted_filter. apply (sorted_by_position order pinnedPaths 0).
    intros position item Hnth. subst order. cbv beta.
    rewrite (pinOrderOr_position _ _ _ Hpins Hnth). lia.
  - exact Hmembers.
Qed.

Lemma pinned_projects_in_pin_order_witness :
  map path
    (orderedProjects
       [{| name := "A"; path := "/a"; slide_count := 1 |};
        {| name := "B"; path := "/b"; slide_count := 1 |};
        {| name := "C"; path := "/c"; slide_count := 1 |}]
       ["/c"; "/gone"; "/a"])
  = ["/c"; "/a"; "/b"].
Proof.
  apply (pinned_projects_in_pin_order
           [{| name := "A"; path := "/a"; slide_count := 1 |};
            {| name := "B"; path := "/b"; slide_count := 1 |};
            {| name := "C"; path := "/c"; slide_count := 1 |}]
           ["/c"; "/gone"; "/a"]).
  - repeat constructor; simpl; intuition discriminate.
  - repeat constructor; simpl; intuition discriminate.
Defined.

End ProjectsProps.

(** ** Marks on the slides of the rendered deck *)

Module SlideMarksProps.
Import SlideMarks.

Example marks_sample :
  runEffects unmounted
    [DeckChanged 3; ActiveChanged 0 false; ActiveChanged 2 true; ActiveChanged 1 true]
  = Some {| slides := [ {| dataActive := false; ariaHidden := true |};
                        {| dataActive := true; ariaHidden := false |};
                        {| dataActive := false; ariaHidden := true |} ];
            previousActiveSlide := 1;
            singleMode := true |}.
Proof. reflexivity. Qed.

Lemma lookup_alter_at {A} (f : A -> A) (j i : nat) (l : list A) :
  alter f j l !! i = (fun x => if Nat.eqb i j then f x else x) <$> l !! i.
Proof.
  rewrite list_lookup_alter. destruct (decide (j = i)) as [-> | Hne].
  - rewrite Nat.eqb_refl. reflexivity.
  - replace (Nat.eqb i j) with false by (symmetry; apply Nat.eqb_neq; congruence).
    now destruct (l !! i).
Qed.

(** The marks before a run of the effect on the active slide: those left by
    its previous run for the slide at [active], or those left by the effect
    on the compiled deck, for which [active] is [-1]. *)
Lemma marks_before (d : Dom) :
  slides d <> [] ->
  unmarked d \/ (exists active presenterMode, marked active presenterMode d) ->
  exists active presenterMode,
    previousActiveSlide d = active
    /\ singleMode d = presenterMode
    /\ -1 <= active < Z.of_nat (length (slides d))
    /\ forall (i : nat) slide,
         slides d !! i = Some slide ->
         dataActive slide = (Z.of_nat i =? active)
         /\ ariaHidden slide = presenterMode && negb (Z.of_nat i =? active).
Proof.
  intros Hne [(Hprev & Hsingle & Hall) | (active & presenterMode & Hprev & Hsingle & Hrange & Hall)].
  - exists (-1), false. destruct Hsingle as [Hnil | Hsingle]; [congruence|].
    split; [exact Hprev|]. split; [exact Hsingle|]. split; [lia|].
    intros i slide Hi. destruct (Hall i slide Hi) as [Ha Hh]. split.
    + rewrite Ha. symmetry. apply Z.eqb_neq. lia.
    + exact Hh.
  - exists active, presenterMode.
    split; [exact Hprev|]. split; [exact Hsingle|]. split; [lia|]. exact Hall.
Qed.

Lemma activeEffect_marks (activeSlideIndex : Z) (presenterMode : bool) (d : Dom) :
  slides d <> [] ->
  0 <= activeSlideIndex ->
  unmarked d \/ (exists active mode, marked active mode d) ->
  exists d',
    activeEffect activeSlideIndex presenterMode d = Some d'
    /\ length (slides d') = length (slides d)
    /\ marked (Z.min activeSlideIndex (Z.of_nat (length (slides d)) - 1)) presenterMode d'.
Proof.
  intros Hne Hindex Hbefore.
  destruct (marks_before d Hne Hbefore) as (a & m & Hprev & Hsingle & Hrange & Hall).
  assert (Hcount : 0 < Z.of_nat (length (slides d))).
  { destruct (slides d); [congruence | simpl; lia]. }
  unfold activeEffect. rewrite Hprev, Hsingle.
  set (count := Z.of_nat (length (slides d))) in *.
  set (safe := Z.min activeSlideIndex (count - 1)).
  assert (Hsafe : 0 <= safe < count) by (subst safe; lia).
  replace (count =? 0) with false by (symmetry; apply Z.eqb_neq; lia).
  replace (safe <? 0) with false by (symmetry; apply Z.ltb_ge; lia).
  replace (a <? count) with true by (symmetry; apply Z.ltb_lt; lia).
  rewrite andb_true_r.
  assert (Hat : forall i : nat, Nat.eqb i (Z.to_nat safe) = (Z.of_nat i =? safe)).
  { intros i. destruct (Z.eqb_spec (Z.of_nat i) safe) as [E | E].
    - apply Nat.eqb_eq. lia.
    - apply Nat.eqb_neq. lia. }
  assert (Hleft : forall i : nat,
             (0 <=? a) && negb (a =? safe) = true ->
             Nat.eqb i (Z.to_nat a) = (Z.of_nat i =? a)).
  { intros i H. apply andb_true_iff in H as [Ha _]. apply Z.leb_le in Ha.
    destruct (Z.eqb_spec (Z.of_nat i) a) as [E | E].
    - apply Nat.eqb_eq. lia.
    - apply Nat.eqb_neq. lia. }
  destruct presenterMode; simpl negb; cbv iota.
  - eexists. split; [reflexivity|]. simpl slides. split.
    + destruct m, ((0 <=? a) && negb (a =? safe));
        simpl negb; cbv iota; rewrite ?length_imap, !length_alter; reflexivity.
    + split; [reflexivity|]. split; [reflexivity|]. simpl slides.
      split.
      { destruct m, ((0 <=? a) && negb (a =? safe));
          simpl negb; cbv iota; rewrite ?length_imap, !length_alter; exact Hsafe. }
      intros i slide' Hi.
      destruct ((0 <=? a) && negb (a =? safe)) eqn:Hleaves;
        destruct m; simpl negb in Hi; cbv iota in Hi;
        rewrite ?list_lookup_imap, ?lookup_alter_at in Hi;
        destruct (slides d !! i) as [slide|] eqn:Hslide; try discriminate Hi;
        simpl in Hi; injection Hi as <-;
        destruct (Hall i slide Hslide) as [Hactive Hhidden];
        rewrite ?Hat; try rewrite (Hleft i eq_refl);
        destruct (Z.eqb_spec (Z.of_nat i) safe) as [Es | Es];
        destruct (Z.eqb_spec (Z.of_nat i) a) as [Ea | Ea];
        simpl; rewrite ?Hactive, ?Hhidden; simpl;
        try (split; reflexivity);
        try (apply andb_false_iff in Hleaves as [Hl | Hl];
             [apply Z.leb_gt in Hl | apply negb_false_iff, Z.eqb_eq in Hl]; lia);
        try (apply andb_true_iff in Hleaves as [_ Hl];
             apply negb_true_iff, Z.eqb_neq in Hl; lia).
  - eexists. split; [reflexivity|]. simpl slides. split.
    + destruct m, ((0 <=? a) && negb (a =? safe));
        rewrite ?length_alter, ?length_fmap; reflexivity.
    + split; [reflexivity|]. split; [reflexivity|]. simpl slides.
      split.
      { destruct m, ((0 <=? a) && negb (a =? safe));
          rewrite ?length_alter, ?length_fmap; exact Hsafe. }
      intros i slide' Hi.
      destruct ((0 <=? a) && negb (a =? safe)) eqn:Hleaves;
        destruct m;
        rewrite ?lookup_alter_at, ?list_lookup_fmap in Hi;
        destruct (slides d !! i) as [slide|] eqn:Hslide; try discriminate Hi;
        simpl in Hi; injection Hi as <-;
        destruct (Hall i slide Hslide) as [Hactive Hhidden];
        rewrite ?Hat; try rewrite (Hleft i eq_refl);
        destruct (Z.eqb_spec (Z.of_nat i) safe) as [Es | Es];
        destruct (Z.eqb_spec (Z.of_nat i) a) as [Ea | Ea];
        simpl; rewrite ?Hactive, ?Hhidden; simpl;
        try (split; reflexivity);
        try (apply andb_false_iff in Hleaves as [Hl | Hl];
             [apply Z.leb_gt in Hl | apply negb_false_iff, Z.eqb_eq in Hl]; lia);
        try (apply andb_true_iff in Hleaves as [_ Hl];
             apply negb_true_iff, Z.eqb_neq in Hl; lia).
Qed.

Lemma activeEffect_empty (activeSlideIndex : Z) (presenterMode : bool) (d : Dom) :
  slides d = [] -> activeEffect activeSlideIndex presenterMode d = Some d.
Proof. intros H. unfold activeEffect. now rewrite H. Qed.

Lemma renderEffect_unmarked (count : nat) (d : Dom) :
  unmarked (renderEffect count d) /\ length (slides (renderEffect count d)) = count.
Proof.
  split; [|apply length_replicate].
  split; [reflexivity|]. split; [now right|].
  intros i slide H. simpl in H. apply lookup_replicate in H as [-> _]. now split.
Qed.

Lemma runEffect_marks (d : Dom) (e : EffectRun) :
  indexNonNegative e ->
  unmarked d \/ (exists active mode, marked active mode d) ->
  exists d',
    runEffect d e = Some d'
    /\ (unmarked d' \/ exists active mode, marked active mode d').
Proof.
  intros He Hd. destruct e as [count| |activeSlideIndex presenterMode]; simpl.
  - eexists. split; [reflexivity|]. left. apply renderEffect_unmarked.
  - eexists. split; [reflexivity|]. left.
    split; [reflexivity|]. split; [now left|]. intros i slide H. discriminate H.
  - assert (Hcases : slides d = [] \/ slides d <> []).
    { destruct (slides d); [now left | right; discriminate]. }
    destruct Hcases as [E | E].
    + exists d. split; [now apply activeEffect_empty | exact Hd].
    + destruct (activeEffect_marks activeSlideIndex presenterMode d E He Hd)
        as (d' & Hrun & _ & Hm).
      exists d'. split; [exact Hrun|]. right. eauto.
Qed.

Lemma runEffects_marks (effects : list EffectRun) :
  Forall indexNonNegative effects ->
  forall d,
    unmarked d \/ (exists active mode, marked active mode d) ->
    exists d',
      runEffects d effects = Some d'
      /\ (unmarked d' \/ exists active mode, marked active mode d').
Proof.
  induction 1 as [|e effects He Hrest IH]; intros d Hd.
  - exists d. now split.
  - destruct (runEffect_marks d e He Hd) as (d1 & Hrun & Hd1).
    destruct (IH d1 Hd1) as (d' & Hruns & Hd').
    exists d'. split; [|exact Hd']. simpl. now rewrite Hrun.
Qed.

Lemma unmounted_unmarked : unmarked unmounted.
Proof.
  split; [reflexivity|]. split; [now left|]. intros i slide H. discriminate H.
Qed.

(** X12. Whatever runs of the two effects came before, with indices that
    are not negative: a run of the effect on the active slide and the mode
    does not throw, and on a deck with slides it leaves the slide at the
    smaller of the index and the last position as the only one marked
    active, in presenter mode as the only one not hidden, and in list mode
    with no slide hidden. A run of the effect on the compiled deck leaves
    every slide unmarked and visible. *)
Theorem marks_follow_active_slide
    (effects : list EffectRun) (activeSlideIndex : Z) (presenterMode : bool) :
  Forall indexNonNegative effects ->
  0 <= activeSlideIndex ->
  exists d d',
    runEffects unmounted effects = Some d
    /\ activeEffect activeSlideIndex presenterMode d = Some d'
    /\ length (slides d') = length (slides d)
    /\ (slides d <> [] ->
        marked (Z.min activeSlideIndex (Z.of_nat (length (slides d)) - 1))
          presenterMode d')
    /\ forall count, unmarked (renderEffect count d')
                     /\ length (slides (renderEffect count d')) = count.
Proof.
  intros Heffects Hindex.
  destruct (runEffects_marks effects Heffects unmounted (or_introl unmounted_unmarked))
    as (d & Hrun & Hd).
  exists d.
  assert (Hcases : slides d = [] \/ slides d <> []).
  { destruct (slides d); [now left | right; discriminate]. }
  destruct Hcases as [E | E].
  - exists d. split; [exact Hrun|]. split; [now apply activeEffect_empty|].
    split; [reflexivity|]. split; [congruence|]. intros count. apply renderEffect_unmarked.
  - destruct (activeEffect_marks activeSlideIndex presenterMode d E Hindex Hd)
      as (d' & Hactive & Hlen & Hm).
    exists d'. split; [exact Hrun|]. split; [exact Hactive|].
    split; [exact Hlen|]. split; [intros _; exact Hm|].
    intros count. apply renderEffect_unmarked.
Qed.

Lemma marks_follow_active_slide_witness :
  exists d',
    activeEffect 7 true
      {| slides := [ {| dataActive := false; ariaHidden := false |};
                     {| dataActive := true; ariaHidden := false |};
                     {| dataActive := false; ariaHidden := false |} ];
         previousActiveSlide := 1;
         singleMode := false |}
    = Some d'
    /\ marked 2 true d'.
Proof.
  destruct (marks_follow_active_slide [DeckChanged 3; ActiveChanged 1 false] 7 true
              ltac:(repeat constructor; simpl; lia) ltac:(lia))
    as (d & d' & Hrun & Hactive & _ & Hmarked & _).
  injection Hrun as <-. exists d'. split; [exact Hactive|].
  apply Hmarked. discriminate.
Defined.

End SlideMarksProps.

(** ** Layout properties of the MDX components *)

Module LayoutProps.
Import JsStringFacts TrimFacts Layout.

Example layout_samples :
  layoutAlignCssValue (StringValue " Center ") = "center"
  /\ layoutJustifyCssValue (StringValue "BETWEEN") = "space-between"
  /\ layoutJustifyCssValue (StringValue "around") = "flex-start"
  /\ layoutGapCssValue (StringValue "LG") = "calc(var(--slide-layout-gap, 16px) * 1.5)"
  /\ layoutGapCssValue OtherValue = "calc(var(--slide-layout-gap, 16px) * 1)".
Proof. repeat split. Qed.

Lemma keyword_listed (keyword : string) :
  In keyword LAYOUT_GAP_SCALES \/ In keyword LAYOUT_ALIGNS \/ In keyword LAYOUT_JUSTIFIES ->
  allChars (fun c => negb (isWhiteSpace c)) keyword = true.
Proof.
  intros [H | [H | H]]; simpl in H;
    repeat (destruct H as [<- | H]; [reflexivity|]); destruct H.
Qed.

(** A keyword written in any mix of cases, with white space around it, is
    normalized to the keyword. *)
Lemma spelled_keyword (lead written trail keyword : string) :
  allChars isWhiteSpace lead = true -> allChars isWhiteSpace trail = true ->
  toLowerCase written = keyword ->
  In keyword LAYOUT_GAP_SCALES \/ In keyword LAYOUT_ALIGNS \/ In keyword LAYOUT_JUSTIFIES ->
  toLowerCase (trim (lead +:+ written +:+ trail)) = keyword.
Proof.
  intros Hlead Htrail Hlower Hin.
  rewrite (trim_padded _ _ _ Hlead Htrail), trim_black; [exact Hlower|].
  rewrite <- (AssetKindProps.allChars_toLowerCase _ _ AssetKindProps.toLowerChar_blank).
  rewrite Hlower. now apply keyword_listed.
Qed.

Lemma normalizeLayoutGap_listed (value : unknown) :
  In (normalizeLayoutGap value) LAYOUT_GAP_SCALES.
Proof.
  destruct value as [value|]; [|simpl; tauto]. unfold normalizeLayoutGap.
  destruct (existsb _ LAYOUT_GAP_SCALES) eqn:E; [|simpl; tauto].
  apply existsb_exists in E as (scale & Hin & Heq).
  apply String.eqb_eq in Heq. now rewrite Heq.
Qed.

Lemma normalizeLayoutAlign_listed (value : unknown) :
  In (normalizeLayoutAlign value) LAYOUT_ALIGNS.
Proof.
  destruct value as [value|]; [|simpl; tauto]. unfold normalizeLayoutAlign.
  set (normalized := toLowerCase (trim value)).
  destruct (String.eqb_spec normalized "start") as [-> | _]; [simpl; tauto|].
  destruct (String.eqb_spec normalized "center") as [-> | _]; [simpl; tauto|].
  destruct (String.eqb_spec normalized "end") as [-> | _]; [simpl; tauto|].
  destruct (String.eqb_spec normalized "stretch") as [-> | _]; simpl; tauto.
Qed.

Lemma normalizeLayoutJustify_listed (value : unknown) :
  In (normalizeLayoutJustify value) LAYOUT_JUSTIFIES.
Proof.
  destruct value as [value|]; [|simpl; tauto]. unfold normalizeLayoutJustify.
  set (normalized := toLowerCase (trim value)).
  destruct (String.eqb_spec normalized "start") as [-> | _]; [simpl; tauto|].
  destruct (String.eqb_spec normalized "center") as [-> | _]; [simpl; tauto|].
  destruct (String.eqb_spec normalized "end") as [-> | _]; [simpl; tauto|].
  destruct (String.eqb_spec normalized "between") as [-> | _]; simpl; tauto.
Qed.

(** X23. The layout properties of the MDX components accept their keywords
    in any mix of upper and lower case and with white space around them,
    and whatever value is given, a string or not, the normalized gap,
    alignment and justification are among the keywords of their type. *)
Theorem layout_keywords_in_any_spelling (lead written trail keyword : string) :
  allChars isWhiteSpace lead = true -> allChars isWhiteSpace trail = true ->
  toLowerCase written = keyword ->
  (In keyword LAYOUT_GAP_SCALES ->
   normalizeLayoutGap (StringValue (lead +:+ written +:+ trail)) = keyword)
  /\ (In keyword LAYOUT_ALIGNS ->
      normalizeLayoutAlign (StringValue (lead +:+ written +:+ trail)) = keyword)
  /\ (In keyword LAYOUT_JUSTIFIES ->
      normalizeLayoutJustify (StringValue (lead +:+ written +:+ trail)) = keyword)
  /\ forall value,
       In (normalizeLayoutGap value) LAYOUT_GAP_SCALES
       /\ In (normalizeLayoutAlign value) LAYOUT_ALIGNS
       /\ In (normalizeLayoutJustify value) LAYOUT_JUSTIFIES.
Proof.
  intros Hlead Htrail Hlower.
  split; [|split; [|split]].
  - intros Hin. unfold normalizeLayoutGap.
    rewrite (spelled_keyword _ _ _ _ Hlead Htrail Hlower) by tauto.
    simpl in Hin. repeat (destruct Hin as [<- | Hin]; [reflexivity|]). destruct Hin.
  - intros Hin. unfold normalizeLayoutAlign.
    rewrite (spelled_keyword _ _ _ _ Hlead Htrail Hlower) by tauto.
    simpl in Hin. repeat (destruct Hin as [<- | Hin]; [reflexivity|]). destruct Hin.
  - intros Hin. unfold normalizeLayoutJustify.
    rewrite (spelled_keyword _ _ _ _ Hlead Htrail Hlower) by tauto.
    simpl in Hin. repeat (destruct Hin as [<- | Hin]; [reflexivity|]). destruct Hin.
  - intros value. split; [apply normalizeLayoutGap_listed|].
    split; [apply normalizeLayoutAlign_listed | apply normalizeLayoutJustify_listed].
Qed.

Lemma layout_keywords_in_any_spelling_witness :
  normalizeLayoutJustify (StringValue (" " +:+ "Between" +:+ LF)) = "between".
Proof.
  apply (proj1 (proj2 (proj2 (layout_keywords_in_any_spelling " " "Between" LF "between"
                                eq_refl eq_refl eq_refl)))).
  simpl. tauto.
Defined.

End LayoutProps.

(** ** The keyboard handler *)

Module KeyboardProps.
Import Keyboard.

Ltac branches :=
  repeat match goal with
         | |- context [if ?b then _ else _] => destruct b eqn:?
         end.

(** X24. A press of Escape outside a typing target closes exactly one of the
    open layers, and the topmost one: the settings panel if it is open,
    otherwise the lightbox if an asset is expanded, otherwise the presenter
    view; with none of them open it changes nothing. It never moves the
    active slide and never changes the zoom. *)
Theorem escape_closes_topmost_layer (ui : Ui) (event : KeyboardEvent) :
  key event = "Escape" -> code event = "Escape" -> isTypingTarget event = false ->
  let ui' := fst (onKeyDown ui event) in
  openLayers ui' = Nat.pred (openLayers ui)
  /\ (settingsOpen ui = true -> ui' = setSettingsOpen false ui)
  /\ (settingsOpen ui = false -> expandedAsset ui = true ->
      ui' = setExpandedAsset false ui)
  /\ (settingsOpen ui = false -> expandedAsset ui = false -> presenterMode ui = true ->
      ui' = setPresenterMode false ui)
  /\ (settingsOpen ui = false -> expandedAsset ui = false -> presenterMode ui = false ->
      ui' = ui)
  /\ activeSlideIndex ui' = activeSlideIndex ui
  /\ snd (onKeyDown ui event) = None.
Proof.
  intros Hkey Hcode Htyping ui'. subst ui'. unfold onKeyDown.
  rewrite Hkey, Hcode, Htyping. simpl String.eqb. rewrite !orb_false_r, !andb_false_r.
  simpl andb. cbv iota.
  unfold openLayers.
  destruct (settingsOpen ui) eqn:Hs, (expandedAsset ui) eqn:He, (presenterMode ui) eqn:Hp;
    simpl; rewrite ?Hs, ?He, ?Hp; repeat split; intros; try reflexivity; try discriminate.
Qed.

Lemma escape_closes_topmost_layer_witness :
  fst (onKeyDown
         {| settingsOpen := false; expandedAsset := true; sidebarOpen := true;
            presenterMode := true; selectedProject := true;
            activeSlideIndex := 2; maxSlideIndex := 4 |}
         {| key := "Escape"; code := "Escape"; metaKey := false; ctrlKey := false;
            isTypingTarget := false |})
  = {| settingsOpen := false; expandedAsset := false; sidebarOpen := true;
       presenterMode := true; selectedProject := true;
       activeSlideIndex := 2; maxSlideIndex := 4 |}.
Proof.
  exact (proj1 (proj2 (proj2 (escape_closes_topmost_layer
                                {| settingsOpen := false; expandedAsset := true;
                                   sidebarOpen := true; presenterMode := true;
                                   selectedProject := true;
                                   activeSlideIndex := 2; maxSlideIndex := 4 |}
                                {| key := "Escape"; code := "Escape"; metaKey := false;
                                   ctrlKey := false; isTypingTarget := false |}
                                eq_refl eq_refl eq_refl)))
           eq_refl eq_refl).
Defined.

(** X25. A key moves the active slide only in presenter mode, with a project
    selected, no asset expanded and the target not a typing target; it then
    moves it by one step and leaves the mode as it is. An index between 0
    and the last index stays there whatever key is pressed. *)
Theorem keys_move_slide_only_in_presenter_mode (ui : Ui) (event : KeyboardEvent) :
  let ui' := fst (onKeyDown ui event) in
  (activeSlideIndex ui' <> activeSlideIndex ui ->
   presenterMode ui = true /\ selectedProject ui = true /\ expandedAsset ui = false
   /\ isTypingTarget event = false /\ presenterMode ui' = true
   /\ (activeSlideIndex ui' = Z.min (activeSlideIndex ui + 1) (maxSlideIndex ui)
       \/ activeSlideIndex ui' = Z.max (activeSlideIndex ui - 1) 0))
  /\ (0 <= activeSlideIndex ui <= maxSlideIndex ui ->
      0 <= activeSlideIndex ui' <= maxSlideIndex ui'
      /\ Z.abs (activeSlideIndex ui' - activeSlideIndex ui) <= 1).
Proof.
  intros ui'. subst ui'. unfold onKeyDown.
  set (usingCommand := metaKey event || ctrlKey event).
  destruct (presenterMode ui) eqn:Hp, (selectedProject ui) eqn:Hpr,
    (expandedAsset ui) eqn:He, (isTypingTarget event) eqn:Ht;
    branches; try solve [simpl in *; discriminate]; simpl; rewrite ?Hp;
      (split; [intros Hmoved; try congruence; repeat split; try reflexivity;
                      solve [left; reflexivity | right; reflexivity]
              | intros Hrange; lia]).
Qed.

Lemma keys_move_slide_only_in_presenter_mode_witness :
  let ui := {| settingsOpen := false; expandedAsset := false; sidebarOpen := true;
               presenterMode := true; selectedProject := true;
               activeSlideIndex := 4; maxSlideIndex := 4 |} in
  let event := {| key := "ArrowRight"; code := "ArrowRight"; metaKey := false;
                  ctrlKey := false; isTypingTarget := false |} in
  0 <= activeSlideIndex (fst (onKeyDown ui event)) <= maxSlideIndex (fst (onKeyDown ui event)).
Proof.
  intros ui event.
  exact (proj1 (proj2 (keys_move_slide_only_in_presenter_mode ui event) ltac:(simpl; lia))).
Defined.

End KeyboardProps.
